(** * ds-sim: total-order broadcast, causal delivery and Lamport clocks

    A shallow embedding of the sequential core of two of the simulators of
    the repository, and of the goroutines of a third:

    - the Lamport-timestamp total-order broadcast node ([Module TotalOrder],
      the second program of [src/ntp-sync/main.go]): the receive-side clock
      rule, the two staged buffers [primaryBuffer]/[secondaryBuffer] with the
      wait value [tWait], [queue], [synchronized], [flush], and the
      broadcaster of [main] with its [networkJam] matrix;
    - the sequence-number causal delivery node ([Module Causal],
      [src/unnamed/part_001]): [receive] with its [delivered] vector;
    - the Lamport-clock simulator ([Module LamportClock],
      [src/lamport-clock/main.go]): the counter and the poller of [run],
      [receiveMessage], [sendMessage], [freeze] and the commands of [main],
      as goroutines that take turns action by action.

    Go's [int64] (and [int], taken at its 64-bit width) is modelled as [Z]
    with the two's-complement wrap-around written out ([Int64.wrap]).  A
    [container/list] is a Rocq [list]; the [map[int]bool] of [synchronized]
    is a [gmap Z bool]; slices indexed by an [int] are lists read through
    [index], which panics outside the slice like Go does.  In the first
    two simulators each goroutine body is modelled as the function it runs
    while it holds its locks.

    Names are those of the source where Rocq allows it.  The fields of the
    two [message] structs carry the prefix [m_] ([m_sender], [m_t],
    [m_data], [m_sequence]), and the timestamp [t] of a node is [n_t], since
    one module cannot hold two projections of the same name; the loops
    inside a source function are named after what they do ([insert_scan],
    [mark_senders], [drain], [promote], [scan], [deliver_loop]). *)

From stdpp Require Import gmap strings list sorting.
From Stdlib Require Import ZArith Lia.

Local Open Scope Z_scope.
Set Warnings "-clear-no-such-hyp".

(** ** 64-bit two's-complement integers *)

Module Int64.

Definition min_int : Z := - 2 ^ 63.
Definition max_int : Z := 2 ^ 63 - 1.

(** The value a mathematical integer has once stored in an [int64]. *)
Definition wrap (z : Z) : Z := (z + 2 ^ 63) mod 2 ^ 64 - 2 ^ 63.

Definition in_range (z : Z) : Prop := min_int <= z <= max_int.

Definition add (a b : Z) : Z := wrap (a + b).
Definition sub (a b : Z) : Z := wrap (a - b).
(** [x++] *)
Definition incr (a : Z) : Z := wrap (a + 1).

End Int64.

(** ** Panics

    Code that can panic returns [Ok v] or [Panic why]. *)

Inductive panic : Type :=
| IndexOutOfRange     (* slice index outside [0, len) *)
| RandIntNonPositive. (* crypto/rand.Int called with max <= 0 *)

Inductive outcome (A : Type) : Type :=
| Ok (a : A)
| Panic (why : panic).
Arguments Ok {A} a.
Arguments Panic {A} why.

Definition obind {A B} (x : outcome A) (k : A -> outcome B) : outcome B :=
  match x with
  | Ok a => k a
  | Panic why => Panic why
  end.

Notation "'do' x <- e ; k" := (obind e (fun x => k))
  (at level 10, x name, e at level 100, k at level 200).

(** [s[i]] for a Go slice [s] and an [int] index [i]. *)
Definition index {A} (s : list A) (i : Z) : outcome A :=
  if i <? 0 then Panic IndexOutOfRange
  else match s !! Z.to_nat i with
       | Some a => Ok a
       | None => Panic IndexOutOfRange
       end.

(** ** The total-order broadcast node *)

Module TotalOrder.

(** [type message struct { sender int; t int64; data string }] *)
Record message : Type := Message {
  m_sender : Z;
  m_t : Z;
  m_data : string;
}.

#[global] Instance message_eq_dec : EqDecision message.
Proof. solve_decision. Defined.

(** One line written by [flush] to the log:
    "Node id #t receives broadcast: data (from node sender at #t)". *)
Record delivery : Type := Delivery {
  d_node : Z;
  d_clock : Z;
  d_message : message;
}.

(** The fields of [node] its receive path reads or writes;
    [participants] is [n.pool.participants], [n_t] is the Lamport
    timestamp [n.t] and [log] collects what [n.l.Printf] receives from
    [flush]. *)
Record node : Type := Node {
  id : Z;
  participants : Z;
  primaryBuffer : list message;
  secondaryBuffer : list message;
  tWait : Z;
  n_t : Z;
  log : list delivery;
}.

Definition newNode (participants id : Z) : node :=
  {| id := id; participants := participants;
     primaryBuffer := []; secondaryBuffer := [];
     tWait := 0; n_t := 0; log := [] |}.

Definition set_primaryBuffer (l : list message) (n : node) : node :=
  {| id := id n; participants := participants n;
     primaryBuffer := l; secondaryBuffer := secondaryBuffer n;
     tWait := tWait n; n_t := n_t n; log := log n |}.

Definition set_secondaryBuffer (l : list message) (n : node) : node :=
  {| id := id n; participants := participants n;
     primaryBuffer := primaryBuffer n; secondaryBuffer := l;
     tWait := tWait n; n_t := n_t n; log := log n |}.

Definition set_tWait (w : Z) (n : node) : node :=
  {| id := id n; participants := participants n;
     primaryBuffer := primaryBuffer n; secondaryBuffer := secondaryBuffer n;
     tWait := w; n_t := n_t n; log := log n |}.

Definition set_t (v : Z) (n : node) : node :=
  {| id := id n; participants := participants n;
     primaryBuffer := primaryBuffer n; secondaryBuffer := secondaryBuffer n;
     tWait := tWait n; n_t := v; log := log n |}.

(** *** The clock *)

(** The body of the ticking goroutine of [run]: [n.t++]. *)
Definition tick (v : Z) : Z := Int64.incr v.

(** The first block of [receive]:
    [if m.t > n.t { n.t = m.t }; n.t++]. *)
Definition sync_clock (v mt : Z) : Z :=
  Int64.incr (if v <? mt then mt else v).

(** [send], up to the hand-over to the pool: the message stamped with the
    clock value read under [tMu]. *)
Definition send (data : string) (n : node) : message :=
  {| m_sender := id n; m_t := n_t n; m_data := data |}.

(** *** [queue] *)

(** The scan of [queue] over the target list: [mark] walks from the front
    and stops at the first element with [m.t < mark.t]; the message goes
    before [mark], or to the back when the scan runs off the list. *)
Fixpoint insert_scan (m : message) (target : list message) : list message :=
  match target with
  | [] => [m]
  | mark :: rest =>
      if m_t m <? m_t mark then m :: mark :: rest
      else mark :: insert_scan m rest
  end.

Definition queue (m : message) (n : node) : node :=
  if (0 <? length (primaryBuffer n))%nat then
    if m_t m <? tWait n then
      set_primaryBuffer (insert_scan m (primaryBuffer n)) n
    else
      set_secondaryBuffer (insert_scan m (secondaryBuffer n)) n
  else
    let n' := set_tWait (m_t m) n in
    set_primaryBuffer (insert_scan m (primaryBuffer n')) n'.

(** *** [synchronized] *)

(** The loop of [synchronized]: [nodes[m.sender] = true] for every
    message of the secondary buffer, front to back. *)
Definition mark_senders (secondary : list message) : gmap Z bool :=
  foldl (fun nodes m => <[m_sender m := true]> nodes) ∅ secondary.

Definition synchronized (n : node) : bool :=
  bool_decide (Z.of_nat (size (mark_senders (secondaryBuffer n)))
               = participants n).

(** *** [flush] *)

(** First loop of [flush]: while the primary buffer has a front, pop it,
    [n.t++], log the delivery with the new clock value.  Returns what is
    left of the buffer, the clock and the log. *)
Fixpoint drain (nid : Z) (primary : list message) (clock : Z)
    (lg : list delivery) : list message * Z * list delivery :=
  match primary with
  | [] => ([], clock, lg)
  | m :: rest =>
      let clock' := Int64.incr clock in
      drain nid rest clock' (lg ++ [Delivery nid clock' m])
  end.

(** Second loop of [flush]: while the secondary buffer has a front, pop
    it, raise [tWait] to [m.t] when [m.t > tWait], push the message at the
    back of the primary buffer.  Returns the primary buffer and [tWait]. *)
Fixpoint promote (secondary primary : list message) (w : Z)
    : list message * Z :=
  match secondary with
  | [] => (primary, w)
  | m :: rest =>
      promote rest (primary ++ [m]) (if w <? m_t m then m_t m else w)
  end.

Definition flush (n : node) : node :=
  let '(drained, clock, lg) :=
    drain (id n) (primaryBuffer n) (n_t n) (log n) in
  let '(primary, w) := promote (secondaryBuffer n) drained (tWait n) in
  {| id := id n; participants := participants n;
     primaryBuffer := primary; secondaryBuffer := [];
     tWait := w; n_t := clock; log := lg |}.

(** *** [receive] *)

Definition receive (m : message) (n : node) : node :=
  let n1 := set_t (sync_clock (n_t n) (m_t m)) n in
  let n2 := queue m n1 in
  if synchronized n2 then flush n2 else n2.

(** The messages a node receives one after the other. *)
Definition receive_all (ms : list message) (n : node) : node :=
  foldl (fun n m => receive m n) n ms.

(** Buffer operations in any order, as the testable properties of the
    buffer quantify over them. *)
Inductive op : Type :=
| Insert (m : message)
| Flush.

Definition apply_op (n : node) (o : op) : node :=
  match o with
  | Insert m => queue m n
  | Flush => flush n
  end.

Definition run_ops (ops : list op) (n : node) : node := foldl apply_op n ops.

(** *** The broadcaster of [main] *)

(** [networkJam]: [nodeCount] rows of [nodeCount] zeros. *)
Definition newJam (nodeCount : nat) : list (list Z) :=
  replicate nodeCount (replicate nodeCount 0).

(** [networkJam[source][target]] *)
Definition jam_entry (networkJam : list (list Z)) (source target : Z)
    : outcome Z :=
  do row <- index networkJam source;
  index row target.

(** The [jam] command: [networkJam[source][target] = latency]. *)
Definition setJam (networkJam : list (list Z)) (source target latency : Z)
    : outcome (list (list Z)) :=
  do row <- index networkJam source;
  do _ <- index row target;
  Ok (<[Z.to_nat source := <[Z.to_nat target := latency]> row]> networkJam).

(** [crypto/rand.Int(rand.Reader, max)]: panics when [max <= 0], else
    returns a value of [[0, max)]; the random source is the argument
    [r], reduced into that interval. *)
Definition rand_Int (max r : Z) : outcome Z :=
  if max <=? 0 then Panic RandIntNonPositive else Ok (r mod max).

(** One leg of [broadcaster], up to the sleep: the value of [latency],
    a number of milliseconds, of the leg that takes [m] to node [i].
    [r, _ := rand.Int(rand.Reader, big.NewInt(int64(lmax - lmin)))]
    [latency := int64(networkJam[m.sender][i]) + int64(lmin) + r.Int64()] *)
Definition leg_latency (networkJam : list (list Z)) (m : message) (i : Z)
    (lmin lmax r : Z) : outcome Z :=
  do d <- rand_Int (Int64.sub lmax lmin) r;
  do j <- jam_entry networkJam (m_sender m) i;
  Ok (Int64.add (Int64.add j lmin) d).

(** [broadcaster]: one leg per node of the pool, [for i := range nodes];
    leg [i] draws [r i].  The result lists, per destination, the latency
    the leg works out, or the panic that ends it; [handovers] below
    follows the legs through their sleep. *)
Definition broadcaster (networkJam : list (list Z)) (nodeCount : nat)
    (m : message) (lmin lmax : Z) (r : nat -> Z) : list (outcome Z) :=
  (fun i => leg_latency networkJam m (Z.of_nat i) lmin lmax (r i))
    <$> seq 0 nodeCount.

(** [time.Millisecond]: a [time.Duration], which is an [int64] count of
    nanoseconds. *)
Definition Millisecond : Z := 1000000.

(** [time.Duration(latency) * time.Millisecond]: a product of [int64]s,
    which wraps around. *)
Definition duration (latency : Z) : Z := Int64.wrap (latency * Millisecond).

(** [time.Sleep(d)]: the nanoseconds the goroutine sleeps for, a lower
    bound of the time it is held back; [Sleep] returns at once when [d]
    is zero or negative. *)
Definition Sleep (d : Z) : Z := if d <=? 0 then 0 else d.

(** What a leg of [broadcaster] does with its latency:
    [time.Sleep(time.Duration(latency) * time.Millisecond)], then
    [nodes[i].broadcast <- m].  [h_pause] is what the leg sleeps for, in
    nanoseconds, [h_node] the index of the node whose channel gets
    [h_message]. *)
Record handover : Type := Handover {
  h_pause : Z;
  h_node : Z;
  h_message : message;
}.

(** [broadcaster] to the end of its legs: per destination, the hand-over
    the leg ends with, or the panic that ended it before. *)
Definition handovers (networkJam : list (list Z)) (nodeCount : nat)
    (m : message) (lmin lmax : Z) (r : nat -> Z)
    : list (outcome handover) :=
  imap (fun i leg =>
          do latency <- leg;
          Ok (Handover (Sleep (duration latency)) (Z.of_nat i) m))
    (broadcaster networkJam nodeCount m lmin lmax r).

End TotalOrder.

(** ** Specification vocabulary for the total-order node *)

Module TotalOrderSpec.
Import TotalOrder.

(** Ascending by timestamp. *)
Definition ts_le (a b : message) : Prop := m_t a <= m_t b.

Definition sorted (l : list message) : Prop := StronglySorted ts_le l.

(** The sender ids represented in a buffer. *)
Definition senders (l : list message) : gset Z :=
  list_to_set (m_sender <$> l).

(** [v] is the largest timestamp carried by a message of [l]. *)
Definition is_max_ts (v : Z) (l : list message) : Prop :=
  (exists m, m ∈ l /\ m_t m = v) /\ Forall (fun m => m_t m <= v) l.

(** The larger of [w] and the timestamps of [l]. *)
Definition max_ts (w : Z) (l : list message) : Z :=
  foldl (fun w m => Z.max w (m_t m)) w l.

(** The deliveries a node [nid] whose clock shows [clock] logs for the
    messages of [l], front to back: the [k]-th (from 0) carries the clock
    after [k + 1] increments. *)
Definition emitted (nid clock : Z) (l : list message) : list delivery :=
  imap (fun k m => Delivery nid (Nat.iter (S k) Int64.incr clock) m) l.

(** The messages of [l] that carry timestamp [v], in the order of [l]. *)
Definition at_ts (v : Z) (l : list message) : list message :=
  filter (fun m => m_t m = v) l.

(** [l] holds the messages of [arrivals], ascending by timestamp, those of
    equal timestamp in the order they have in [arrivals]. *)
Definition stable_sort_of (l arrivals : list message) : Prop :=
  sorted l /\ l ≡ₚ arrivals /\ forall v, at_ts v l = at_ts v arrivals.

(** The invariant of the two buffers and the wait value. *)
Record buffer_inv (n : node) : Prop := BufferInv {
  inv_primary_sorted : sorted (primaryBuffer n);
  inv_secondary_sorted : sorted (secondaryBuffer n);
  inv_primary_le : Forall (fun m => m_t m <= tWait n) (primaryBuffer n);
  inv_secondary_ge : Forall (fun m => tWait n <= m_t m) (secondaryBuffer n);
  inv_empty : primaryBuffer n = [] -> secondaryBuffer n = [];
  inv_attained :
    primaryBuffer n <> [] -> exists m, m ∈ primaryBuffer n /\ m_t m = tWait n;
}.

(** Buffer operations together with the arrival order of the messages each
    buffer holds: a message is appended to the arrivals of the buffer
    [queue] puts it in, and [flush] hands the arrivals of the secondary
    buffer over to the primary one. *)
Record traced : Type := Traced {
  tr_node : node;
  tr_primary : list message;
  tr_secondary : list message;
}.

Definition traced_step (s : traced) (o : op) : traced :=
  match o with
  | Insert m =>
      let n := tr_node s in
      if (0 <? length (primaryBuffer n))%nat && negb (m_t m <? tWait n) then
        Traced (queue m n) (tr_primary s) (tr_secondary s ++ [m])
      else
        Traced (queue m n) (tr_primary s ++ [m]) (tr_secondary s)
  | Flush => Traced (flush (tr_node s)) (tr_secondary s) []
  end.

Definition traced_run (ops : list op) (n : node) : traced :=
  foldl traced_step (Traced n [] []) ops.

(** What a traced run keeps true: the invariant of the buffers, and each
    buffer is its arrivals in ascending order of timestamp, ties in order of
    arrival. *)
Definition traced_inv (s : traced) : Prop :=
  buffer_inv (tr_node s) /\
  stable_sort_of (primaryBuffer (tr_node s)) (tr_primary s) /\
  stable_sort_of (secondaryBuffer (tr_node s)) (tr_secondary s).

#[global] Instance ts_le_dec a b : Decision (ts_le a b).
Proof. unfold ts_le. apply _. Defined.

(** The position a scan from the front of [l] stops at: the index of the
    first element [stop] accepts, [length l] when there is none. *)
Fixpoint first_index (stop : message -> bool) (l : list message) : nat :=
  match l with
  | [] => O
  | x :: rest => if stop x then O else S (first_index stop rest)
  end.

(** [m] put in front of the element at position [i] of [l]. *)
Definition insert_at (i : nat) (m : message) (l : list message)
    : list message :=
  take i l ++ m :: drop i l.

(** Insertion in front of the first element whose timestamp is later than
    that of [m]. *)
Definition insert_before_first_later (m : message) (l : list message)
    : list message :=
  insert_at (first_index (fun x => m_t m <? m_t x) l) m l.

(** Insertion in front of the first element whose timestamp is not
    smaller than that of [m], the way the specification words the scan of
    [queue]. *)
Definition insert_before_first_not_smaller (m : message)
    (l : list message) : list message :=
  insert_at (first_index (fun x => m_t m <=? m_t x) l) m l.

(** The scenario of three nodes: node 0 sends "A" at 5, node 1 sends "B"
    at 5, node 2 sends "C" at 6. *)
Definition msgA : message := Message 0 5 "A".
Definition msgB : message := Message 1 5 "B".
Definition msgC : message := Message 2 6 "C".
Definition msgD : message := Message 1 9 "D".

(** A third message of timestamp 5. *)
Definition msgE : message := Message 2 5 "E".

(** A node of a pool of three whose buffers are empty, whatever its id,
    wait value, clock and log. *)
Definition idle (i w c : Z) (lg : list delivery) : node :=
  {| id := i; participants := 3; primaryBuffer := []; secondaryBuffer := [];
     tWait := w; n_t := c; log := lg |}.

(** The jam matrix of three nodes after the command [jam 0 1 300]. *)
Definition jam_0_1_300 : list (list Z) := [[0; 300; 0]; [0; 0; 0]; [0; 0; 0]].

(** Node 1 of three, holding "A" in the primary buffer and "B", "C" in
    the secondary one. *)
Definition node_ABC : node :=
  {| id := 1; participants := 3; primaryBuffer := [msgA];
     secondaryBuffer := [msgB; msgC]; tWait := 5; n_t := 8; log := [] |}.

(** The jam matrix of one node after the command
    [jam 0 0 9223372036854775807]. *)
Definition jam_0_0_max : list (list Z) := [[Int64.max_int]].

(** A buffer holding "A" (timestamp 5) in the primary buffer, with wait
    value 6. *)
Definition node_A6 : node :=
  {| id := 1; participants := 3; primaryBuffer := [msgA];
     secondaryBuffer := []; tWait := 6; n_t := 0; log := [] |}.

End TotalOrderSpec.

(** ** The causal-delivery node *)

Module Causal.

(** [type message struct { sender int; sequence int; data string }] *)
Record message : Type := Message {
  m_sender : Z;
  m_sequence : Z;
  m_data : string;
}.

(** The fields of [node] that [send] and [receive] read or write; [log]
    collects the messages [receive] reports as delivered, in order. *)
Record node : Type := Node {
  id : Z;
  sendSeq : Z;
  delivered : list Z;
  buffer : list message;
  log : list message;
}.

(** [newNode]: [delivered] is [make([]int, pool.participants)]. *)
Definition newNode (participants : nat) (id : Z) : node :=
  {| id := id; sendSeq := 0; delivered := replicate participants 0;
     buffer := []; log := [] |}.

(** [send], up to the hand-over to the pool: the message built and the
    node with its sequence counter advanced. *)
Definition send (data : string) (n : node) : node * message :=
  ({| id := id n; sendSeq := Int64.incr (sendSeq n);
      delivered := delivered n; buffer := buffer n; log := log n |},
   {| m_sender := id n; m_sequence := sendSeq n; m_data := data |}).

(** The inner [for] of [receive]: walk the buffer from the front, stop at
    the first element whose sequence number is [delivered[sender]] and
    remove it.  [None] when the walk finds nothing ([ok] stays false). *)
Fixpoint scan (delivered : list Z) (buf : list message)
    : outcome (option (message * list message)) :=
  match buf with
  | [] => Ok None
  | e :: rest =>
      do d <- index delivered (m_sender e);
      if m_sequence e =? d then Ok (Some (e, rest))
      else
        do r <- scan delivered rest;
        Ok (match r with
            | None => None
            | Some (deliver, rest') => Some (deliver, e :: rest')
            end)
  end.

(** The tail of a round of the outer [for] that found [deliver]:
    [n.delivered[deliver.sender]++] on the entry read as [d], the buffer
    without the element removed, and the delivery logged. *)
Definition delivered_one (n : node) (e : message) (d : Z)
    (rest : list message) : node :=
  {| id := id n; sendSeq := sendSeq n;
     delivered := <[Z.to_nat (m_sender e) := Int64.incr d]> (delivered n);
     buffer := rest; log := log n ++ [e] |}.

(** The outer [for] of [receive].  Every round that does not leave the
    loop removes one element of the buffer, so [fuel] above the length of
    the buffer is never used up (lemma [deliver_loop_fuel]). *)
Fixpoint deliver_loop (fuel : nat) (n : node) : outcome node :=
  match fuel with
  | O => Ok n
  | S fuel' =>
      do r <- scan (delivered n) (buffer n);
      match r with
      | None => Ok n
      | Some (deliver, rest) =>
          do d <- index (delivered n) (m_sender deliver);
          deliver_loop fuel' (delivered_one n deliver d rest)
      end
  end.

Definition receive (m : message) (n : node) : outcome node :=
  let n1 := {| id := id n; sendSeq := sendSeq n; delivered := delivered n;
               buffer := buffer n ++ [m]; log := log n |} in
  deliver_loop (S (length (buffer n1))) n1.

(** The messages a node receives one after the other. *)
Fixpoint receive_all (ms : list message) (n : node) : outcome node :=
  match ms with
  | [] => Ok n
  | m :: ms' => do n' <- receive m n; receive_all ms' n'
  end.

End Causal.

(** ** Specification vocabulary for the causal node *)

Module CausalSpec.
Import Causal.

(** The messages of [l] sent by [s], in the order of [l]. *)
Definition from (s : Z) (l : list message) : list message :=
  filter (fun m => m_sender m = s) l.

Definition sequences_from (s : Z) (l : list message) : list Z :=
  m_sequence <$> from s l.

(** The value of an [int] counter that starts at 0 after [j]
    increments. *)
Definition counter (j : nat) : Z := Nat.iter j Int64.incr 0.

(** The first [k] values of that counter. *)
Definition counting (k : nat) : list Z := counter <$> seq 0 k.

(** Deliveries replayed against a [delivered] vector: each message must
    carry the sequence number the vector holds for its sender, and
    advances that entry by one increment.  [None] when a message does
    not. *)
Fixpoint replay (delivered : list Z) (ds : list message)
    : option (list Z) :=
  match ds with
  | [] => Some delivered
  | e :: ds' =>
      match index delivered (m_sender e) with
      | Ok d =>
          if m_sequence e =? d then
            replay (<[Z.to_nat (m_sender e) := Int64.incr d]> delivered) ds'
          else None
      | Panic _ => None
      end
  end.

(** Every message of [l] names a sender the vector has an entry for. *)
Definition senders_known (delivered : list Z) (l : list message) : Prop :=
  Forall (fun x => 0 <= m_sender x < Z.of_nat (length delivered)) l.

(** No message of [l] is deliverable. *)
Definition all_blocked (delivered : list Z) (l : list message) : Prop :=
  Forall (fun x => exists d,
            index delivered (m_sender x) = Ok d /\ m_sequence x <> d) l.

(** Every entry of the [delivered] vector is the counter value after as
    many increments as the log shows deliveries from that sender, and the
    sequence numbers of those deliveries are the values the counter went
    through. *)
Definition counted (dl : list Z) (lg : list message) : Prop :=
  forall s d, index dl s = Ok d ->
    d = counter (length (from s lg)) /\
    sequences_from s lg = counting (length (from s lg)).

(** What a run of [receive] keeps true. *)
Definition run_inv (p : nat) (n : node) : Prop :=
  length (delivered n) = p /\
  senders_known (delivered n) (buffer n) /\
  counted (delivered n) (log n).

(** A single-sender node whose counter stands at the largest [int],
    holding a message numbered with the smallest one. *)
Definition node_full : node :=
  {| id := 0; sendSeq := 0; delivered := [Int64.max_int];
     buffer := [Message 0 Int64.min_int "y"]; log := [] |}.

Definition msg_last : message := Message 0 Int64.max_int "x".

(** A single-sender node that has delivered "a" (number 0) and "b"
    (number 1). *)
Definition node_ab : node :=
  {| id := 0; sendSeq := 0; delivered := [2]; buffer := [];
     log := [Message 0 0 "a"; Message 0 1 "b"] |}.

End CausalSpec.

(** ** More vocabulary for the total-order node *)

Module DeliverySpec.
Import TotalOrder TotalOrderSpec.

(** The messages a node holds back, primary buffer first. *)
Definition held (n : node) : list message :=
  primaryBuffer n ++ secondaryBuffer n.

(** The messages a node has logged as delivered, oldest first. *)
Definition delivered_messages (n : node) : list message :=
  d_message <$> log n.

(** The node [receive] hands to [synchronized]. *)
Definition queued (m : message) (n : node) : node :=
  queue m (set_t (sync_clock (n_t n) (m_t m)) n).

(** The ids of a pool of [p] nodes. *)
Definition pool_ids (p : nat) : gset Z := list_to_set (seqZ 0 (Z.of_nat p)).

(** What happens at a node, one thing after the other: a turn of the
    ticking goroutine of [run], or a message taken off the [broadcast]
    channel and handed to [receive]. *)
Inductive event : Type :=
| Tick
| Receive (m : message).

Definition handle (n : node) (e : event) : node :=
  match e with
  | Tick => set_t (tick (n_t n)) n
  | Receive m => receive m n
  end.

Definition handle_all (es : list event) (n : node) : node :=
  foldl handle n es.

(** The timestamp an event brings to the node, if any, is between the
    smallest [int64] and [bound]. *)
Definition stamped_within (bound : Z) (e : event) : Prop :=
  match e with
  | Tick => True
  | Receive m => Int64.min_int <= m_t m <= bound
  end.

(** [jam] has [k] rows of [k] entries. *)
Definition square (k : nat) (jam : list (list Z)) : Prop :=
  length jam = k /\ Forall (fun row => length row = k) jam.

(** [jam] commands one after the other, each a source, a target and a
    latency; the first that panics ends the program. *)
Fixpoint jam_commands (cmds : list (Z * Z * Z)) (jam : list (list Z))
    : outcome (list (list Z)) :=
  match cmds with
  | [] => Ok jam
  | (source, target, latency) :: rest =>
      do jam' <- setJam jam source target latency;
      jam_commands rest jam'
  end.

(** Delivery clocks grow along the log. *)
Definition clocks_increase (lg : list delivery) : Prop :=
  StronglySorted (fun a b => d_clock a < d_clock b) lg.

(** What a run of [receive] keeps true while no clock value wraps: the
    clock is past the timestamp of every message held back and of every
    delivery logged, the deliveries carry growing clocks above the
    timestamp of their message, and the clock stays within [bound] plus
    the number of events handled and of messages delivered. *)
Record clock_inv (bound : Z) (handled : nat) (n : node) : Prop := ClockInv {
  ci_low : 0 <= n_t n;
  ci_high : n_t n <= bound + Z.of_nat handled + Z.of_nat (length (log n));
  ci_log_len : (length (log n) + length (held n) <= handled)%nat;
  ci_held : Forall (fun m => m_t m < n_t n) (held n);
  ci_log : Forall (fun d => m_t (d_message d) < d_clock d <= n_t n) (log n);
  ci_sorted : clocks_increase (log n);
}.

End DeliverySpec.

(** ** More vocabulary for the causal node *)

Module CausalRunSpec.
Import Causal CausalSpec.

(** [send] once per payload, first to last: the node afterwards and the
    messages handed to the pool, in the order sent. *)
Fixpoint send_all (datas : list string) (n : node) : node * list message :=
  match datas with
  | [] => (n, [])
  | data :: rest =>
      let '(n1, m) := send data n in
      let '(n2, ms) := send_all rest n1 in
      (n2, m :: ms)
  end.

(** The messages node [s] of a pool of [p] broadcasts when it sends the
    payloads [datas] from its start. *)
Definition sent (p : nat) (s : Z) (datas : list string) : list message :=
  (send_all datas (newNode p s)).2.

(** Node 0 sends "a" then "b", node 1 sends "c". *)
Definition two_senders (s : Z) : list string :=
  if s =? 0 then ["a"; "b"] else if s =? 1 then ["c"] else [].

(** Their messages in an order they may arrive in. *)
Definition two_senders_arrivals : list message :=
  [Message 0 1 "b"; Message 1 0 "c"; Message 0 0 "a"].

(** The first [k] sequence numbers. *)
Definition numbers (k : nat) : list Z := Z.of_nat <$> seq 0 k.

(** Every message of [l] names a sender of a pool of [p]. *)
Definition from_pool (p : nat) (l : list message) : Prop :=
  Forall (fun x => 0 <= m_sender x < Z.of_nat p) l.

(** What a run of [receive] on a fresh node of a pool of [p] keeps true:
    the invariant of the counters, nothing deliverable is left in the
    buffer, and buffer and log together hold exactly the [arrived]
    messages. *)
Definition settled (p : nat) (arrived : list message) (n : node) : Prop :=
  run_inv p n /\
  all_blocked (delivered n) (buffer n) /\
  buffer n ++ log n ≡ₚ arrived.

(** One leg of the [broadcaster] of [main], up to the sleep: the value of
    [latency], a number of milliseconds, the draw of [crypto/rand.Int]
    being [r].
    [r, _ := rand.Int(rand.Reader, big.NewInt(int64(lmax - lmin)))]
    [latency := int64(lmin) + r.Int64()] *)
Definition leg_latency (lmin lmax r : Z) : outcome Z :=
  do d <- TotalOrder.rand_Int (Int64.sub lmax lmin) r;
  Ok (Int64.add lmin d).

(** [broadcaster]: one leg per node, [for i := range nodes]; leg [i]
    draws [r i].  Per node, the latency the leg works out or the panic
    that ends it. *)
Definition broadcaster (nodeCount : nat) (lmin lmax : Z) (r : nat -> Z)
    : list (outcome Z) :=
  (fun i => leg_latency lmin lmax (r i)) <$> seq 0 nodeCount.

(** What a leg does with its latency:
    [time.Sleep(time.Duration(latency) * time.Millisecond)], then
    [nodes[i].broadcast <- m].  [h_pause] is what the leg sleeps for, in
    nanoseconds, [h_node] the index of the node whose channel gets
    [h_message]. *)
Record handover : Type := Handover {
  h_pause : Z;
  h_node : Z;
  h_message : message;
}.

(** [broadcaster] to the end of its legs. *)
Definition handovers (nodeCount : nat) (m : message) (lmin lmax : Z)
    (r : nat -> Z) : list (outcome handover) :=
  imap (fun i leg =>
          do latency <- leg;
          Ok (Handover (TotalOrder.Sleep (TotalOrder.duration latency))
                (Z.of_nat i) m))
    (broadcaster nodeCount lmin lmax r).

End CausalRunSpec.

(** ** The Lamport-clock simulator

    [src/lamport-clock/main.go]: nodes whose clock ticks, that can be
    frozen, and that send each other timestamped messages.  The program is
    a handful of goroutines around the clocks: per node the counter and the
    poller that [run] starts, one goroutine per [freeze], and [main], which
    reads the commands and runs [sendMessage] itself.  A goroutine moves in
    actions: a section under [tMu] (so every call of [time]), a load or
    store of [freezing], a line written to the logger, the hand-over of a
    message on [msgCh].  The model keeps for every goroutine where it
    stands, and an event names the goroutine that does its next action. *)

Module LamportClock.

(** [type message struct { t int64; data string }] *)
Record message : Type := Message {
  m_t : Z;
  m_data : string;
}.

(** The lines the nodes log. *)
Inductive entry : Type :=
| Received (node t1 t2 : Z) (data : string) (mt : Z)
    (* "Node id (#t1 -> #t2) receives message: data (#mt)" *)
| Sent (node t target : Z)
    (* "Node id (#t) sends message to node target" *)
| Froze (node t : Z)
    (* "Node id (#t) frozen for d" *)
| Unfroze (node t : Z).
    (* "Node id (#t) unfreezes" *)

(** Where the poller of a node stands: blocked on [<-n.msgCh], or in
    [receiveMessage] with the message taken, after [t1 := n.time()], after
    the section that sets the clock, after [t2 := n.time()]. *)
Inductive receiving : Type :=
| Polling
| Taken (m : message)
| Read1 (m : message) (t1 : Z)
| Synced (m : message) (t1 : Z)
| Read2 (m : message) (t1 t2 : Z).

(** The fields of [node] that the simulation reads or writes, [n_t] being
    the clock [n.t], and where its two goroutines stand: [passed] says
    that the counter has left the loop on [freezing] and does [n.t++]
    next. *)
Record node : Type := Node {
  id : Z;
  n_t : Z;
  freezing : bool;
  passed : bool;
  receiver : receiving;
}.

Definition set_t (t : Z) (n : node) : node :=
  {| id := id n; n_t := t; freezing := freezing n; passed := passed n;
     receiver := receiver n |}.

Definition set_freezing (b : bool) (n : node) : node :=
  {| id := id n; n_t := n_t n; freezing := b; passed := passed n;
     receiver := receiver n |}.

Definition set_passed (b : bool) (n : node) : node :=
  {| id := id n; n_t := n_t n; freezing := freezing n; passed := b;
     receiver := receiver n |}.

Definition set_receiver (r : receiving) (n : node) : node :=
  {| id := id n; n_t := n_t n; freezing := freezing n; passed := passed n;
     receiver := r |}.

Definition newNode (id : Z) : node :=
  {| id := id; n_t := 0; freezing := false; passed := false;
     receiver := Polling |}.

Definition time (n : node) : Z := n_t n.

(** The counter of [run]: it turns in the loop on [freezing] until the
    flag is down, then does [n.t++] and comes back to the loop. *)
Definition counter (n : node) : node :=
  if passed n then set_passed false (set_t (Int64.incr (n_t n)) n)
  else if freezing n then n
  else set_passed true n.

(** The next action of the poller inside [receiveMessage], with the line
    it logs, if any. *)
Definition receiveMessage (n : node) : node * list entry :=
  match receiver n with
  | Polling => (n, [])
  | Taken m => (set_receiver (Read1 m (time n)) n, [])
  | Read1 m t1 =>
      let t := if n_t n <? m_t m then m_t m else n_t n in
      (set_receiver (Synced m t1) (set_t (Int64.incr t) n), [])
  | Synced m t1 => (set_receiver (Read2 m t1 (time n)) n, [])
  | Read2 m t1 t2 =>
      (set_receiver Polling n,
       [Received (id n) t1 t2 (m_data m) (m_t m)])
  end.

(** Where a goroutine of [freeze] stands: started, after the [n.time()] of
    the first line, after that line, after [freezing.Store(true)], after
    [freezing.Store(false)], after the [n.time()] of the second line,
    finished. *)
Inductive freezer : Type :=
| Spawned
| FrozeRead (t : Z)
| FrozeLogged
| Sleeping
| Woken
| UnfrozeRead (t : Z)
| Gone.

(** The next action of a goroutine of [freeze] on its node. *)
Definition freeze (f : freezer) (n : node) : freezer * node * list entry :=
  match f with
  | Spawned => (FrozeRead (time n), n, [])
  | FrozeRead t => (FrozeLogged, n, [Froze (id n) t])
  | FrozeLogged => (Sleeping, set_freezing true n, [])
  | Sleeping => (Woken, set_freezing false n, [])
  | Woken => (UnfrozeRead (time n), n, [])
  | UnfrozeRead t => (Gone, n, [Unfroze (id n) t])
  | Gone => (Gone, n, [])
  end.

(** The commands of [main] that touch the nodes, with the numbers typed
    in. *)
Inductive command : Type :=
| CmdSend (source target : Z) (data : string)
| CmdFreeze (node : Z).

(** Where [main] stands: at the prompt, or in [sendMessage] on the nodes
    with these indices: called, after the section that builds the message,
    after the [n.time()] of its line, after the line (in the delay or
    blocked on [target.msgCh <- m]). *)
Inductive sending : Type :=
| Prompt
| Called (source target : nat) (data : string)
| Built (source target : nat) (m : message)
| Timed (source target : nat) (m : message) (t : Z)
| Logged (target : nat) (m : message).

(** The nodes, [main], the commands not yet read, the goroutines of
    [freeze] with the index of their node, and the lines logged so far
    (the [logs] command prints and forgets them, the model keeps them). *)
Record system : Type := System {
  nodes : list node;
  main : sending;
  stdin : list command;
  freezers : list (nat * freezer);
  log : list entry;
}.

(** [main] once [make([]*node, nodeCount)] has given it the slice, which
    takes a count that is not negative, and its loop has made and started
    the [nodeCount] nodes, with [cmds] to come. *)
Definition start (nodeCount : nat) (cmds : list command) : system :=
  {| nodes := (fun i => newNode (Z.of_nat i)) <$> seq 0 nodeCount;
     main := Prompt; stdin := cmds; freezers := []; log := [] |}.

(** The goroutine that moves: the counter or the poller of node [i], the
    [k]-th goroutine of [freeze], [main]. *)
Inductive event : Type :=
| Counter (i : nat)
| Poller (i : nat)
| Freezer (k : nat)
| Main.

(** The system with node [i] replaced and lines added to the log. *)
Definition with_node (i : nat) (n : node) (lines : list entry)
    (s : system) : system :=
  {| nodes := <[i := n]> (nodes s); main := main s; stdin := stdin s;
     freezers := freezers s; log := log s ++ lines |}.

Definition with_main (m : sending) (lines : list entry) (s : system)
    : system :=
  {| nodes := nodes s; main := m; stdin := stdin s;
     freezers := freezers s; log := log s ++ lines |}.

(** The next action of [main].  At the prompt it reads a command: [send]
    and [freeze] index [nodes] with the numbers typed in, which panics
    outside the slice.  In [sendMessage] it builds the message from the
    clock of the source, reads the clock again for the line, writes the
    line, and hands the message over once the poller of the target is
    ready for it. *)
Definition sendMessage (s : system) : outcome system :=
  match main s with
  | Prompt =>
      match stdin s with
      | [] => Ok s
      | CmdSend source target data :: rest =>
          do _ <- index (nodes s) source;
          do _ <- index (nodes s) target;
          Ok {| nodes := nodes s;
                main := Called (Z.to_nat source) (Z.to_nat target) data;
                stdin := rest; freezers := freezers s; log := log s |}
      | CmdFreeze i :: rest =>
          do _ <- index (nodes s) i;
          Ok {| nodes := nodes s; main := Prompt; stdin := rest;
                freezers := freezers s ++ [(Z.to_nat i, Spawned)];
                log := log s |}
      end
  | Called source target data =>
      match nodes s !! source with
      | Some n =>
          Ok (with_main
                (Built source target {| m_t := n_t n; m_data := data |})
                [] s)
      | None => Ok s
      end
  | Built source target m =>
      match nodes s !! source with
      | Some n => Ok (with_main (Timed source target m (time n)) [] s)
      | None => Ok s
      end
  | Timed source target m t =>
      match nodes s !! source, nodes s !! target with
      | Some n, Some tg =>
          Ok (with_main (Logged target m) [Sent (id n) t (id tg)] s)
      | _, _ => Ok s
      end
  | Logged target m =>
      match nodes s !! target with
      | Some tg =>
          match receiver tg with
          | Polling =>
              Ok {| nodes := <[target := set_receiver (Taken m) tg]>
                               (nodes s);
                    main := Prompt; stdin := stdin s;
                    freezers := freezers s; log := log s |}
          | _ => Ok s
          end
      | None => Ok s
      end
  end.

(** One event.  A goroutine that does not exist does nothing. *)
Definition step (s : system) (e : event) : outcome system :=
  match e with
  | Counter i =>
      match nodes s !! i with
      | Some n => Ok (with_node i (counter n) [] s)
      | None => Ok s
      end
  | Poller i =>
      match nodes s !! i with
      | Some n =>
          let '(n', lines) := receiveMessage n in
          Ok (with_node i n' lines s)
      | None => Ok s
      end
  | Freezer k =>
      match freezers s !! k with
      | Some (i, f) =>
          match nodes s !! i with
          | Some n =>
              let '(f', n', lines) := freeze f n in
              Ok {| nodes := <[i := n']> (nodes s); main := main s;
                    stdin := stdin s;
                    freezers := <[k := (i, f')]> (freezers s);
                    log := log s ++ lines |}
          | None => Ok s
          end
      | None => Ok s
      end
  | Main => sendMessage s
  end.

(** Events one after the other, up to the first panic. *)
Fixpoint exec (es : list event) (s : system) : outcome system :=
  match es with
  | [] => Ok s
  | e :: rest => do s' <- step s e; exec rest s'
  end.

End LamportClock.

(** ** Vocabulary for the Lamport-clock simulator *)

Module LamportClockSpec.
Import LamportClock.

(** The clock of node [i], if there is one. *)
Definition clock_of (s : system) (i : nat) : option Z :=
  n_t <$> nodes s !! i.

(** The log has a line of a message to [target] that shows a time not
    before [mt]. *)
Definition sent_to (lg : list entry) (target mt : Z) : Prop :=
  exists a source t, lg !! a = Some (Sent source t target) /\ mt <= t.

(** What holds of the poller of a node after [k] events. *)
Definition receiver_ok (k : nat) (lg : list entry) (n : node) : Prop :=
  match receiver n with
  | Polling => True
  | Taken m =>
      0 <= m_t m <= Z.of_nat k /\ sent_to lg (id n) (m_t m)
  | Read1 m t1 =>
      0 <= m_t m <= Z.of_nat k /\ sent_to lg (id n) (m_t m) /\
      t1 <= n_t n
  | Synced m t1 =>
      sent_to lg (id n) (m_t m) /\ t1 < n_t n /\ m_t m < n_t n
  | Read2 m t1 t2 =>
      sent_to lg (id n) (m_t m) /\ t1 < t2 /\ m_t m < t2
  end.

Definition node_ok (k : nat) (lg : list entry) (n : node) : Prop :=
  0 <= n_t n <= Z.of_nat k /\ receiver_ok k lg n.

(** What holds of [main] after [k] events. *)
Definition main_ok (k : nat) (s : system) : Prop :=
  match main s with
  | Prompt | Called _ _ _ => True
  | Built source _ m =>
      exists n, nodes s !! source = Some n /\ 0 <= m_t m <= n_t n
  | Timed _ _ m t => 0 <= m_t m <= Z.of_nat k /\ m_t m <= t
  | Logged target m =>
      0 <= m_t m <= Z.of_nat k /\ sent_to (log s) (Z.of_nat target) (m_t m)
  end.

(** What every run from [start] keeps true as long as no clock wraps,
    [k] being the number of events so far. *)
Record sim_inv (k : nat) (s : system) : Prop := SimInv {
  si_ids : forall i n, nodes s !! i = Some n -> id n = Z.of_nat i;
  si_nodes : Forall (node_ok k (log s)) (nodes s);
  si_main : main_ok k s;
  si_received :
    forall b n t1 t2 data mt,
      log s !! b = Some (Received n t1 t2 data mt) ->
      t1 < t2 /\ mt < t2 /\
      exists a source t,
        (a < b)%nat /\ log s !! a = Some (Sent source t n) /\ mt <= t;
}.

(** The node an event works on, and what it makes of it. *)
Inductive touches (s : system) : event -> nat -> node -> node -> Prop :=
| touches_counter i n :
    nodes s !! i = Some n -> touches s (Counter i) i n (counter n)
| touches_poller i n :
    nodes s !! i = Some n ->
    touches s (Poller i) i n (receiveMessage n).1
| touches_freezer k i f n :
    freezers s !! k = Some (i, f) -> nodes s !! i = Some n ->
    touches s (Freezer k) i n (freeze f n).1.2
| touches_main i m n :
    main s = Logged i m -> nodes s !! i = Some n ->
    receiver n = Polling ->
    touches s Main i n (set_receiver (Taken m) n).

(** A command names nodes that exist. *)
Definition names_nodes (nodeCount : nat) (c : command) : Prop :=
  match c with
  | CmdSend source target _ =>
      0 <= source < Z.of_nat nodeCount /\ 0 <= target < Z.of_nat nodeCount
  | CmdFreeze i => 0 <= i < Z.of_nat nodeCount
  end.

(** Events that leave node [i] frozen and without a message: anything but
    its poller and the goroutines of [freeze]. *)
Definition leaves_frozen (i : nat) (e : event) : Prop :=
  match e with
  | Poller j => j <> i
  | Freezer _ => False
  | Counter _ | Main => True
  end.

(** [main] is at the prompt and every poller is ready for a message. *)
Definition at_rest (s : system) : Prop :=
  main s = Prompt /\ Forall (fun n => receiver n = Polling) (nodes s).

(** The events that carry one command out from an idle system: [main]
    through [sendMessage] and the poller of the target through
    [receiveMessage]. *)
Definition schedule (c : command) : list event :=
  match c with
  | CmdSend _ target _ =>
      replicate 5 Main ++ replicate 4 (Poller (Z.to_nat target))
  | CmdFreeze _ => [Main]
  end.

(** A run of two nodes: node 0 ticks once and sends to node 1, which is
    then frozen while its counter has left the loop. *)
Definition two_nodes_cmds : list command := [CmdSend 0 1 "a"; CmdFreeze 1].

Definition two_nodes_run : list event :=
  [Counter 0; Counter 0] ++ schedule (CmdSend 0 1 "a") ++
  [Main; Counter 1; Freezer 0; Freezer 0; Freezer 0].

(** Where that run ends, and a run from there that leaves node 1
    frozen. *)
Definition frozen_system : system :=
  {| nodes :=
       [{| id := 0; n_t := 1; freezing := false; passed := false;
           receiver := Polling |};
        {| id := 1; n_t := 2; freezing := true; passed := true;
           receiver := Polling |}];
     main := Prompt; stdin := []; freezers := [(1%nat, Sleeping)];
     log := [Sent 0 1 1; Received 1 0 2 "a" 1; Froze 1 2] |}.

Definition frozen_run : list event := [Counter 1; Main; Counter 0; Counter 1].

End LamportClockSpec.

(** * Properties *)

(** Closes a decidable goal about concrete data by evaluation. *)
Ltac by_evaluation := apply (bool_decide_unpack _); vm_compute; exact I.

(** Closes [l1 ≡ₚ l2] for concrete lists by finding [l2] among the
    permutations of [l1]. *)
Ltac concrete_permutation :=
  apply permutations_Permutation; vm_compute;
  repeat first [apply list_elem_of_here | apply list_elem_of_further].


(** ** Facts on 64-bit integers and slices *)

Module Int64Facts.
Import Int64.

Lemma wrap_in_range z : in_range (wrap z).
Proof.
  unfold in_range, wrap, min_int, max_int.
  pose proof (Z.mod_pos_bound (z + 2 ^ 63) (2 ^ 64) ltac:(lia)). lia.
Qed.

Lemma wrap_small z : in_range z -> wrap z = z.
Proof.
  unfold in_range, wrap, min_int, max_int. intros Hz.
  rewrite Z.mod_small; lia.
Qed.

Lemma wrap_idemp z : wrap (wrap z) = wrap z.
Proof. apply wrap_small, wrap_in_range. Qed.

Lemma incr_small a : min_int <= a < max_int -> incr a = a + 1.
Proof. intros Ha. apply wrap_small. unfold in_range. lia. Qed.

Lemma incr_max : incr max_int = min_int.
Proof. reflexivity. Qed.

Lemma wrap_add_l a b : wrap (wrap a + b) = wrap (a + b).
Proof.
  unfold wrap.
  replace ((a + 2 ^ 63) mod 2 ^ 64 - 2 ^ 63 + b + 2 ^ 63)
    with ((a + 2 ^ 63) mod 2 ^ 64 + b) by lia.
  rewrite Zplus_mod_idemp_l. do 2 f_equal. lia.
Qed.

Lemma wrap_add_r a b : wrap (a + wrap b) = wrap (a + b).
Proof. rewrite (Z.add_comm a), wrap_add_l. f_equal. lia. Qed.

Lemma add_assoc a b c : add (add a b) c = add a (add b c).
Proof. unfold add. rewrite wrap_add_l, wrap_add_r. f_equal. lia. Qed.

(** Wrapping moves a value by a multiple of [2^64]. *)
Lemma wrap_multiple z : exists q, wrap z = z - 18446744073709551616 * q.
Proof.
  exists ((z + 2 ^ 63) / 2 ^ 64). unfold wrap.
  pose proof (Z.div_mod (z + 2 ^ 63) (2 ^ 64) ltac:(lia)) as H.
  change (2 ^ 64) with 18446744073709551616 in *. lia.
Qed.

Lemma iter_incr k c :
  in_range c -> c + Z.of_nat k <= max_int ->
  Nat.iter k incr c = c + Z.of_nat k.
Proof.
  unfold in_range. induction k as [|k IH]; intros Hc Hk.
  - simpl. lia.
  - simpl Nat.iter. rewrite IH by lia.
    rewrite incr_small; lia.
Qed.

End Int64Facts.

Lemma index_Ok {A} (s : list A) i a :
  index s i = Ok a <-> 0 <= i /\ s !! Z.to_nat i = Some a.
Proof.
  unfold index. destruct (Z.ltb_spec i 0).
  - split; [discriminate | lia].
  - destruct (s !! Z.to_nat i); split; intros; try congruence; try tauto.
    + by inversion H0.
    + destruct H0; congruence.
    + destruct H0; congruence.
Qed.


Lemma index_insert_eq {A} (s : list A) i a b :
  index s i = Ok a -> index (<[Z.to_nat i := b]> s) i = Ok b.
Proof.
  intros [Hi Hs]%index_Ok. apply index_Ok. split; [done|].
  apply list_lookup_insert_eq. by eapply lookup_lt_Some.
Qed.

Lemma index_insert_ne {A} (s : list A) i k b :
  0 <= i -> k <> i -> index (<[Z.to_nat i := b]> s) k = index s k.
Proof.
  intros Hi Hne. unfold index. destruct (Z.ltb_spec k 0); [done|].
  rewrite list_lookup_insert_ne; [done|lia].
Qed.

Lemma index_panic {A} (s : list A) i why :
  index s i = Panic why -> why = IndexOutOfRange.
Proof.
  unfold index. destruct (i <? 0); [by intros [= <-]|].
  destruct (s !! Z.to_nat i); [done|by intros [= <-]].
Qed.

Lemma index_in_range {A} (s : list A) i :
  0 <= i < Z.of_nat (length s) -> exists a, index s i = Ok a.
Proof.
  intros Hi. destruct (lookup_lt_is_Some_2 s (Z.to_nat i)) as [a Ha]; [lia|].
  exists a. apply index_Ok. split; [lia|done].
Qed.

Lemma index_Ok_range {A} (s : list A) i a :
  index s i = Ok a -> 0 <= i < Z.of_nat (length s).
Proof.
  intros [Hi Hs]%index_Ok. apply lookup_lt_Some in Hs. lia.
Qed.

(** ** The total-order broadcast node: buffers *)

Module TotalOrderFacts.
Import TotalOrder TotalOrderSpec.

#[local] Instance ts_le_trans : Transitive ts_le.
Proof. unfold ts_le. intros a b c. lia. Qed.

(** *** [insert_scan] *)

Lemma insert_scan_split m l :
  exists l1 l2,
    l = l1 ++ l2 /\ insert_scan m l = l1 ++ m :: l2 /\
    Forall (fun x => m_t x <= m_t m) l1 /\
    match l2 with [] => True | x :: _ => m_t m < m_t x end.
Proof.
  induction l as [|x l IH]; simpl.
  - exists [], []. by repeat split.
  - destruct (Z.ltb_spec (m_t m) (m_t x)) as [Hlt|Hge].
    + exists [], (x :: l). by repeat split.
    + destruct IH as (l1 & l2 & -> & -> & Hl1 & Hl2).
      exists (x :: l1), l2. repeat split; auto.
  Qed.

Lemma insert_scan_perm m l : insert_scan m l ≡ₚ m :: l.
Proof.
  destruct (insert_scan_split m l) as (l1 & l2 & -> & -> & _).
  by rewrite Permutation_middle.
Qed.

Lemma insert_scan_elem_of m l x : x ∈ insert_scan m l <-> x = m \/ x ∈ l.
Proof. rewrite insert_scan_perm. apply elem_of_cons. Qed.

Lemma insert_scan_nonempty m l : insert_scan m l <> [].
Proof. destruct l; simpl; [done|]. by destruct (_ <? _). Qed.

Lemma insert_scan_sorted m l : sorted l -> sorted (insert_scan m l).
Proof.
  unfold sorted. induction 1 as [|x l Hl IH Hx]; simpl.
  - repeat constructor.
  - destruct (Z.ltb_spec (m_t m) (m_t x)) as [Hlt|Hge].
    + constructor; [by constructor|].
      constructor; [unfold ts_le; lia|].
      eapply Forall_impl; [exact Hx|]. unfold ts_le. simpl. lia.
    + constructor; [done|].
      rewrite Forall_forall. intros y Hy.
      apply insert_scan_elem_of in Hy as [->|Hy]; [exact Hge|].
      rewrite Forall_forall in Hx. by apply Hx.
Qed.

(** In a sorted buffer the message lands behind everything that is not
    later than it, and before everything later. *)
Lemma insert_scan_position m l :
  sorted l ->
  exists l1 l2,
    l = l1 ++ l2 /\ insert_scan m l = l1 ++ m :: l2 /\
    Forall (fun x => m_t x <= m_t m) l1 /\
    Forall (fun x => m_t m < m_t x) l2.
Proof.
  intros Hs. destruct (insert_scan_split m l) as (l1 & l2 & -> & E & H1 & H2).
  exists l1, l2. repeat split; auto.
  destruct l2 as [|x l2]; [constructor|].
  apply StronglySorted_app_1_r in Hs. inversion_clear Hs as [|? ? _ Hx].
  constructor; [done|].
  eapply Forall_impl; [exact Hx|]. unfold ts_le. simpl. lia.
Qed.

Lemma at_ts_app v l1 l2 : at_ts v (l1 ++ l2) = at_ts v l1 ++ at_ts v l2.
Proof. apply filter_app. Qed.

Lemma at_ts_later v l :
  Forall (fun x => v < m_t x) l -> at_ts v l = [].
Proof.
  induction 1 as [|x l Hx _ IH]; [done|].
  unfold at_ts. rewrite filter_cons_False; [exact IH | lia].
Qed.

(** Among messages of one timestamp, [insert_scan] appends. *)
Lemma insert_scan_at_ts v m l :
  sorted l -> at_ts v (insert_scan m l) = at_ts v (l ++ [m]).
Proof.
  intros Hs.
  destruct (insert_scan_position m l Hs) as (l1 & l2 & -> & -> & _ & H2).
  rewrite !at_ts_app, <- app_assoc. f_equal.
  unfold at_ts. destruct (decide (m_t m = v)) as [Heq|Hne].
  - rewrite filter_cons_True by done.
    rewrite (filter_cons_True _ m []) by done.
    subst v. fold (at_ts (m_t m) l2). by rewrite (at_ts_later _ l2 H2).
  - rewrite filter_cons_False by done.
    rewrite (filter_cons_False _ m []) by done.
    by rewrite filter_nil, app_nil_r.
Qed.

Lemma stable_sort_of_insert m l arrivals :
  stable_sort_of l arrivals ->
  stable_sort_of (insert_scan m l) (arrivals ++ [m]).
Proof.
  intros (Hs & Hp & Hf). split; [by apply insert_scan_sorted|]. split.
  - rewrite insert_scan_perm, Hp. apply Permutation_cons_append.
  - intros v. rewrite insert_scan_at_ts by done.
    by rewrite !at_ts_app, Hf.
Qed.

(** *** [flush] *)

Lemma emitted_cons nid c m l :
  emitted nid c (m :: l)
  = Delivery nid (Int64.incr c) m :: emitted nid (Int64.incr c) l.
Proof.
  unfold emitted. rewrite imap_cons. f_equal.
  apply imap_ext. intros k x _. simpl. f_equal.
  f_equal. exact (Nat.iter_succ_r k _ Int64.incr c).
Qed.

Lemma emitted_messages nid c l : d_message <$> emitted nid c l = l.
Proof.
  revert c. induction l as [|m l IH]; intros c; [done|].
  rewrite emitted_cons. simpl. by rewrite IH.
Qed.

Lemma emitted_lookup nid c l k e :
  emitted nid c l !! k = Some e ->
  exists m, l !! k = Some m /\
    e = Delivery nid (Nat.iter (S k) Int64.incr c) m.
Proof.
  unfold emitted. rewrite list_lookup_imap.
  destruct (l !! k) as [m|]; simpl; [|done].
  intros [= <-]. by exists m.
Qed.

Lemma drain_spec nid l c lg :
  drain nid l c lg
  = ([], Nat.iter (length l) Int64.incr c, lg ++ emitted nid c l).
Proof.
  revert c lg. induction l as [|m l IH]; intros c lg; simpl drain.
  - by rewrite app_nil_r.
  - rewrite IH, emitted_cons, <- app_assoc. simpl length.
    by rewrite Nat.iter_succ_r.
Qed.

Lemma promote_spec s p w : promote s p w = (p ++ s, max_ts w s).
Proof.
  revert p w. induction s as [|m s IH]; intros p w; simpl.
  - by rewrite app_nil_r.
  - rewrite IH, <- app_assoc. simpl. do 2 f_equal.
    destruct (Z.ltb_spec w (m_t m)); lia.
Qed.

Lemma flush_spec n :
  flush n =
  {| id := id n; participants := participants n;
     primaryBuffer := secondaryBuffer n; secondaryBuffer := [];
     tWait := max_ts (tWait n) (secondaryBuffer n);
     n_t := Nat.iter (length (primaryBuffer n)) Int64.incr (n_t n);
     log := log n ++ emitted (id n) (n_t n) (primaryBuffer n) |}.
Proof. unfold flush. by rewrite drain_spec, promote_spec. Qed.

Lemma max_ts_lower w l : w <= max_ts w l.
Proof.
  revert w. induction l as [|m l IH]; intros w; simpl; [lia|].
  specialize (IH (Z.max w (m_t m))). unfold max_ts in *. lia.
Qed.

Lemma max_ts_upper w l : Forall (fun m => m_t m <= max_ts w l) l.
Proof.
  revert w. induction l as [|m l IH]; intros w; [constructor|].
  constructor.
  - pose proof (max_ts_lower (Z.max w (m_t m)) l).
    change (max_ts w (m :: l)) with (max_ts (Z.max w (m_t m)) l). lia.
  - apply IH.
Qed.

Lemma max_ts_cases w l :
  max_ts w l = w \/ exists m, m ∈ l /\ m_t m = max_ts w l.
Proof.
  revert w. induction l as [|m l IH]; intros w; [by left|].
  change (max_ts w (m :: l)) with (max_ts (Z.max w (m_t m)) l).
  destruct (IH (Z.max w (m_t m))) as [E|(x & Hx & E)].
  - rewrite E. destruct (Z.max_spec w (m_t m)) as [[_ ->]|[_ ->]].
    + right. exists m. split; [left|done].
    + by left.
  - right. exists x. split; [by right|done].
Qed.

(** When no message of [l] is older than [w], the wait value [flush]
    computes is the largest timestamp of [l]. *)
Lemma max_ts_is_max w l :
  l <> [] -> Forall (fun m => w <= m_t m) l -> is_max_ts (max_ts w l) l.
Proof.
  intros Hne Hge. split; [|apply max_ts_upper].
  destruct (max_ts_cases w l) as [E|?]; [|done].
  destruct l as [|m l]; [done|]. exists m. split; [left|].
  pose proof (max_ts_upper w (m :: l)) as Hup.
  inversion_clear Hup. inversion_clear Hge. lia.
Qed.

(** *** [queue] *)

Lemma Len_positive (l : list message) :
  (0 <? length l)%nat = true <-> l <> [].
Proof. destruct l; simpl; split; intros; done. Qed.

Lemma Len_zero (l : list message) : (0 <? length l)%nat = false <-> l = [].
Proof. destruct l; simpl; split; intros; done. Qed.

Lemma queue_seed m n :
  primaryBuffer n = [] ->
  queue m n = set_primaryBuffer [m] (set_tWait (m_t m) n).
Proof. intros E. unfold queue. rewrite E. simpl. by rewrite E. Qed.

Lemma queue_late m n :
  primaryBuffer n <> [] -> m_t m < tWait n ->
  queue m n = set_primaryBuffer (insert_scan m (primaryBuffer n)) n.
Proof.
  intros Hne Hlt. unfold queue.
  apply Len_positive in Hne. rewrite Hne.
  by destruct (Z.ltb_spec (m_t m) (tWait n)); [|lia].
Qed.

Lemma queue_next m n :
  primaryBuffer n <> [] -> tWait n <= m_t m ->
  queue m n = set_secondaryBuffer (insert_scan m (secondaryBuffer n)) n.
Proof.
  intros Hne Hge. unfold queue.
  apply Len_positive in Hne. rewrite Hne.
  by destruct (Z.ltb_spec (m_t m) (tWait n)); [lia|].
Qed.

(** The three ways [queue] can go. *)
Lemma queue_cases m n :
  (primaryBuffer n = [] /\
     queue m n = set_primaryBuffer [m] (set_tWait (m_t m) n)) \/
  (primaryBuffer n <> [] /\ m_t m < tWait n /\
     queue m n = set_primaryBuffer (insert_scan m (primaryBuffer n)) n) \/
  (primaryBuffer n <> [] /\ tWait n <= m_t m /\
     queue m n = set_secondaryBuffer (insert_scan m (secondaryBuffer n)) n).
Proof.
  destruct (decide (primaryBuffer n = [])) as [E|Hne].
  - left. split; [done|by apply queue_seed].
  - right. destruct (Z.lt_ge_cases (m_t m) (tWait n)).
    + left. repeat split; try done. by apply queue_late.
    + right. repeat split; try done. by apply queue_next.
Qed.

(** *** The invariant *)

Lemma buffer_inv_newNode p i : buffer_inv (newNode p i).
Proof. split; simpl; try constructor; done. Qed.

Lemma buffer_inv_queue m n : buffer_inv n -> buffer_inv (queue m n).
Proof.
  intros [Hp Hs Hle Hge He Ha].
  destruct (queue_cases m n) as [[E ->]|[(Hne & Hlt & ->)|(Hne & Hw & ->)]].
  - specialize (He E). split; simpl; rewrite ?He.
    + repeat constructor.
    + constructor.
    + repeat constructor. lia.
    + constructor.
    + done.
    + intros _. exists m. split; [left|done].
  - split; simpl.
    + by apply insert_scan_sorted.
    + done.
    + rewrite Forall_forall. intros x Hx.
      apply insert_scan_elem_of in Hx as [->|Hx]; [lia|].
      rewrite Forall_forall in Hle. by apply Hle.
    + done.
    + intros E. by apply insert_scan_nonempty in E.
    + intros _. destruct (Ha Hne) as (x & Hx & Ex).
      exists x. split; [|done]. apply insert_scan_elem_of. by right.
  - split; simpl.
    + done.
    + by apply insert_scan_sorted.
    + done.
    + rewrite Forall_forall. intros x Hx.
      apply insert_scan_elem_of in Hx as [->|Hx]; [lia|].
      rewrite Forall_forall in Hge. by apply Hge.
    + done.
    + done.
Qed.

Lemma buffer_inv_flush n : buffer_inv n -> buffer_inv (flush n).
Proof.
  intros [Hp Hs Hle Hge He Ha]. rewrite flush_spec.
  split; simpl.
  - done.
  - constructor.
  - apply max_ts_upper.
  - constructor.
  - done.
  - intros Hne. by destruct (max_ts_is_max _ _ Hne Hge) as [? _].
Qed.

Lemma buffer_inv_apply_op n o : buffer_inv n -> buffer_inv (apply_op n o).
Proof.
  destruct o; simpl; [apply buffer_inv_queue | apply buffer_inv_flush].
Qed.

Lemma buffer_inv_run_ops ops n : buffer_inv n -> buffer_inv (run_ops ops n).
Proof.
  revert n. induction ops as [|o ops IH]; intros n Hn; [done|].
  simpl. apply IH. by apply buffer_inv_apply_op.
Qed.

(** *** Arrival order *)

Lemma traced_inv_step s o : traced_inv s -> traced_inv (traced_step s o).
Proof.
  intros (Hinv & Hp & Hs). destruct o as [m|]; simpl.
  - pose proof (buffer_inv_queue m _ Hinv) as Hq.
    destruct (queue_cases m (tr_node s))
      as [[E Hc]|[(Hne & Hlt & Hc)|(Hne & Hw & Hc)]].
    + apply Len_zero in E as E'. rewrite E'. simpl.
      split; [done|]. rewrite Hc. simpl. apply Len_zero in E'.
      rewrite E' in Hp. split; [|done].
      change [m] with (insert_scan m []). by apply stable_sort_of_insert.
    + apply Len_positive in Hne as E'. rewrite E'.
      destruct (Z.ltb_spec (m_t m) (tWait (tr_node s))); [|lia]. simpl.
      split; [done|]. rewrite Hc. simpl.
      split; [by apply stable_sort_of_insert|done].
    + apply Len_positive in Hne as E'. rewrite E'.
      destruct (Z.ltb_spec (m_t m) (tWait (tr_node s))); [lia|]. simpl.
      split; [done|]. rewrite Hc. simpl.
      split; [done|by apply stable_sort_of_insert].
  - split; [by apply buffer_inv_flush|]. rewrite flush_spec. simpl.
    split; [done|]. by split; [constructor|].
Qed.

Lemma traced_step_node s o : tr_node (traced_step s o) = apply_op (tr_node s) o.
Proof. destruct o; simpl; [|done]. by destruct (_ && _). Qed.

Lemma traced_foldl_node ops s :
  tr_node (foldl traced_step s ops) = run_ops ops (tr_node s).
Proof.
  revert s. induction ops as [|o ops IH]; intros s; [done|].
  simpl. by rewrite IH, traced_step_node.
Qed.

Lemma traced_foldl_inv ops s :
  traced_inv s -> traced_inv (foldl traced_step s ops).
Proof.
  revert s. induction ops as [|o ops IH]; intros s Hs; [done|].
  simpl. by apply IH, traced_inv_step.
Qed.

Lemma traced_run_inv ops p i : traced_inv (traced_run ops (newNode p i)).
Proof.
  apply traced_foldl_inv. split; [apply buffer_inv_newNode|].
  by repeat split; try constructor.
Qed.

(** *** [synchronized] *)

Lemma dom_foldl_mark (l : list message) (acc : gmap Z bool) :
  dom (foldl (fun nodes m => <[m_sender m := true]> nodes) acc l)
  = dom acc ∪ senders l.
Proof.
  revert acc. induction l as [|m l IH]; intros acc; simpl.
  - unfold senders. simpl. set_solver.
  - rewrite IH, dom_insert_L. unfold senders. simpl. set_solver.
Qed.

Lemma dom_mark_senders l : dom (mark_senders l) = senders l.
Proof. unfold mark_senders. rewrite dom_foldl_mark. set_solver. Qed.

Lemma size_mark_senders l : size (mark_senders l) = size (senders l).
Proof. by rewrite <- dom_mark_senders, size_dom. Qed.

Lemma senders_insert_scan m l :
  senders (insert_scan m l) = {[m_sender m]} ∪ senders l.
Proof.
  unfold senders. apply set_eq. intros x.
  rewrite elem_of_union, elem_of_singleton, !elem_of_list_to_set.
  rewrite !list_elem_of_fmap. split.
  - intros (y & -> & Hy). apply insert_scan_elem_of in Hy as [->|Hy]; eauto.
  - intros [->|(y & -> & Hy)].
    + exists m. split; [done|]. apply insert_scan_elem_of. by left.
    + exists y. split; [done|]. apply insert_scan_elem_of. by right.
Qed.

Lemma synchronized_queue_repeat m n :
  m_sender m ∈ senders (secondaryBuffer n) ->
  synchronized (queue m n) = synchronized n.
Proof.
  intros Hin. unfold synchronized. rewrite !size_mark_senders.
  destruct (queue_cases m n) as [[E ->]|[(_ & _ & ->)|(_ & _ & ->)]];
    simpl; try done.
  rewrite senders_insert_scan.
  replace ({[m_sender m]} ∪ senders (secondaryBuffer n))
    with (senders (secondaryBuffer n)) by set_solver.
  done.
Qed.

(** *** The stopping position of the scan *)

Lemma insert_scan_first_later m l :
  insert_scan m l = insert_before_first_later m l.
Proof.
  unfold insert_before_first_later, insert_at.
  induction l as [|x l IH]; simpl; [done|].
  destruct (m_t m <? m_t x); simpl; [done|]. by rewrite IH.
Qed.

(** *** The clock *)

Lemma queue_clock m n : n_t (queue m n) = n_t n /\ log (queue m n) = log n.
Proof.
  by destruct (queue_cases m n) as [[_ ->]|[(_ & _ & ->)|(_ & _ & ->)]].
Qed.

Lemma emitted_length nid c l : length (emitted nid c l) = length l.
Proof. by rewrite <- (emitted_messages nid c l) at 2; rewrite length_fmap. Qed.

Lemma sync_clock_wrap v mt : sync_clock v mt = Int64.wrap (Z.max v mt + 1).
Proof.
  unfold sync_clock, Int64.incr. do 2 f_equal.
  destruct (Z.ltb_spec v mt); lia.
Qed.


(** *** The broadcaster *)

Lemma jam_entry_Ok jam a b x :
  jam_entry jam a b = Ok x <->
  exists row, index jam a = Ok row /\ index row b = Ok x.
Proof.
  unfold jam_entry, obind. destruct (index jam a) as [row|why].
  - split; [by exists row|]. by intros (? & [= <-] & ?).
  - split; [done|]. by intros (? & ? & _).
Qed.

Lemma jam_entry_panic jam a b why :
  jam_entry jam a b = Panic why -> why = IndexOutOfRange.
Proof.
  unfold jam_entry, obind. destruct (index jam a) as [row|w] eqn:E.
  - apply index_panic.
  - intros [= <-]. by eapply index_panic.
Qed.

Lemma setJam_Ok jam a b x j :
  jam_entry jam a b = Ok j -> exists jam', setJam jam a b x = Ok jam'.
Proof.
  intros (row & Hr & Hx)%jam_entry_Ok. unfold setJam, obind.
  rewrite Hr, Hx. eauto.
Qed.

Lemma setJam_entry jam a b x jam' :
  setJam jam a b x = Ok jam' -> jam_entry jam' a b = Ok x.
Proof.
  unfold setJam, obind.
  destruct (index jam a) as [row|] eqn:Hr; [|done].
  destruct (index row b) as [y|] eqn:Hy; [|done].
  intros [= <-]. apply jam_entry_Ok.
  exists (<[Z.to_nat b := x]> row).
  split; by eapply index_insert_eq.
Qed.

Lemma setJam_other jam a b x jam' c d :
  setJam jam a b x = Ok jam' -> c <> a \/ d <> b ->
  jam_entry jam' c d = jam_entry jam c d.
Proof.
  unfold setJam, obind.
  destruct (index jam a) as [row|] eqn:Hr; [|done].
  destruct (index row b) as [y|] eqn:Hy; [|done].
  intros [= <-] Hne. unfold jam_entry, obind.
  apply index_Ok in Hr as Hr'. destruct Hr' as [Ha _].
  apply index_Ok in Hy as Hy'. destruct Hy' as [Hb _].
  destruct (decide (c = a)) as [->|Hca].
  - rewrite (index_insert_eq jam a row _ Hr), Hr.
    destruct Hne as [?|Hdb]; [done|]. by apply index_insert_ne.
  - by rewrite index_insert_ne.
Qed.

Lemma newJam_entry (nodeCount : nat) i j :
  0 <= i < Z.of_nat nodeCount -> 0 <= j < Z.of_nat nodeCount ->
  jam_entry (newJam nodeCount) i j = Ok 0.
Proof.
  intros Hi Hj. apply jam_entry_Ok. exists (replicate nodeCount 0).
  split; apply index_Ok; (split; [lia|]); apply lookup_replicate;
    (split; [done|lia]).
Qed.

Lemma rand_Int_range max r d :
  rand_Int max r = Ok d -> 0 < max /\ d = r mod max /\ 0 <= d < max.
Proof.
  unfold rand_Int. destruct (Z.leb_spec max 0); [done|].
  intros [= <-]. pose proof (Z.mod_pos_bound r max). lia.
Qed.

Lemma leg_latency_Ok jam m i lmin lmax r lat :
  leg_latency jam m i lmin lmax r = Ok lat <->
  exists d j,
    rand_Int (Int64.sub lmax lmin) r = Ok d /\
    jam_entry jam (m_sender m) i = Ok j /\
    lat = Int64.add (Int64.add j lmin) d.
Proof.
  unfold leg_latency, obind.
  destruct (rand_Int _ r) as [d|]; [|split; [done|by intros (?&?&?&_)]].
  destruct (jam_entry _ _ i) as [j|];
    [|split; [done|by intros (?&?&_&?&_)]].
  split.
  - intros [= <-]. by exists d, j.
  - by intros (? & ? & [= <-] & [= <-] & ->).
Qed.

Lemma leg_latency_panic jam m i lmin lmax r :
  Int64.sub lmax lmin <= 0 ->
  leg_latency jam m i lmin lmax r = Panic RandIntNonPositive.
Proof.
  intros Hle. unfold leg_latency, rand_Int.
  by destruct (Z.leb_spec (Int64.sub lmax lmin) 0); [|lia].
Qed.

Lemma sub_exact a b : Int64.in_range (a - b) -> Int64.sub a b = a - b.
Proof. apply Int64Facts.wrap_small. Qed.

(** *** The invariant along [receive] *)

Lemma buffer_inv_set_t v n : buffer_inv n -> buffer_inv (set_t v n).
Proof. by intros []. Qed.

Lemma buffer_inv_receive m n : buffer_inv n -> buffer_inv (receive m n).
Proof.
  intros H. unfold receive.
  destruct (synchronized _); [apply buffer_inv_flush|];
    by apply buffer_inv_queue, buffer_inv_set_t.
Qed.

Lemma buffer_inv_receive_all ms n :
  buffer_inv n -> buffer_inv (receive_all ms n).
Proof.
  revert n. induction ms as [|m ms IH]; intros n Hn; [done|].
  simpl. apply IH. by apply buffer_inv_receive.
Qed.

Lemma synchronized_nonempty n :
  synchronized n = true -> participants n <> 0 -> secondaryBuffer n <> [].
Proof.
  unfold synchronized. intros H Hp E. rewrite E in H.
  apply bool_decide_eq_true in H. rewrite size_mark_senders in H.
  change (senders []) with (∅ : gset Z) in H.
  rewrite size_empty in H. simpl in H. lia.
Qed.

(** *** The legs of a broadcast *)

Lemma broadcaster_length jam k m lmin lmax r :
  length (broadcaster jam k m lmin lmax r) = k.
Proof. unfold broadcaster. by rewrite length_fmap, length_seq. Qed.

Lemma broadcaster_lookup jam k m lmin lmax r (i : nat) :
  (i < k)%nat ->
  broadcaster jam k m lmin lmax r !! i
  = Some (leg_latency jam m (Z.of_nat i) lmin lmax (r i)).
Proof.
  intros Hi. unfold broadcaster.
  rewrite list_lookup_fmap, lookup_seq_lt by done. done.
Qed.

Lemma leg_latency_fits jam m i lmin lmax r j :
  Int64.in_range lmin -> Int64.in_range lmax -> lmin < lmax ->
  lmax - lmin <= Int64.max_int ->
  jam_entry jam (m_sender m) i = Ok j ->
  leg_latency jam m i lmin lmax r
  = Ok (Int64.add j (lmin + r mod (lmax - lmin))).
Proof.
  intros Hlo Hhi Hlt Hfit Hj.
  assert (Int64.sub lmax lmin = lmax - lmin) as E.
  { apply sub_exact.
    unfold Int64.in_range, Int64.min_int, Int64.max_int in *. lia. }
  apply leg_latency_Ok. exists (r mod (lmax - lmin)), j.
  split; [|split; [done|]].
  - rewrite E. unfold rand_Int.
    by destruct (Z.leb_spec (lmax - lmin) 0); [lia|].
  - unfold Int64.add. rewrite Int64Facts.wrap_add_l. f_equal. lia.
Qed.

Lemma add_between j lmin lmax d :
  lmin <= d < lmax ->
  Int64.in_range (j + lmin) -> Int64.in_range (j + lmax) ->
  j + lmin <= Int64.add j d < j + lmax.
Proof.
  intros Hd Hl Hh. unfold Int64.add.
  rewrite Int64Facts.wrap_small; [lia|].
  unfold Int64.in_range in *. lia.
Qed.

Lemma handovers_length jam k m lmin lmax r :
  length (handovers jam k m lmin lmax r) = k.
Proof. unfold handovers. by rewrite length_imap, broadcaster_length. Qed.

Lemma handovers_lookup jam k m lmin lmax r (i : nat) :
  (i < k)%nat ->
  handovers jam k m lmin lmax r !! i
  = Some (do latency <- leg_latency jam m (Z.of_nat i) lmin lmax (r i);
          Ok (Handover (Sleep (duration latency)) (Z.of_nat i) m)).
Proof.
  intros Hi. unfold handovers.
  by rewrite list_lookup_imap, broadcaster_lookup.
Qed.

Lemma Sleep_duration_exact latency :
  0 < latency -> latency * Millisecond <= Int64.max_int ->
  Sleep (duration latency) = latency * Millisecond.
Proof.
  intros Hpos Hfit. unfold Sleep, duration.
  rewrite Int64Facts.wrap_small.
  - destruct (Z.leb_spec (latency * Millisecond) 0); [|done].
    unfold Millisecond in *. lia.
  - unfold Int64.in_range, Int64.min_int, Millisecond in *. lia.
Qed.

Lemma Sleep_duration_none latency :
  Int64.min_int <= latency * Millisecond <= 0 ->
  Sleep (duration latency) = 0.
Proof.
  intros H. unfold Sleep, duration. rewrite Int64Facts.wrap_small.
  - by destruct (Z.leb_spec (latency * Millisecond) 0); [|lia].
  - unfold Int64.in_range, Int64.max_int in *. lia.
Qed.

(** Two values less than [2^64] apart wrap to different [int64]s. *)
Lemma wrap_window a b :
  Int64.wrap a = Int64.wrap b ->
  - 18446744073709551616 < a - b < 18446744073709551616 -> a = b.
Proof.
  intros E Hw. destruct (Int64Facts.wrap_multiple a) as [qa Ha].
  destruct (Int64Facts.wrap_multiple b) as [qb Hb]. lia.
Qed.

Lemma broadcaster_frame jam jam' k m lmin lmax r (i : nat) :
  jam_entry jam' (m_sender m) (Z.of_nat i)
  = jam_entry jam (m_sender m) (Z.of_nat i) ->
  broadcaster jam' k m lmin lmax r !! i
  = broadcaster jam k m lmin lmax r !! i /\
  handovers jam' k m lmin lmax r !! i
  = handovers jam k m lmin lmax r !! i.
Proof.
  intros E.
  assert (broadcaster jam' k m lmin lmax r !! i
          = broadcaster jam k m lmin lmax r !! i) as Eb.
  { unfold broadcaster. rewrite !list_lookup_fmap.
    destruct (seq 0 k !! i) as [x|] eqn:Ex; simpl; [|done].
    apply lookup_seq in Ex as [-> _]. simpl.
    unfold leg_latency. by rewrite E. }
  split; [done|]. unfold handovers. by rewrite !list_lookup_imap, Eb.
Qed.

End TotalOrderFacts.

(** ** The total-order broadcast node: the delivery protocol *)

Module TotalOrderProps.
Import TotalOrder TotalOrderSpec TotalOrderFacts.

(** C1 (as amended).  Three nodes; a node whose buffers are empty receives
    "A" (sender 0, timestamp 5), "B" (sender 1, timestamp 5) and "C"
    (sender 2, timestamp 6) in any order.  The message that arrives first
    seeds the primary buffer, so its sender is missing from the secondary
    buffer, which holds at most two senders: [synchronized] is false after
    the third receive, no flush has run and nothing has been added to the
    log.  The three messages are all buffered, each once, both buffers
    ascending by timestamp. *)
Theorem three_node_scenario_buffers (i w c : Z) (lg : list delivery)
    (order : list message) :
  order ≡ₚ [msgA; msgB; msgC] ->
  let n := receive_all order (idle i w c lg) in
  log n = lg /\
  synchronized n = false /\
  (size (senders (secondaryBuffer n)) <= 2)%nat /\
  (forall m, head order = Some m ->
     m ∈ primaryBuffer n /\ m_sender m ∉ senders (secondaryBuffer n)) /\
  primaryBuffer n ++ secondaryBuffer n ≡ₚ [msgA; msgB; msgC] /\
  sorted (primaryBuffer n) /\ sorted (secondaryBuffer n).
Proof.
  intros Hp. symmetry in Hp. apply permutations_Permutation in Hp.
  assert (order ∈ [[msgA; msgB; msgC]; [msgB; msgA; msgC];
                   [msgB; msgC; msgA]; [msgA; msgC; msgB];
                   [msgC; msgA; msgB]; [msgC; msgB; msgA]]) as Hin
    by exact Hp.
  clear Hp.
  repeat (apply elem_of_cons in Hin as [->|Hin]);
    [..|by apply elem_of_nil in Hin]; intros n; subst n.
  all: split; [vm_compute; reflexivity|].
  all: split; [vm_compute; reflexivity|].
  all: split; [vm_compute; lia|].
  all: split;
    [intros m [= <-]; split; vm_compute; set_solver|].
  all: split; [vm_compute; concrete_permutation|].
  all: split; unfold sorted; vm_compute;
    repeat constructor; vm_compute; discriminate.
Qed.

Lemma three_node_scenario_buffers_witness :
  [msgA; msgB; msgC] ≡ₚ [msgA; msgB; msgC] /\
  synchronized (receive_all [msgA; msgB; msgC] (newNode 3 1)) = false.
Proof.
  split; [reflexivity|].
  exact (proj1 (proj2
    (three_node_scenario_buffers 1 0 0 [] [msgA; msgB; msgC]
       (reflexivity _)))).
Defined.

(** C1, as stated, fails already for the arrival order A, B, C: the
    secondary buffer then holds senders 1 and 2 only, [synchronized] is
    false and the log is empty instead of showing A, B, C. *)
Lemma three_node_scenario_no_flush :
  let n := receive_all [msgA; msgB; msgC] (newNode 3 1) in
  ~ (senders (secondaryBuffer n) = {[0; 1; 2]} /\
     synchronized n = true /\
     d_message <$> log n = [msgA; msgB; msgC]).
Proof. intros n (_ & Hs & _). vm_compute in Hs. discriminate. Qed.

(** C2.  [flush] logs one delivery per message of the primary buffer, in
    the order the buffer holds them and each once, the clock going up by
    one per delivery and the [k]-th delivery carrying the clock after
    [k + 1] increments.  Afterwards the primary buffer is the former
    secondary buffer in the same order and the secondary buffer is empty.
    In every state of the buffers that a node reaches from a fresh one,
    by [queue] and [flush] in any order or by [receive], both buffers are
    ascending by timestamp, so the deliveries of a flush are, and after
    the flush the wait value is the largest timestamp moved whenever a
    message is moved; it stays as it was when the secondary buffer was
    empty, which it never is when [receive] calls [flush] in a pool that
    has participants.  Along [queue] and [flush] each buffer holds its
    arrivals with equal timestamps in arrival order. *)
Theorem flush_emits_primary_promotes_secondary :
  (forall n,
     log (flush n) = log n ++ emitted (id n) (n_t n) (primaryBuffer n) /\
     d_message <$> emitted (id n) (n_t n) (primaryBuffer n)
       = primaryBuffer n /\
     (forall k e,
        emitted (id n) (n_t n) (primaryBuffer n) !! k = Some e ->
        d_node e = id n /\
        d_clock e = Nat.iter (S k) Int64.incr (n_t n)) /\
     n_t (flush n) = Nat.iter (length (primaryBuffer n)) Int64.incr (n_t n) /\
     primaryBuffer (flush n) = secondaryBuffer n /\
     secondaryBuffer (flush n) = []) /\
  (forall n,
     buffer_inv n ->
     sorted (d_message <$> emitted (id n) (n_t n) (primaryBuffer n)) /\
     sorted (primaryBuffer (flush n)) /\
     (secondaryBuffer n <> [] ->
      is_max_ts (tWait (flush n)) (secondaryBuffer n)) /\
     (secondaryBuffer n = [] -> tWait (flush n) = tWait n) /\
     (synchronized n = true -> participants n <> 0 ->
      secondaryBuffer n <> [])) /\
  (forall ops p i,
     let s := traced_run ops (newNode p i) in
     buffer_inv (run_ops ops (newNode p i)) /\
     tr_node s = run_ops ops (newNode p i) /\
     stable_sort_of (primaryBuffer (tr_node s)) (tr_primary s) /\
     stable_sort_of (secondaryBuffer (tr_node s)) (tr_secondary s)) /\
  (forall ms p i, buffer_inv (receive_all ms (newNode p i))).
Proof.
  split; [|split; [|split]].
  - intros n. rewrite flush_spec. simpl.
    split; [done|]. split; [apply emitted_messages|].
    split; [|done].
    intros k e He. apply emitted_lookup in He as (m & _ & ->). done.
  - intros n [Hp Hs Hle Hge He Ha]. rewrite flush_spec. simpl.
    split; [by rewrite emitted_messages|]. split; [done|].
    split; [intros Hne; by apply max_ts_is_max|].
    split; [by intros ->|]. apply synchronized_nonempty.
  - intros ops p i s. subst s.
    destruct (traced_run_inv ops p i) as (Hinv & Hp & Hs).
    split; [apply buffer_inv_run_ops, buffer_inv_newNode|].
    split; [apply traced_foldl_node|]. done.
  - intros ms p i. apply buffer_inv_receive_all, buffer_inv_newNode.
Qed.

Lemma flush_emits_primary_promotes_secondary_witness :
  buffer_inv (run_ops [Insert msgA; Insert msgB; Insert msgC] (newNode 3 1))
  /\
  secondaryBuffer (run_ops [Insert msgA; Insert msgB; Insert msgC]
                     (newNode 3 1)) <> [] /\
  is_max_ts
    (tWait (flush (run_ops [Insert msgA; Insert msgB; Insert msgC]
                     (newNode 3 1))))
    (secondaryBuffer (run_ops [Insert msgA; Insert msgB; Insert msgC]
                        (newNode 3 1))).
Proof.
  destruct flush_emits_primary_promotes_secondary as (_ & Hinv & Hrun & _).
  pose proof (proj1 (Hrun [Insert msgA; Insert msgB; Insert msgC] 3 1))
    as Hb.
  assert (secondaryBuffer (run_ops [Insert msgA; Insert msgB; Insert msgC]
                             (newNode 3 1)) <> []) as Hne
    by (vm_compute; discriminate).
  split; [exact Hb|]. split; [exact Hne|].
  destruct (Hinv _ Hb) as (_ & _ & Hmax & _). exact (Hmax Hne).
Defined.

(** C3.  [synchronized] is true exactly when the number of distinct sender
    ids in the secondary buffer is the participant count of the pool; and
    queuing a message whose sender the secondary buffer already holds
    never turns it from false to true. *)
Theorem synchronized_iff_all_senders (n : node) :
  (synchronized n = true <->
   Z.of_nat (size (senders (secondaryBuffer n))) = participants n) /\
  (forall m,
     m_sender m ∈ senders (secondaryBuffer n) ->
     synchronized n = false -> synchronized (queue m n) = false).
Proof.
  split.
  - unfold synchronized. rewrite size_mark_senders.
    apply bool_decide_eq_true.
  - intros m Hin Hf. by rewrite synchronized_queue_repeat.
Qed.

Lemma synchronized_iff_all_senders_witness :
  m_sender (Message 1 7 "B2") ∈ senders (secondaryBuffer node_ABC) /\
  synchronized node_ABC = false /\
  synchronized (queue (Message 1 7 "B2") node_ABC) = false.
Proof.
  assert (m_sender (Message 1 7 "B2") ∈ senders (secondaryBuffer node_ABC))
    as Hin by (vm_compute; set_solver).
  assert (synchronized node_ABC = false) as Hf by (vm_compute; reflexivity).
  split; [exact Hin|]. split; [exact Hf|].
  exact (proj2 (synchronized_iff_all_senders node_ABC) _ Hin Hf).
Defined.

(** C4 (as amended).  With a non-empty primary buffer, [queue] puts [m]
    into the secondary buffer when [m.t >= tWait] and into the primary
    buffer when [m.t < tWait], and leaves [tWait] and the other buffer as
    they are; with an empty primary buffer it sets [tWait] to [m.t] and
    puts [m] into the primary buffer.  In each case [m] goes in front of
    the first element whose timestamp is strictly greater than [m.t],
    that is behind every element the scan passes, equal timestamps
    included, or at the back when there is no later element. *)
Theorem queue_placement (m : message) (n : node) :
  (primaryBuffer n <> [] -> tWait n <= m_t m ->
     secondaryBuffer (queue m n)
       = insert_before_first_later m (secondaryBuffer n) /\
     primaryBuffer (queue m n) = primaryBuffer n /\
     tWait (queue m n) = tWait n) /\
  (primaryBuffer n <> [] -> m_t m < tWait n ->
     primaryBuffer (queue m n)
       = insert_before_first_later m (primaryBuffer n) /\
     secondaryBuffer (queue m n) = secondaryBuffer n /\
     tWait (queue m n) = tWait n) /\
  (primaryBuffer n = [] ->
     primaryBuffer (queue m n)
       = insert_before_first_later m (primaryBuffer n) /\
     secondaryBuffer (queue m n) = secondaryBuffer n /\
     tWait (queue m n) = m_t m) /\
  (forall l, exists l1 l2,
     l = l1 ++ l2 /\
     insert_before_first_later m l = l1 ++ m :: l2 /\
     Forall (fun x => m_t x <= m_t m) l1 /\
     match l2 with [] => True | x :: _ => m_t m < m_t x end).
Proof.
  split; [|split; [|split]].
  - intros Hne Hge. rewrite (queue_next m n Hne Hge). simpl.
    by rewrite insert_scan_first_later.
  - intros Hne Hlt. rewrite (queue_late m n Hne Hlt). simpl.
    by rewrite insert_scan_first_later.
  - intros E. rewrite (queue_seed m n E). simpl. by rewrite E.
  - intros l. rewrite <- insert_scan_first_later. apply insert_scan_split.
Qed.

Lemma queue_placement_witness :
  primaryBuffer node_ABC <> [] /\ tWait node_ABC <= m_t msgD /\
  secondaryBuffer (queue msgD node_ABC) = [msgB; msgC; msgD].
Proof.
  assert (primaryBuffer node_ABC <> []) as Hne by (simpl; discriminate).
  assert (tWait node_ABC <= m_t msgD) as Hge by (simpl; lia).
  split; [exact Hne|]. split; [exact Hge|].
  destruct (proj1 (queue_placement msgD node_ABC) Hne Hge) as (E & _).
  exact E.
Defined.

(** C4, as stated, fails on equal timestamps: "B" (timestamp 5) queued on
    a primary buffer holding "A" (timestamp 5) goes behind "A", while an
    insertion in front of the first element not smaller than 5 would put
    it in front of "A".  So it is in a run of [receive]: a fresh node of
    three that has received "A" and "B" holds "B" in its secondary buffer,
    and a third message of timestamp 5 goes behind "B". *)
Lemma queue_tie_goes_behind :
  primaryBuffer (queue msgB node_A6)
  <> insert_before_first_not_smaller msgB (primaryBuffer node_A6) /\
  secondaryBuffer (receive_all [msgA; msgB; msgE] (newNode 3 1))
  <> insert_before_first_not_smaller msgE
       (secondaryBuffer (receive_all [msgA; msgB] (newNode 3 1))).
Proof. split; vm_compute; discriminate. Qed.

(** C5 (as amended).  Every state reached from a fresh node by [queue]
    and [flush] satisfies: no message of the primary buffer is later than
    [tWait] and no message of the secondary buffer is earlier; whenever
    the primary buffer is non-empty, [tWait] is the largest timestamp in
    it; the secondary buffer is empty whenever the primary one is.  The
    wait value changes in two places only: a message queued on an empty
    primary buffer sets it to its own timestamp, and [flush] raises it to
    the largest timestamp it moves. *)
Theorem wait_value_invariant (ops : list op) (p i : Z) :
  let n := run_ops ops (newNode p i) in
  Forall (fun m => m_t m <= tWait n) (primaryBuffer n) /\
  Forall (fun m => tWait n <= m_t m) (secondaryBuffer n) /\
  (primaryBuffer n <> [] -> is_max_ts (tWait n) (primaryBuffer n)) /\
  (primaryBuffer n = [] -> secondaryBuffer n = []) /\
  (forall m, primaryBuffer n = [] ->
     tWait (queue m n) = m_t m /\ primaryBuffer (queue m n) = [m]) /\
  (forall m, primaryBuffer n <> [] -> tWait (queue m n) = tWait n) /\
  tWait (flush n) = max_ts (tWait n) (secondaryBuffer n).
Proof.
  intros n.
  destruct (buffer_inv_run_ops ops _ (buffer_inv_newNode p i))
    as [_ _ Hle Hge He Ha]. fold n in Hle, Hge, He, Ha.
  split; [done|]. split; [done|]. split; [by split; [apply Ha|]|].
  split; [done|]. split; [|split].
  - intros m E. by rewrite (queue_seed m n E).
  - intros m Hne.
    destruct (queue_cases m n) as [[E _]|[(_ & _ & ->)|(_ & _ & ->)]]; done.
  - by rewrite flush_spec.
Qed.

Lemma wait_value_invariant_witness :
  primaryBuffer (run_ops [Insert msgA; Insert msgC] (newNode 3 1)) <> [] /\
  is_max_ts (tWait (run_ops [Insert msgA; Insert msgC] (newNode 3 1)))
    (primaryBuffer (run_ops [Insert msgA; Insert msgC] (newNode 3 1))).
Proof.
  assert (primaryBuffer (run_ops [Insert msgA; Insert msgC] (newNode 3 1))
          <> []) as Hne by (vm_compute; discriminate).
  split; [exact Hne|].
  destruct (wait_value_invariant [Insert msgA; Insert msgC] 3 1)
    as (_ & _ & Hmax & _).
  exact (Hmax Hne).
Defined.

(** C5, as stated, fails after "A" (5), "C" (6), "D" (9) are queued on a
    fresh node and a flush follows: the primary buffer then holds "C" and
    "D", and the wait value is 9.  It is neither the timestamp of "A",
    the message queued on the empty primary buffer, nor that of "C", the
    first message the flush moved into it, and "D" is not below it. *)
Lemma wait_value_not_strict :
  let n :=
    run_ops [Insert msgA; Insert msgC; Insert msgD; Flush] (newNode 3 1) in
  tWait n <> m_t msgA /\ tWait n <> m_t msgC /\
  ~ Forall (fun m => m_t m < tWait n) (primaryBuffer n).
Proof.
  intros n. split; [vm_compute; discriminate|].
  split; [vm_compute; discriminate|].
  intros H. apply (Forall_lookup_1 _ _ 1%nat msgD) in H; [|done].
  vm_compute in H. discriminate.
Qed.

(** C6.  After any sequence of [queue] and [flush] calls on a fresh node,
    the primary and the secondary buffer are both ascending by timestamp;
    and on any node whose buffers are ascending, [queue] and [flush] leave
    them so. *)
Theorem buffers_sorted :
  (forall ops p i,
     sorted (primaryBuffer (run_ops ops (newNode p i))) /\
     sorted (secondaryBuffer (run_ops ops (newNode p i)))) /\
  (forall m n,
     sorted (primaryBuffer n) -> sorted (secondaryBuffer n) ->
     sorted (primaryBuffer (queue m n)) /\
     sorted (secondaryBuffer (queue m n))) /\
  (forall n,
     sorted (secondaryBuffer n) ->
     sorted (primaryBuffer (flush n)) /\ sorted (secondaryBuffer (flush n))).
Proof.
  split; [|split].
  - intros ops p i.
    destruct (buffer_inv_run_ops ops _ (buffer_inv_newNode p i))
      as [Hp Hs _ _ _ _].
    by split.
  - intros m n Hp Hs.
    destruct (queue_cases m n) as [[E ->]|[(_ & _ & ->)|(_ & _ & ->)]];
      simpl; (split; [|done]) || (split; [done|]).
    + repeat constructor.
    + by apply insert_scan_sorted.
    + by apply insert_scan_sorted.
  - intros n Hs. rewrite flush_spec. simpl. split; [done|constructor].
Qed.

Lemma buffers_sorted_witness :
  sorted (primaryBuffer node_ABC) /\ sorted (secondaryBuffer node_ABC) /\
  sorted (secondaryBuffer (queue msgD node_ABC)) /\
  sorted (primaryBuffer (flush node_ABC)).
Proof.
  assert (sorted (primaryBuffer node_ABC)) as Hp
    by (unfold sorted; by_evaluation).
  assert (sorted (secondaryBuffer node_ABC)) as Hs
    by (unfold sorted; by_evaluation).
  split; [exact Hp|]. split; [exact Hs|].
  destruct buffers_sorted as (_ & Hq & Hf).
  split; [exact (proj2 (Hq msgD node_ABC Hp Hs))|].
  exact (proj1 (Hf node_ABC Hs)).
Defined.

(** C7 (as amended).  The clock update of [receive] stores
    [max(v, t) + 1] as an [int64]: for every clock value [v] and remote
    timestamp [t] with [max(v, t)] below the largest [int64], the clock
    becomes [max(v, t) + 1] and is strictly greater than [t]; so the clock
    of a receiver [b] is, right after the update, greater than the
    timestamp a sender [a] stamped its message with.  The same holds for
    the clock at the end of a [receive] that runs without a tick in
    between, which the [k] deliveries of a triggered flush advance by [k]
    more, as long as [max(v, t) + 1 + k] does not exceed the largest
    [int64]. *)
Theorem sync_clock_lamport :
  (forall v mt, sync_clock v mt = Int64.wrap (Z.max v mt + 1)) /\
  (forall v mt,
     Int64.in_range v -> Int64.in_range mt ->
     Z.max v mt < Int64.max_int ->
     sync_clock v mt = Z.max v mt + 1 /\ mt < sync_clock v mt) /\
  (forall data a b,
     Int64.in_range (n_t a) -> Int64.in_range (n_t b) ->
     Z.max (n_t b) (n_t a) < Int64.max_int ->
     n_t a < sync_clock (n_t b) (m_t (send data a))) /\
  (forall m n,
     let k := (length (log (receive m n)) - length (log n))%nat in
     n_t (receive m n)
       = Nat.iter k Int64.incr (sync_clock (n_t n) (m_t m)) /\
     (Int64.in_range (n_t n) -> Int64.in_range (m_t m) ->
      Z.max (n_t n) (m_t m) + 1 + Z.of_nat k <= Int64.max_int ->
      n_t (receive m n) = Z.max (n_t n) (m_t m) + 1 + Z.of_nat k /\
      m_t m < n_t (receive m n))).
Proof.
  assert (forall v mt,
     Int64.in_range v -> Int64.in_range mt ->
     Z.max v mt < Int64.max_int ->
     sync_clock v mt = Z.max v mt + 1) as Hsmall.
  { intros v mt Hv Hm Hlt. rewrite sync_clock_wrap.
    apply Int64Facts.wrap_small. unfold Int64.in_range in *. lia. }
  split; [apply sync_clock_wrap|]. split; [|split].
  - intros v mt Hv Hm Hlt. rewrite (Hsmall v mt Hv Hm Hlt). lia.
  - intros data a b Ha Hb Hlt. simpl. rewrite (Hsmall _ _ Hb Ha Hlt). lia.
  - intros m n k.
    assert (n_t (receive m n)
            = Nat.iter k Int64.incr (sync_clock (n_t n) (m_t m))) as Hk.
    { subst k. unfold receive.
      set (n1 := set_t (sync_clock (n_t n) (m_t m)) n).
      destruct (queue_clock m n1) as [Ht Hl].
      destruct (synchronized (queue m n1)).
      - rewrite flush_spec. simpl. rewrite Ht, Hl. simpl.
        rewrite length_app, emitted_length. f_equal. lia.
      - rewrite Ht, Hl. simpl. by rewrite Nat.sub_diag. }
    split; [exact Hk|].
    intros Hv Hm Hle. rewrite Hk.
    rewrite (Hsmall _ _ Hv Hm) by lia.
    rewrite Int64Facts.iter_incr; unfold Int64.in_range in *; lia.
Qed.

Lemma sync_clock_lamport_witness :
  Int64.in_range 3 /\ Int64.in_range 5 /\ Z.max 3 5 < Int64.max_int /\
  5 < sync_clock 3 5.
Proof.
  assert (Int64.in_range 3) as H3 by (vm_compute; split; discriminate).
  assert (Int64.in_range 5) as H5 by (vm_compute; split; discriminate).
  assert (Z.max 3 5 < Int64.max_int) as Hlt by reflexivity.
  split; [exact H3|]. split; [exact H5|]. split; [exact Hlt|].
  exact (proj2 (proj1 (proj2 sync_clock_lamport) 3 5 H3 H5 Hlt)).
Defined.

(** C7, as stated, fails at the largest [int64]: a node whose clock shows
    0 and receives timestamp [2^63 - 1] ends with the clock at [-2^63],
    which is not greater than the timestamp received. *)
Lemma sync_clock_overflow :
  ~ (sync_clock 0 Int64.max_int = Z.max 0 Int64.max_int + 1 /\
     Int64.max_int < sync_clock 0 Int64.max_int).
Proof. intros [_ H]. vm_compute in H. discriminate. Qed.

(** C8 (as amended).  A broadcast of [m] with [int] bounds [lmin < lmax]
    whose difference fits an [int64] has one leg per node.  The leg to a
    destination whose jam entry ([m.sender], destination) exists draws a
    value of [[lmin, lmax)], [lmin] plus the value of [rand.Int] in
    [[0, lmax - lmin)], and adds the jam entry as [int64]s; it then
    sleeps that many milliseconds, turned into nanoseconds by an [int64]
    multiplication, and hands [m] to the destination.  The pause is the
    jam entry plus the drawn value, in milliseconds, when that sum is
    positive and fits as nanoseconds; there is no pause when it is zero
    or negative.  Every value of the interval is the draw of some value
    of [rand.Int], and different draws give different latencies.  Entries
    are 0 until set.  [setJam A B x] succeeds on an existing entry, makes
    the ([A], [B]) entry [x] and leaves every other entry, and so the
    latency, the pause and the hand-over of every leg of another source
    or to another destination, as it was. *)
Theorem jam_isolation :
  (forall (nodeCount : nat) i j,
     0 <= i < Z.of_nat nodeCount -> 0 <= j < Z.of_nat nodeCount ->
     jam_entry (newJam nodeCount) i j = Ok 0) /\
  (forall jam (nodeCount : nat) m lmin lmax r,
     Int64.in_range lmin -> Int64.in_range lmax -> lmin < lmax ->
     lmax - lmin <= Int64.max_int ->
     length (handovers jam nodeCount m lmin lmax r) = nodeCount /\
     forall (i : nat) j,
       (i < nodeCount)%nat ->
       jam_entry jam (m_sender m) (Z.of_nat i) = Ok j ->
       let drawn := lmin + r i mod (lmax - lmin) in
       let latency := Int64.add j drawn in
       lmin <= drawn < lmax /\
       broadcaster jam nodeCount m lmin lmax r !! i = Some (Ok latency) /\
       handovers jam nodeCount m lmin lmax r !! i
       = Some (Ok (Handover (Sleep (duration latency)) (Z.of_nat i) m)) /\
       (0 < j + drawn -> (j + drawn) * Millisecond <= Int64.max_int ->
        Sleep (duration latency) = (j + drawn) * Millisecond) /\
       (Int64.min_int <= (j + drawn) * Millisecond <= 0 ->
        Sleep (duration latency) = 0)) /\
  (forall max d, 0 <= d < max -> rand_Int max d = Ok d) /\
  (forall j lmin max d1 d2,
     max <= Int64.max_int -> 0 <= d1 < max -> 0 <= d2 < max ->
     Int64.add j (lmin + d1) = Int64.add j (lmin + d2) -> d1 = d2) /\
  (forall jam a b x j,
     jam_entry jam a b = Ok j -> exists jam', setJam jam a b x = Ok jam') /\
  (forall jam a b x jam',
     setJam jam a b x = Ok jam' ->
     jam_entry jam' a b = Ok x /\
     (forall c d, c <> a \/ d <> b ->
        jam_entry jam' c d = jam_entry jam c d) /\
     (forall nodeCount m lmin lmax r (i : nat),
        m_sender m <> a \/ Z.of_nat i <> b ->
        broadcaster jam' nodeCount m lmin lmax r !! i
        = broadcaster jam nodeCount m lmin lmax r !! i /\
        handovers jam' nodeCount m lmin lmax r !! i
        = handovers jam nodeCount m lmin lmax r !! i)).
Proof.
  split; [apply newJam_entry|]. split; [|split; [|split; [|split]]].
  - intros jam nodeCount m lmin lmax r Hlo Hhi Hlt Hfit.
    split; [apply handovers_length|].
    intros i j Hi Hj drawn latency.
    pose proof (Z.mod_pos_bound (r i) (lmax - lmin) ltac:(lia)) as Hd.
    pose proof (leg_latency_fits jam m (Z.of_nat i) lmin lmax (r i) j
                  Hlo Hhi Hlt Hfit Hj) as Hleg.
    split; [subst drawn; lia|].
    split; [by rewrite broadcaster_lookup, Hleg|].
    split; [by rewrite handovers_lookup, Hleg|].
    split.
    + intros Hpos Hns. subst latency. unfold Int64.add.
      rewrite Int64Facts.wrap_small; [by apply Sleep_duration_exact|].
      unfold Int64.in_range, Int64.min_int, Millisecond in *. lia.
    + intros Hns. subst latency. unfold Int64.add.
      rewrite Int64Facts.wrap_small; [by apply Sleep_duration_none|].
      unfold Int64.in_range, Int64.min_int, Int64.max_int, Millisecond in *.
      lia.
  - intros max d Hd. unfold rand_Int.
    destruct (Z.leb_spec max 0); [lia|]. by rewrite Z.mod_small.
  - intros j lmin max d1 d2 Hmax Hd1 Hd2 E. unfold Int64.add in E.
    apply wrap_window in E; [lia|].
    unfold Int64.max_int in Hmax. lia.
  - intros jam a b x j. apply setJam_Ok.
  - intros jam a b x jam' Hset.
    split; [by eapply setJam_entry|].
    assert (forall c d, c <> a \/ d <> b ->
              jam_entry jam' c d = jam_entry jam c d) as Hother
      by (intros c d Hne; by eapply setJam_other).
    split; [exact Hother|].
    intros nodeCount m lmin lmax r i Hne.
    apply broadcaster_frame. by apply Hother.
Qed.

Lemma jam_isolation_witness :
  setJam (newJam 3) 0 1 300 = Ok jam_0_1_300 /\
  (m_sender msgC <> 0 \/ Z.of_nat 1 <> 1) /\
  handovers jam_0_1_300 3 msgC 10 20 (fun _ => 7) !! 1%nat
  = handovers (newJam 3) 3 msgC 10 20 (fun _ => 7) !! 1%nat /\
  handovers jam_0_1_300 3 msgA 10 20 (fun _ => 7) !! 1%nat
  = Some (Ok (Handover 317000000 1 msgA)).
Proof.
  assert (setJam (newJam 3) 0 1 300 = Ok jam_0_1_300) as Hset
    by reflexivity.
  assert (m_sender msgC <> 0 \/ Z.of_nat 1 <> 1) as Hne
    by (left; discriminate).
  split; [exact Hset|]. split; [exact Hne|].
  assert (Int64.in_range 10) as Hlo by (split; discriminate).
  assert (Int64.in_range 20) as Hhi by (split; discriminate).
  destruct jam_isolation as (_ & Hleg & _ & _ & _ & Hframe).
  destruct (Hframe _ _ _ _ _ Hset) as (_ & _ & Hlegs).
  split; [exact (proj2 (Hlegs 3%nat msgC 10 20 (fun _ => 7) 1%nat Hne))|].
  destruct (Hleg jam_0_1_300 3%nat msgA 10 20 (fun _ => 7) Hlo Hhi
              eq_refl) as [_ Hi]; [discriminate|].
  assert (1 < 3)%nat as H13 by lia.
  exact (proj1 (proj2 (proj2 (Hi 1%nat 300 H13 eq_refl)))).
Defined.

(** C8, as stated, fails where the sum leaves the [int64]: after
    [jam 0 0 9223372036854775807] in a pool of one node, the broadcast
    of "A" by node 0 with bounds [[1, 2)] computes the latency [-2^63]
    and hands the message over without any pause, where the jam entry
    plus a value of [[1, 2)] would be [2^63] milliseconds. *)
Lemma jam_delay_wraps :
  setJam (newJam 1) 0 0 Int64.max_int = Ok jam_0_0_max /\
  broadcaster jam_0_0_max 1 msgA 1 2 (fun _ => 0) = [Ok Int64.min_int] /\
  handovers jam_0_0_max 1 msgA 1 2 (fun _ => 0)
  = [Ok (Handover 0 0 msgA)] /\
  ~ (exists drawn,
       1 <= drawn < 2 /\
       handovers jam_0_0_max 1 msgA 1 2 (fun _ => 0)
       = [Ok (Handover ((Int64.max_int + drawn) * Millisecond) 0 msgA)]).
Proof.
  split; [reflexivity|]. split; [reflexivity|]. split; [reflexivity|].
  intros (drawn & Hd & E). assert (drawn = 1) as -> by lia.
  vm_compute in E. discriminate.
Qed.

(** C9 (as amended).  A leg of a broadcast panics in the random draw,
    before any hand-over, exactly when the [int] difference [lmax - lmin],
    taken with wrap-around, is not positive; so does then every leg of
    the broadcast.  That is the case for every call with [lmax <= lmin]
    whose difference is at least [-2^63], and also for every call with
    [lmax > lmin] whose difference exceeds [2^63 - 1]. *)
Theorem broadcast_panics_on_empty_range :
  (forall jam m i lmin lmax r,
     leg_latency jam m i lmin lmax r = Panic RandIntNonPositive <->
     Int64.sub lmax lmin <= 0) /\
  (forall jam nodeCount m lmin lmax r,
     Int64.sub lmax lmin <= 0 ->
     Forall (fun leg => leg = Panic RandIntNonPositive)
       (broadcaster jam nodeCount m lmin lmax r)) /\
  (forall lmin lmax,
     lmax <= lmin -> Int64.min_int <= lmax - lmin ->
     Int64.sub lmax lmin <= 0) /\
  (forall lmin lmax,
     Int64.in_range lmin -> Int64.in_range lmax ->
     lmin < lmax -> Int64.max_int < lmax - lmin ->
     Int64.sub lmax lmin <= 0).
Proof.
  split; [|split; [|split]].
  - intros jam m i lmin lmax r. split; [|apply leg_latency_panic].
    unfold leg_latency, rand_Int.
    destruct (Z.leb_spec (Int64.sub lmax lmin) 0); [done|]. simpl.
    destruct (jam_entry jam (m_sender m) i) as [j|why] eqn:E; [done|].
    simpl. intros [= ->]. by apply jam_entry_panic in E.
  - intros jam nodeCount m lmin lmax r Hle. unfold broadcaster.
    apply Forall_fmap, Forall_forall. intros i _.
    by apply leg_latency_panic.
  - intros lmin lmax Hle Hfit. rewrite sub_exact; [lia|].
    unfold Int64.in_range, Int64.max_int, Int64.min_int in *. lia.
  - intros lmin lmax Hlo Hhi Hlt Hbig. unfold Int64.sub.
    destruct (Int64Facts.wrap_multiple (lmax - lmin)) as [q Hq].
    pose proof (Int64Facts.wrap_in_range (lmax - lmin)) as Hr.
    unfold Int64.in_range, Int64.min_int, Int64.max_int in *. lia.
Qed.

Lemma broadcast_panics_on_empty_range_witness :
  20 <= 20 /\ Int64.min_int <= 20 - 20 /\
  leg_latency (newJam 3) msgA 1 20 20 7 = Panic RandIntNonPositive.
Proof.
  assert (20 <= 20) as Hle by discriminate.
  assert (Int64.min_int <= 20 - 20) as Hfit by discriminate.
  split; [exact Hle|]. split; [exact Hfit|].
  destruct broadcast_panics_on_empty_range as (Hiff & _ & Hsub & _).
  exact (proj2 (Hiff (newJam 3) msgA 1 20 20 7) (Hsub 20 20 Hle Hfit)).
Defined.

(** C9, as stated, fails when the difference wraps around: with
    [lmin = 1] and [lmax = -2^63] the modulus handed to the draw is
    [2^63 - 1], the draw succeeds and the leg goes on to hand the message
    over, although [lmax <= lmin]. *)
Lemma broadcast_wrapped_range_draws :
  Int64.min_int <= 1 /\
  leg_latency (newJam 3) msgA 1 1 Int64.min_int 7 = Ok 8.
Proof. split; [discriminate|reflexivity]. Qed.

End TotalOrderProps.

(** ** The causal-delivery node *)

Module CausalFacts.
Import Causal CausalSpec.

(** *** The scan *)

Lemma scan_Some dl buf e rest :
  scan dl buf = Ok (Some (e, rest)) ->
  exists l1 l2,
    buf = l1 ++ e :: l2 /\ rest = l1 ++ l2 /\
    index dl (m_sender e) = Ok (m_sequence e) /\ all_blocked dl l1.
Proof.
  revert rest. induction buf as [|x buf IH]; intros rest; simpl; [done|].
  unfold obind. destruct (index dl (m_sender x)) as [d|] eqn:Hd; [|done].
  destruct (Z.eqb_spec (m_sequence x) d) as [E|Hne].
  - intros [= -> ->]. exists [], rest. rewrite E.
    repeat split; try done. constructor.
  - destruct (scan dl buf) as [[[e' rest']|]|] eqn:Hs; simpl; try done.
    intros [= -> <-].
    destruct (IH _ eq_refl) as (l1 & l2 & -> & -> & Hi & Hb).
    exists (x :: l1), l2. repeat split; try done.
    constructor; [by exists d|done].
Qed.

Lemma scan_None dl buf : scan dl buf = Ok None -> all_blocked dl buf.
Proof.
  induction buf as [|x buf IH]; simpl; [constructor|].
  unfold obind. destruct (index dl (m_sender x)) as [d|] eqn:Hd; [|done].
  destruct (Z.eqb_spec (m_sequence x) d) as [E|Hne]; [done|].
  destruct (scan dl buf) as [[[e' rest']|]|] eqn:Hs; simpl; try done.
  intros _. constructor; [by exists d|by apply IH].
Qed.

Lemma scan_total dl buf :
  senders_known dl buf -> exists r, scan dl buf = Ok r.
Proof.
  induction 1 as [|x buf Hx _ [r IH]]; simpl; [by eexists|].
  destruct (index_in_range dl (m_sender x) Hx) as [d ->]. simpl.
  destruct (m_sequence x =? d); [by eexists|].
  rewrite IH. simpl. by eexists.
Qed.

(** *** The delivery loop *)

Lemma deliver_loop_S fuel n :
  deliver_loop (S fuel) n =
  do r <- scan (delivered n) (buffer n);
  match r with
  | None => Ok n
  | Some (e, rest) =>
      do d <- index (delivered n) (m_sender e);
      deliver_loop fuel (delivered_one n e d rest)
  end.
Proof. reflexivity. Qed.

(** What a round that delivers [e] looks like. *)
Lemma deliver_loop_round fuel n e rest :
  scan (delivered n) (buffer n) = Ok (Some (e, rest)) ->
  deliver_loop (S fuel) n
  = deliver_loop fuel (delivered_one n e (m_sequence e) rest).
Proof.
  intros Hs. rewrite deliver_loop_S, Hs. simpl.
  apply scan_Some in Hs as (_ & _ & _ & _ & -> & _). done.
Qed.

Lemma deliver_loop_cases fuel n :
  (exists why, scan (delivered n) (buffer n) = Panic why /\
     deliver_loop (S fuel) n = Panic why) \/
  (scan (delivered n) (buffer n) = Ok None /\
     deliver_loop (S fuel) n = Ok n) \/
  (exists e rest, scan (delivered n) (buffer n) = Ok (Some (e, rest)) /\
     deliver_loop (S fuel) n
     = deliver_loop fuel (delivered_one n e (m_sequence e) rest)).
Proof.
  destruct (scan (delivered n) (buffer n)) as [[[e rest]|]|why] eqn:Hs.
  - right. right. exists e, rest. split; [done|].
    by apply deliver_loop_round.
  - right. left. by rewrite deliver_loop_S, Hs.
  - left. exists why. by rewrite deliver_loop_S, Hs.
Qed.

(** Fuel above the length of the buffer is never used up. *)
Lemma deliver_loop_fuel f1 f2 n :
  (length (buffer n) < f1)%nat -> (length (buffer n) < f2)%nat ->
  deliver_loop f1 n = deliver_loop f2 n.
Proof.
  revert f2 n. induction f1 as [|f1 IH]; intros f2 n H1 H2; [lia|].
  destruct f2 as [|f2]; [lia|].
  destruct (deliver_loop_cases f1 n)
    as [(why & Hs & ->)|[(Hs & ->)|(e & rest & Hs & ->)]].
  - by rewrite deliver_loop_S, Hs.
  - by rewrite deliver_loop_S, Hs.
  - rewrite (deliver_loop_round f2 n e rest Hs).
    apply scan_Some in Hs as (l1 & l2 & Hb & -> & _).
    rewrite Hb, length_app in H1, H2. simpl in H1, H2.
    apply IH; simpl; rewrite length_app; lia.
Qed.

Lemma deliver_loop_replay fuel n n' :
  deliver_loop fuel n = Ok n' ->
  exists ds,
    log n' = log n ++ ds /\
    replay (delivered n) ds = Some (delivered n') /\
    buffer n' ++ ds ≡ₚ buffer n /\
    length (delivered n') = length (delivered n).
Proof.
  revert n. induction fuel as [|fuel IH]; intros n.
  - intros [= <-]. exists []. by rewrite !app_nil_r.
  - destruct (deliver_loop_cases fuel n)
      as [(why & _ & ->)|[(_ & ->)|(e & rest & Hs & ->)]]; [done| |].
    + intros [= <-]. exists []. by rewrite !app_nil_r.
    + intros Hl. destruct (IH _ Hl) as (ds & Hlog & Hr & Hp & Hlen).
      apply scan_Some in Hs as (l1 & l2 & Hb & -> & Hi & _).
      simpl in *. exists (e :: ds). repeat split.
      * by rewrite Hlog, <- app_assoc.
      * simpl. rewrite Hi, Z.eqb_refl. exact Hr.
      * rewrite Hb, <- !Permutation_middle. by rewrite Hp.
      * by rewrite Hlen, length_insert.
Qed.

Lemma deliver_loop_blocked fuel n n' :
  (length (buffer n) < fuel)%nat ->
  deliver_loop fuel n = Ok n' ->
  all_blocked (delivered n') (buffer n').
Proof.
  revert n. induction fuel as [|fuel IH]; intros n Hf; [lia|].
  destruct (deliver_loop_cases fuel n)
    as [(why & _ & ->)|[(Hs & ->)|(e & rest & Hs & ->)]]; [done| |].
  - intros [= <-]. by apply scan_None.
  - apply IH. apply scan_Some in Hs as (l1 & l2 & Hb & -> & _).
    rewrite Hb, length_app in Hf. simpl in *. rewrite length_app. lia.
Qed.

Lemma deliver_loop_total fuel n :
  senders_known (delivered n) (buffer n) ->
  exists n', deliver_loop fuel n = Ok n'.
Proof.
  revert n. induction fuel as [|fuel IH]; intros n Hk; [by eexists|].
  destruct (scan_total _ _ Hk) as [r Hr].
  destruct (deliver_loop_cases fuel n)
    as [(why & Hs & _)|[(_ & ->)|(e & rest & Hs & ->)]].
  - congruence.
  - by eexists.
  - apply IH. apply scan_Some in Hs as (l1 & l2 & Hb & -> & _).
    unfold senders_known in *. simpl. rewrite length_insert.
    rewrite Hb in Hk. apply Forall_app in Hk as [H1 H2].
    apply Forall_app. split; [done|]. by inversion H2.
Qed.

(** *** Counting deliveries *)

Lemma counting_S k : counting (S k) = counting k ++ [counter k].
Proof. unfold counting. by rewrite seq_S, fmap_app. Qed.

Lemma counted_step dl lg e :
  counted dl lg -> index dl (m_sender e) = Ok (m_sequence e) ->
  counted (<[Z.to_nat (m_sender e) := Int64.incr (m_sequence e)]> dl)
    (lg ++ [e]).
Proof.
  intros Hc Hi s d Hs. unfold sequences_from, from in *.
  rewrite filter_app. destruct (decide (m_sender e = s)) as [<-|Hne].
  - rewrite (index_insert_eq _ _ _ _ Hi) in Hs. injection Hs as <-.
    destruct (Hc _ _ Hi) as [Hd Hq]. unfold sequences_from, from in Hd, Hq.
    rewrite (filter_cons_True _ e []) by done. rewrite filter_nil.
    rewrite length_app, Nat.add_1_r, fmap_app, Hq, counting_S. simpl.
    by rewrite Hd.
  - apply index_Ok_range in Hi as Hr.
    rewrite index_insert_ne in Hs by (lia || done).
    rewrite (filter_cons_False _ e []) by done.
    rewrite filter_nil, app_nil_r. by apply Hc.
Qed.

Lemma counted_replay dl lg ds dl' :
  counted dl lg -> replay dl ds = Some dl' -> counted dl' (lg ++ ds).
Proof.
  revert dl lg. induction ds as [|e ds IH]; intros dl lg Hc; simpl.
  - intros [= <-]. by rewrite app_nil_r.
  - destruct (index dl (m_sender e)) as [d|] eqn:Hi; [|done].
    destruct (Z.eqb_spec (m_sequence e) d) as [<-|]; [|done].
    intros Hr. rewrite (cons_middle e lg ds), app_assoc.
    eapply IH; [|exact Hr]. by apply counted_step.
Qed.

Lemma counted_newNode p : counted (replicate p 0) [].
Proof.
  intros s d [_ Hs]%index_Ok. apply lookup_replicate in Hs as [-> _].
  done.
Qed.

(** *** [receive] *)

Lemma receive_replay m n n' :
  receive m n = Ok n' ->
  exists ds,
    log n' = log n ++ ds /\
    replay (delivered n) ds = Some (delivered n') /\
    buffer n' ++ ds ≡ₚ buffer n ++ [m] /\
    length (delivered n') = length (delivered n) /\
    all_blocked (delivered n') (buffer n').
Proof.
  unfold receive. intros Hl.
  destruct (deliver_loop_replay _ _ _ Hl) as (ds & H1 & H2 & H3 & H4).
  exists ds. repeat split; try done.
  eapply deliver_loop_blocked; [|exact Hl]. simpl. lia.
Qed.

Lemma receive_total m n :
  senders_known (delivered n) (buffer n ++ [m]) ->
  exists n', receive m n = Ok n'.
Proof. intros Hk. by apply deliver_loop_total. Qed.

Lemma replay_known dl ds dl' : replay dl ds = Some dl' -> senders_known dl ds.
Proof.
  revert dl. induction ds as [|e ds IH]; intros dl; simpl; [constructor|].
  destruct (index dl (m_sender e)) as [d|] eqn:Hi; [|done].
  destruct (m_sequence e =? d); [|done].
  intros Hr%IH. unfold senders_known in *. rewrite length_insert in Hr.
  constructor; [by eapply index_Ok_range|done].
Qed.

Lemma all_blocked_known dl l : all_blocked dl l -> senders_known dl l.
Proof.
  intros Hb. eapply Forall_impl; [exact Hb|].
  intros x (d & Hd & _). by eapply index_Ok_range.
Qed.

(** [receive] returns only if every buffered message, the new one
    included, names a sender the vector has an entry for. *)
Lemma receive_known m n n' :
  receive m n = Ok n' -> senders_known (delivered n) (buffer n ++ [m]).
Proof.
  intros (ds & _ & Hr & Hp & Hl & Hb)%receive_replay.
  unfold senders_known. rewrite <- Hp, <- Hl. apply Forall_app. split.
  - by apply all_blocked_known.
  - rewrite Hl. by eapply replay_known.
Qed.

Lemma run_inv_newNode p i : run_inv p (newNode p i).
Proof.
  split; [apply length_replicate|]. split; [constructor|].
  apply counted_newNode.
Qed.

Lemma run_inv_receive p m n n' :
  run_inv p n -> receive m n = Ok n' -> run_inv p n'.
Proof.
  intros (Hlen & _ & Hc) Hr. pose proof (receive_known _ _ _ Hr) as Hk.
  destruct (receive_replay _ _ _ Hr) as (ds & Hlog & Hrep & Hp & Hl & _).
  split; [congruence|]. split.
  - unfold senders_known in *. rewrite Hl.
    rewrite <- Hp in Hk. by apply Forall_app in Hk as [? _].
  - rewrite Hlog. by eapply counted_replay.
Qed.

Lemma run_inv_receive_all p ms n n' :
  run_inv p n -> receive_all ms n = Ok n' -> run_inv p n'.
Proof.
  revert n. induction ms as [|m ms IH]; intros n Hn; simpl.
  - by intros [= <-].
  - destruct (receive m n) as [n1|] eqn:Hr; [|done]. simpl.
    apply IH. by eapply run_inv_receive.
Qed.

Lemma receive_all_total p ms n :
  run_inv p n ->
  Forall (fun x => 0 <= m_sender x < Z.of_nat p) ms ->
  exists n', receive_all ms n = Ok n'.
Proof.
  intros Hn Hms. revert n Hn.
  induction Hms as [|m ms Hm _ IH]; intros n Hn; simpl; [by eexists|].
  destruct Hn as (Hlen & Hk & Hc).
  destruct (receive_total m n) as [n1 Hr].
  { unfold senders_known in *. apply Forall_app. split; [done|].
    rewrite Hlen. constructor; [done|constructor]. }
  rewrite Hr. simpl. apply IH. by eapply run_inv_receive.
Qed.

Lemma counter_small k :
  Z.of_nat k <= Int64.max_int -> counter k = Z.of_nat k.
Proof.
  intros Hk. unfold counter. rewrite Int64Facts.iter_incr; [lia| |lia].
  split; discriminate.
Qed.

Lemma counting_small k :
  Z.of_nat k <= Int64.max_int -> counting k = Z.of_nat <$> seq 0 k.
Proof.
  intros Hk. unfold counting. apply list_fmap_ext.
  intros j x Hx. apply counter_small.
  apply lookup_seq in Hx as [-> ?]. lia.
Qed.

End CausalFacts.

Module CausalProps.
Import Causal CausalSpec CausalFacts.

(** C10 (as amended).  For every node state, a [receive] that returns has
    delivered buffered messages one at a time, each only when its sequence
    number was [delivered[sender]] at that moment, advancing that entry by
    one [int] increment (which wraps from [2^63 - 1] to [-2^63]); the
    messages it did not deliver stay buffered, none of them deliverable.
    [receive] returns whenever every buffered message names a sender of
    the pool.  On a node started fresh, the messages delivered from each
    sender carry the counter values 0, 1, 2, ... in that order, and
    [delivered[s]] is the counter after as many increments as messages
    were delivered from [s]: as long as that number does not exceed
    [2^63 - 1], the sequence numbers are 0, 1, ..., k-1 without gap or
    duplicate and [delivered[s]] is [k]. *)
Theorem causal_receive_in_order :
  (forall m n n',
     receive m n = Ok n' ->
     exists ds,
       log n' = log n ++ ds /\
       replay (delivered n) ds = Some (delivered n') /\
       buffer n' ++ ds ≡ₚ buffer n ++ [m] /\
       all_blocked (delivered n') (buffer n')) /\
  (forall m n,
     senders_known (delivered n) (buffer n ++ [m]) ->
     exists n', receive m n = Ok n') /\
  (forall (p : nat) i ms,
     Forall (fun x => 0 <= m_sender x < Z.of_nat p) ms ->
     exists n, receive_all ms (newNode p i) = Ok n) /\
  (forall (p : nat) i ms n,
     receive_all ms (newNode p i) = Ok n ->
     forall s d,
       index (delivered n) s = Ok d ->
       d = counter (length (from s (log n))) /\
       sequences_from s (log n) = counting (length (from s (log n))) /\
       (Z.of_nat (length (from s (log n))) <= Int64.max_int ->
        d = Z.of_nat (length (from s (log n))) /\
        sequences_from s (log n)
          = Z.of_nat <$> seq 0 (length (from s (log n))))).
Proof.
  split; [|split; [|split]].
  - intros m n n' Hr.
    destruct (receive_replay _ _ _ Hr) as (ds & H1 & H2 & H3 & _ & H5).
    by exists ds.
  - apply receive_total.
  - intros p i ms Hms. eapply receive_all_total; [|exact Hms].
    apply run_inv_newNode.
  - intros p i ms n Hr s d Hd.
    destruct (run_inv_receive_all p ms _ _ (run_inv_newNode p i) Hr)
      as (_ & _ & Hc).
    destruct (Hc s d Hd) as [E1 E2].
    split; [done|]. split; [done|].
    intros Hk. by rewrite E1, E2, counter_small, counting_small.
Qed.

Lemma causal_receive_in_order_witness :
  receive_all [Message 0 1 "b"; Message 0 0 "a"] (newNode 1 0) = Ok node_ab /\
  index (delivered node_ab) 0 = Ok 2 /\
  Z.of_nat (length (from 0 (log node_ab))) <= Int64.max_int /\
  sequences_from 0 (log node_ab)
    = Z.of_nat <$> seq 0 (length (from 0 (log node_ab))).
Proof.
  assert (receive_all [Message 0 1 "b"; Message 0 0 "a"] (newNode 1 0)
          = Ok node_ab) as Hr by reflexivity.
  assert (index (delivered node_ab) 0 = Ok 2) as Hi by reflexivity.
  assert (Z.of_nat (length (from 0 (log node_ab))) <= Int64.max_int) as Hk
    by discriminate.
  split; [exact Hr|]. split; [exact Hi|]. split; [exact Hk|].
  destruct causal_receive_in_order as (_ & _ & _ & Hrun).
  exact (proj2 (proj2 (proj2 (Hrun 1%nat 0 _ _ Hr 0 2 Hi)) Hk)).
Defined.

(** C10, as stated, fails on the node state [node_full], whose entry for
    sender 0 is the largest [int]: receiving the message numbered
    [2^63 - 1] delivers it and then the buffered message numbered
    [-2^63].  The two deliveries are not in increasing sequence order,
    and the entry, incremented twice, ends at [-2^63 + 1]. *)
Lemma causal_counter_wraps :
  exists n,
    receive msg_last node_full = Ok n /\
    m_sequence <$> log n = [Int64.max_int; Int64.min_int] /\
    ~ (Int64.max_int < Int64.min_int) /\
    delivered n = [Int64.min_int + 1] /\
    delivered n <> [Int64.max_int + 2].
Proof.
  eexists. split; [reflexivity|]. split; [reflexivity|].
  split; [discriminate|]. split; [reflexivity|]. discriminate.
Qed.

End CausalProps.

(** ** The total-order broadcast node: facts on whole runs *)

Module DeliveryFacts.
Import TotalOrder TotalOrderSpec TotalOrderFacts DeliverySpec.

Lemma queue_held m n : held (queue m n) ≡ₚ m :: held n.
Proof.
  unfold held.
  destruct (queue_cases m n) as [[E ->]|[(_ & _ & ->)|(_ & _ & ->)]]; simpl.
  - by rewrite E.
  - by rewrite insert_scan_perm.
  - rewrite insert_scan_perm. by rewrite Permutation_middle.
Qed.

Lemma queue_log m n : log (queue m n) = log n.
Proof. apply queue_clock. Qed.

Lemma queue_participants m n : participants (queue m n) = participants n.
Proof.
  by destruct (queue_cases m n) as [[_ ->]|[(_ & _ & ->)|(_ & _ & ->)]].
Qed.

Lemma queue_id m n : id (queue m n) = id n.
Proof.
  by destruct (queue_cases m n) as [[_ ->]|[(_ & _ & ->)|(_ & _ & ->)]].
Qed.

Lemma flush_delivered n :
  delivered_messages (flush n) = delivered_messages n ++ primaryBuffer n.
Proof.
  unfold delivered_messages. rewrite flush_spec. simpl.
  by rewrite fmap_app, emitted_messages.
Qed.

Lemma flush_held n : held (flush n) = secondaryBuffer n.
Proof. unfold held. rewrite flush_spec. simpl. apply app_nil_r. Qed.

Lemma receive_cases m n :
  (synchronized (queued m n) = true /\ receive m n = flush (queued m n)) \/
  (synchronized (queued m n) = false /\ receive m n = queued m n).
Proof.
  unfold receive, queued.
  destruct (synchronized _); [left|right]; done.
Qed.

Lemma queued_held m n : held (queued m n) ≡ₚ m :: held n.
Proof. unfold queued. by rewrite queue_held. Qed.

Lemma queued_log m n : log (queued m n) = log n.
Proof. unfold queued. by rewrite queue_log. Qed.

Lemma receive_log m n : exists new, log (receive m n) = log n ++ new.
Proof.
  destruct (receive_cases m n) as [[_ ->]|[_ ->]].
  - rewrite flush_spec. simpl. rewrite queued_log. eauto.
  - exists []. by rewrite queued_log, app_nil_r.
Qed.

Lemma receive_conserves m n :
  delivered_messages (receive m n) ++ held (receive m n)
  ≡ₚ delivered_messages n ++ held n ++ [m].
Proof.
  assert (delivered_messages (queued m n) ++ held (queued m n)
          ≡ₚ delivered_messages n ++ held n ++ [m]) as Hq.
  { unfold delivered_messages. rewrite queued_log, queued_held.
    by rewrite (Permutation_cons_append (held n) m). }
  destruct (receive_cases m n) as [[_ ->]|[_ ->]]; [|done].
  rewrite flush_delivered, flush_held, <- app_assoc. exact Hq.
Qed.

Lemma receive_all_snoc ms m n :
  receive_all (ms ++ [m]) n = receive m (receive_all ms n).
Proof. unfold receive_all. by rewrite foldl_app. Qed.

Lemma receive_all_cons ms m n :
  receive_all (m :: ms) n = receive_all ms (receive m n).
Proof. reflexivity. Qed.

Lemma receive_all_log ms n : exists new, log (receive_all ms n) = log n ++ new.
Proof.
  revert n. induction ms as [|m ms IH]; intros n.
  - exists []. by rewrite app_nil_r.
  - rewrite receive_all_cons. destruct (IH (receive m n)) as [new2 ->].
    destruct (receive_log m n) as [new1 ->].
    exists (new1 ++ new2). by rewrite app_assoc.
Qed.

Lemma receive_all_conserves ms n :
  delivered_messages (receive_all ms n) ++ held (receive_all ms n)
  ≡ₚ delivered_messages n ++ held n ++ ms.
Proof.
  revert n. induction ms as [|m ms IH]; intros n.
  - by rewrite app_nil_r.
  - rewrite receive_all_cons, IH, app_assoc, receive_conserves.
    by rewrite <- !app_assoc.
Qed.

(** *** When [receive] flushes *)

Lemma synchronized_size n :
  synchronized n = true <->
  Z.of_nat (size (senders (secondaryBuffer n))) = participants n.
Proof.
  unfold synchronized. rewrite size_mark_senders. apply bool_decide_eq_true.
Qed.

Lemma senders_nil : senders [] = ∅.
Proof. reflexivity. Qed.

Lemma senders_cons m l : senders (m :: l) = {[m_sender m]} ∪ senders l.
Proof. reflexivity. Qed.

Lemma elem_of_senders x l : x ∈ senders l <-> exists m, m ∈ l /\ m_sender m = x.
Proof.
  unfold senders. rewrite elem_of_list_to_set, list_elem_of_fmap.
  split; intros (m & ? & ?); exists m; done.
Qed.

Lemma senders_size_le l : (size (senders l) <= length l)%nat.
Proof.
  induction l as [|m l IH]; [by rewrite senders_nil, size_empty|].
  rewrite senders_cons, size_union_alt, size_singleton. simpl.
  pose proof (subseteq_size (senders l ∖ {[m_sender m]}) (senders l)
                ltac:(set_solver)).
  lia.
Qed.

Lemma queued_participants m n : participants (queued m n) = participants n.
Proof. unfold queued. by rewrite queue_participants. Qed.

Lemma queued_primary_nonempty m n : primaryBuffer (queued m n) <> [].
Proof.
  unfold queued. set (n1 := set_t _ n).
  destruct (queue_cases m n1) as [[E ->]|[(Hne & _ & ->)|(Hne & _ & ->)]];
    simpl; try done.
  apply insert_scan_nonempty.
Qed.

Lemma receive_participants m n : participants (receive m n) = participants n.
Proof.
  destruct (receive_cases m n) as [[_ ->]|[_ ->]].
  - rewrite flush_spec. simpl. apply queued_participants.
  - apply queued_participants.
Qed.

Lemma receive_all_participants ms n :
  participants (receive_all ms n) = participants n.
Proof.
  revert n. induction ms as [|m ms IH]; intros n; [done|].
  by rewrite receive_all_cons, IH, receive_participants.
Qed.

(** A flush inside [receive] always has something to promote, unless the
    pool counts no participant. *)
Lemma receive_pending m n :
  participants n <> 0 -> primaryBuffer (receive m n) <> [].
Proof.
  intros Hp. destruct (receive_cases m n) as [[Hs ->]|[_ ->]].
  - rewrite flush_spec. simpl. intros E.
    apply synchronized_size in Hs.
    rewrite E, senders_nil, size_empty, queued_participants in Hs. lia.
  - apply queued_primary_nonempty.
Qed.

Lemma receive_all_pending ms n :
  participants n <> 0 -> ms <> [] -> primaryBuffer (receive_all ms n) <> [].
Proof.
  intros Hp Hne. destruct (exists_last Hne) as (ms' & m & ->).
  rewrite receive_all_snoc. apply receive_pending.
  by rewrite receive_all_participants.
Qed.

(** *** Starvation *)

Lemma pool_ids_elem (p : nat) x : x ∈ pool_ids p <-> 0 <= x < Z.of_nat p.
Proof.
  unfold pool_ids. rewrite elem_of_list_to_set, elem_of_seqZ. lia.
Qed.

Lemma pool_ids_size (p : nat) : size (pool_ids p) = p.
Proof.
  unfold pool_ids. rewrite size_list_to_set by apply NoDup_seqZ.
  rewrite length_seqZ. lia.
Qed.

(** While the secondary buffer cannot cover the pool, [receive] only
    queues. *)
Lemma receive_unsynchronized m n :
  Z.of_nat (size (senders (secondaryBuffer (queued m n)))) <> participants n ->
  receive m n = queued m n.
Proof.
  intros Hs. destruct (receive_cases m n) as [[Hy _]|[_ ->]]; [|done].
  apply synchronized_size in Hy. by rewrite queued_participants in Hy.
Qed.

Lemma held_secondary_senders n : senders (secondaryBuffer n) ⊆ senders (held n).
Proof.
  intros x (m & Hm & E)%elem_of_senders. apply elem_of_senders.
  exists m. split; [|done]. unfold held. apply elem_of_app. by right.
Qed.

Lemma receive_all_starved (p : nat) (s : Z) ms n :
  participants n = Z.of_nat p -> 0 <= s < Z.of_nat p ->
  Forall (fun m => 0 <= m_sender m < Z.of_nat p /\ m_sender m <> s)
    (held n ++ ms) ->
  log (receive_all ms n) = log n.
Proof.
  intros Hp Hs. revert n Hp.
  induction ms as [|m ms IH]; intros n Hp Hall; [done|].
  assert (Forall (fun m => 0 <= m_sender m < Z.of_nat p /\ m_sender m <> s)
            (held (queued m n))) as Hq.
  { rewrite queued_held. rewrite (cons_middle m), app_assoc in Hall.
    apply Forall_app in Hall as [Hall _].
    by rewrite <- Permutation_cons_append in Hall. }
  assert (receive m n = queued m n) as E.
  { apply receive_unsynchronized. rewrite Hp. intros Hsz.
    assert (senders (secondaryBuffer (queued m n)) ⊆ pool_ids p ∖ {[s]}) as Hsub.
    { intros x Hx. apply held_secondary_senders in Hx.
      apply elem_of_senders in Hx as (y & Hy & <-).
      rewrite Forall_forall in Hq. destruct (Hq y Hy) as [Hr Hne].
      apply elem_of_difference. split; [by apply pool_ids_elem|].
      by rewrite elem_of_singleton. }
    apply subseteq_size in Hsub.
    rewrite size_difference, size_singleton, pool_ids_size in Hsub.
    - assert (p <> 0%nat) by lia. lia.
    - apply singleton_subseteq_l. by apply pool_ids_elem. }
  rewrite receive_all_cons, E, IH.
  - apply queued_log.
  - by rewrite queued_participants.
  - rewrite (cons_middle m), app_assoc in Hall.
    apply Forall_app in Hall as [_ Hms]. apply Forall_app. by split.
Qed.

(** *** The first delivery *)

Lemma receive_all_short (p : nat) ms n :
  participants n = Z.of_nat p ->
  (primaryBuffer n = [] -> secondaryBuffer n = []) ->
  (0 < p)%nat -> (length (held n) + length ms <= p)%nat ->
  log (receive_all ms n) = log n.
Proof.
  intros Hp He Hpos. revert n Hp He.
  induction ms as [|m ms IH]; intros n Hp He Hlen; [done|].
  assert (length (held (queued m n)) = S (length (held n))) as Hl
    by (by rewrite queued_held).
  assert (receive m n = queued m n) as E.
  { apply receive_unsynchronized. rewrite Hp. intros Hsz.
    pose proof (senders_size_le (secondaryBuffer (queued m n))) as Hle.
    pose proof (queued_primary_nonempty m n) as Hne.
    unfold held in Hl, Hlen. rewrite !length_app in Hl.
    rewrite length_app in Hlen.
    destruct (primaryBuffer (queued m n)); [done|].
    simpl in *. lia. }
  rewrite receive_all_cons, E, IH.
  - apply queued_log.
  - by rewrite queued_participants.
  - intros Hn. by destruct (queued_primary_nonempty m n).
  - simpl in Hlen. lia.
Qed.

(** *** Delivery clocks *)

Lemma queued_clock m n : n_t (queued m n) = sync_clock (n_t n) (m_t m).
Proof.
  unfold queued.
  by destruct (queue_clock m (set_t (sync_clock (n_t n) (m_t m)) n))
    as [-> _].
Qed.

Lemma queued_id m n : id (queued m n) = id n.
Proof. unfold queued. by rewrite queue_id. Qed.

Lemma sync_clock_plain v mt :
  Int64.in_range v -> Int64.in_range mt -> Z.max v mt < Int64.max_int ->
  sync_clock v mt = Z.max v mt + 1.
Proof.
  intros Hv Hm Hlt. rewrite sync_clock_wrap. apply Int64Facts.wrap_small.
  unfold Int64.in_range in *. lia.
Qed.

Lemma emitted_elem nid c l e :
  e ∈ emitted nid c l -> d_message e ∈ l /\ d_node e = nid.
Proof.
  intros [k Hk]%list_elem_of_lookup.
  apply emitted_lookup in Hk as (m & Hm & ->). simpl.
  split; [|done]. apply list_elem_of_lookup. eauto.
Qed.

Lemma emitted_clocks nid c l :
  Int64.in_range c -> c + Z.of_nat (length l) <= Int64.max_int ->
  Forall (fun e => c < d_clock e <= c + Z.of_nat (length l)) (emitted nid c l)
  /\ clocks_increase (emitted nid c l).
Proof.
  revert c. induction l as [|m l IH]; intros c Hc Hfit.
  - split; constructor.
  - rewrite emitted_cons. simpl length in *.
    assert (Int64.incr c = c + 1) as E
      by (apply Int64Facts.incr_small; unfold Int64.in_range in *; lia).
    rewrite E. destruct (IH (c + 1)) as [Hall Hs].
    { unfold Int64.in_range in *. lia. }
    { lia. }
    split.
    + constructor; [simpl; lia|].
      eapply Forall_impl; [exact Hall|]. simpl. lia.
    + constructor; [done|].
      eapply Forall_impl; [exact Hall|]. simpl. lia.
Qed.

Lemma clock_inv_newNode B p i : 0 <= B -> clock_inv B 0 (newNode p i).
Proof. intros HB. split; simpl; try constructor; lia. Qed.

Lemma clock_inv_receive B k m n :
  0 <= B -> Int64.min_int <= m_t m <= B ->
  B + 2 * (Z.of_nat k + 1) <= Int64.max_int ->
  clock_inv B k n -> clock_inv B (S k) (receive m n).
Proof.
  intros HB Hm Hfit [Hlow Hhigh Hlen Hheld Hlog Hsorted].
  assert (sync_clock (n_t n) (m_t m) = Z.max (n_t n) (m_t m) + 1) as Ec.
  { apply sync_clock_plain; unfold Int64.in_range, Int64.min_int in *; lia. }
  pose proof (queued_clock m n) as Hc. rewrite Ec in Hc.
  pose proof (queued_log m n) as Hl.
  pose proof (queued_held m n) as Hh.
  assert (Forall (fun x => m_t x < n_t (queued m n)) (held (queued m n)))
    as Hheld'.
  { rewrite Hh, Hc. constructor; [lia|].
    eapply Forall_impl; [exact Hheld|]. simpl. lia. }
  assert (length (held (queued m n)) = S (length (held n))) as Hhl
    by (by rewrite Hh).
  destruct (receive_cases m n) as [[_ ->]|[_ ->]].
  - (* the receive flushes *)
    set (q := queued m n) in *.
    assert (length (primaryBuffer q) + length (secondaryBuffer q)
            = S (length (held n)))%nat as Hsplit
      by (by unfold held in Hhl; rewrite length_app in Hhl).
    assert (Int64.in_range (n_t q)) as Hrq
      by (unfold Int64.in_range, Int64.min_int in *; lia).
    assert (n_t q + Z.of_nat (length (primaryBuffer q)) <= Int64.max_int)
      as Hfq by lia.
    destruct (emitted_clocks (id q) (n_t q) (primaryBuffer q) Hrq Hfq)
      as [Hec Hes].
    apply Forall_app in Hheld' as [Hhp Hhs]. fold q in Hhp, Hhs.
    rewrite flush_spec. split; simpl.
    + rewrite Int64Facts.iter_incr by done. lia.
    + rewrite Int64Facts.iter_incr by done.
      rewrite length_app, emitted_length, Hl. lia.
    + unfold held. simpl.
      rewrite length_app, emitted_length, app_nil_r, Hl. lia.
    + unfold held. simpl. rewrite app_nil_r.
      rewrite Int64Facts.iter_incr by done.
      eapply Forall_impl; [exact Hhs|]. simpl. lia.
    + rewrite Int64Facts.iter_incr by done. rewrite Hl.
      apply Forall_app. split.
      * eapply Forall_impl; [exact Hlog|]. simpl. lia.
      * rewrite Forall_forall. intros e He.
        rewrite Forall_forall in Hec. specialize (Hec e He).
        apply emitted_elem in He as [Hin _].
        rewrite Forall_forall in Hhp. specialize (Hhp _ Hin). simpl in *. lia.
    + rewrite Hl. apply StronglySorted_app. split; [|by split].
      intros a b Ha Hb.
      rewrite Forall_forall in Hlog, Hec.
      specialize (Hlog a Ha). specialize (Hec b Hb). lia.
  - (* it only queues *)
    split.
    + lia.
    + rewrite Hl. lia.
    + rewrite Hl. lia.
    + done.
    + rewrite Hl. eapply Forall_impl; [exact Hlog|]. simpl. lia.
    + by rewrite Hl.
Qed.

Lemma clock_inv_tick B k n :
  B + 2 * (Z.of_nat k + 1) <= Int64.max_int ->
  clock_inv B k n -> clock_inv B (S k) (handle n Tick).
Proof.
  intros Hfit [Hlow Hhigh Hlen Hheld Hlog Hsorted].
  assert (tick (n_t n) = n_t n + 1) as E.
  { apply Int64Facts.incr_small. unfold Int64.min_int. lia. }
  split; unfold held in *; simpl; rewrite ?E.
  - lia.
  - lia.
  - lia.
  - eapply Forall_impl; [exact Hheld|]. simpl. lia.
  - eapply Forall_impl; [exact Hlog|]. simpl. lia.
  - done.
Qed.

Lemma clock_inv_handle_all B es k n :
  0 <= B -> Forall (stamped_within B) es ->
  B + 2 * Z.of_nat (k + length es) <= Int64.max_int ->
  clock_inv B k n -> clock_inv B (k + length es) (handle_all es n).
Proof.
  intros HB Hes. revert k n.
  induction Hes as [|e es He _ IH]; intros k n Hfit Hn.
  - by rewrite Nat.add_0_r.
  - simpl length in *. change (handle_all (e :: es) n)
      with (handle_all es (handle n e)).
    replace (k + S (length es))%nat with (S k + length es)%nat by lia.
    apply IH; [lia|]. destruct e as [|m].
    + apply clock_inv_tick; [lia|done].
    + apply clock_inv_receive; try done. lia.
Qed.

(** *** Agreement *)

Lemma sorted_distinct_unique l1 l2 :
  sorted l1 -> sorted l2 -> l1 ≡ₚ l2 -> NoDup (m_t <$> l1) -> l1 = l2.
Proof.
  intros H1 H2 Hp Hnd.
  apply (StronglySorted_unique_strong ts_le); try done.
  intros x1 x2 Hx1 Hx2 Hle Hge. unfold ts_le in *.
  rewrite <- Hp in Hx2.
  apply list_elem_of_lookup in Hx1 as [i Hi].
  apply list_elem_of_lookup in Hx2 as [j Hj].
  assert (i = j) as ->.
  { apply (NoDup_lookup (m_t <$> l1) i j (m_t x1)); [done| |].
    - by rewrite list_lookup_fmap, Hi.
    - rewrite list_lookup_fmap, Hj. simpl. f_equal. lia. }
  congruence.
Qed.

(** *** The jam matrix *)

Lemma square_newJam k : square k (newJam k).
Proof.
  split; [apply length_replicate|].
  apply Forall_replicate, length_replicate.
Qed.

Lemma jam_entry_square k jam a b :
  square k jam ->
  (exists j, jam_entry jam a b = Ok j) <->
  0 <= a < Z.of_nat k /\ 0 <= b < Z.of_nat k.
Proof.
  intros [Hlen Hrows]. split.
  - intros (j & (row & Hr & Hj)%jam_entry_Ok).
    apply index_Ok_range in Hr as Ha. apply index_Ok_range in Hj as Hb.
    apply index_Ok in Hr as [_ Hr].
    rewrite Forall_forall in Hrows.
    rewrite (Hrows row) in Hb by (apply list_elem_of_lookup; eauto). lia.
  - intros [Ha Hb].
    destruct (index_in_range jam a) as [row Hr]; [lia|].
    apply index_Ok in Hr as Hr'. destruct Hr' as [_ Hr'].
    rewrite Forall_forall in Hrows.
    destruct (index_in_range row b) as [j Hj].
    { rewrite (Hrows row) by (apply list_elem_of_lookup; eauto). lia. }
    exists j. apply jam_entry_Ok. eauto.
Qed.

Lemma setJam_unfold jam a b x jam' :
  setJam jam a b x = Ok jam' <->
  exists row old,
    index jam a = Ok row /\ index row b = Ok old /\
    jam' = <[Z.to_nat a := <[Z.to_nat b := x]> row]> jam.
Proof.
  unfold setJam, obind. split.
  - destruct (index jam a) as [row|] eqn:Hr; [|done].
    destruct (index row b) as [old|] eqn:Ho; [|done].
    intros [= <-]. by exists row, old.
  - intros (row & old & -> & -> & ->). done.
Qed.

Lemma setJam_panic jam a b x why :
  setJam jam a b x = Panic why -> why = IndexOutOfRange.
Proof.
  unfold setJam, obind.
  destruct (index jam a) as [row|w] eqn:Hr.
  - destruct (index row b) as [old|w] eqn:Ho; [done|].
    intros [= <-]. by eapply index_panic.
  - intros [= <-]. by eapply index_panic.
Qed.

Lemma setJam_square k jam a b x jam' :
  square k jam -> setJam jam a b x = Ok jam' -> square k jam'.
Proof.
  intros [Hlen Hrows] (row & old & Hr & _ & ->)%setJam_unfold.
  split; [by rewrite length_insert|].
  apply Forall_insert; [done|]. rewrite length_insert.
  apply index_Ok in Hr as [_ Hr]. rewrite Forall_forall in Hrows.
  apply Hrows, list_elem_of_lookup. eauto.
Qed.

Lemma setJam_in_range k jam a b x :
  square k jam -> 0 <= a < Z.of_nat k -> 0 <= b < Z.of_nat k ->
  exists jam', setJam jam a b x = Ok jam'.
Proof.
  intros Hsq Ha Hb.
  destruct (proj2 (jam_entry_square k jam a b Hsq) (conj Ha Hb)) as [j Hj].
  by eapply setJam_Ok.
Qed.

Lemma setJam_out_of_range k jam a b x :
  square k jam -> ~ (0 <= a < Z.of_nat k /\ 0 <= b < Z.of_nat k) ->
  setJam jam a b x = Panic IndexOutOfRange.
Proof.
  intros Hsq Hout. destruct (setJam jam a b x) as [jam'|why] eqn:E.
  - destruct Hout. apply (jam_entry_square k jam a b Hsq).
    apply setJam_unfold in E as (row & old & Hr & Ho & _).
    exists old. apply jam_entry_Ok. eauto.
  - by rewrite (setJam_panic _ _ _ _ _ E).
Qed.

Lemma jam_commands_square k cmds jam jam' :
  square k jam -> jam_commands cmds jam = Ok jam' -> square k jam'.
Proof.
  revert jam. induction cmds as [|[[a b] x] cmds IH]; intros jam Hsq; simpl.
  - by intros [= <-].
  - destruct (setJam jam a b x) as [j1|] eqn:E; [|done]. simpl.
    apply IH. by eapply setJam_square.
Qed.

Lemma jam_commands_in_range k cmds jam :
  square k jam ->
  Forall (fun c => 0 <= c.1.1 < Z.of_nat k /\ 0 <= c.1.2 < Z.of_nat k) cmds ->
  exists jam', jam_commands cmds jam = Ok jam'.
Proof.
  intros Hsq Hc. revert jam Hsq.
  induction Hc as [|[[a b] x] cmds [Ha Hb] _ IH]; intros jam Hsq; simpl.
  - by eexists.
  - destruct (setJam_in_range k jam a b x Hsq Ha Hb) as [j1 E].
    rewrite E. simpl. apply IH. by eapply setJam_square.
Qed.

Lemma setJam_overwrite jam a b x y j1 :
  setJam jam a b x = Ok j1 -> setJam j1 a b y = setJam jam a b y.
Proof.
  intros (row & old & Hr & Ho & ->)%setJam_unfold.
  unfold setJam, obind.
  rewrite (index_insert_eq jam a row _ Hr), Hr.
  rewrite (index_insert_eq row b old _ Ho), Ho.
  by rewrite list_insert_insert_eq, list_insert_insert_eq.
Qed.

Lemma setJam_commute jam a b x c d y j1 j2 :
  a <> c \/ b <> d ->
  setJam jam a b x = Ok j1 -> setJam j1 c d y = Ok j2 ->
  exists j1', setJam jam c d y = Ok j1' /\ setJam j1' a b x = Ok j2.
Proof.
  intros Hne (ra & oa & Hra & Hoa & ->)%setJam_unfold
    (rc & oc & Hrc & Hoc & ->)%setJam_unfold.
  apply index_Ok in Hra as Hra'. destruct Hra' as [Ha _].
  apply index_Ok in Hoa as Hoa'. destruct Hoa' as [Hb _].
  destruct (decide (a = c)) as [<-|Hac].
  - destruct Hne as [?|Hbd]; [done|].
    rewrite (index_insert_eq jam a ra _ Hra) in Hrc. injection Hrc as <-.
    rewrite index_insert_ne in Hoc by done.
    apply index_Ok in Hoc as Hoc'. destruct Hoc' as [Hd _].
    exists (<[Z.to_nat a := <[Z.to_nat d := y]> ra]> jam). split.
    + apply setJam_unfold. by exists ra, oc.
    + apply setJam_unfold. exists (<[Z.to_nat d := y]> ra), oa.
      split; [by eapply index_insert_eq|].
      split; [by rewrite index_insert_ne|].
      rewrite !list_insert_insert_eq. f_equal.
      apply list_insert_insert_ne. lia.
  - rewrite index_insert_ne in Hrc by done.
    apply index_Ok in Hrc as Hrc'. destruct Hrc' as [Hc _].
    exists (<[Z.to_nat c := <[Z.to_nat d := y]> rc]> jam). split.
    + apply setJam_unfold. by exists rc, oc.
    + apply setJam_unfold. exists ra, oa.
      split; [by rewrite index_insert_ne|]. split; [done|].
      apply list_insert_insert_ne. lia.
Qed.

End DeliveryFacts.

(** ** The total-order broadcast node: whole runs *)

Module DeliveryProps.
Import TotalOrder TotalOrderSpec TotalOrderFacts DeliverySpec DeliveryFacts.

(** X1.  [receive] neither loses nor duplicates a message: after any
    messages received one after the other, the log has only grown at its
    end, and the messages logged as delivered together with those held in
    the two buffers are the ones logged and held before plus the ones
    received, each as often.  On a fresh node they are exactly the messages
    received, so the three lengths the [state] command and the log show add
    up to their number. *)
Theorem receive_conserves_messages :
  (forall ms n,
     (exists new, log (receive_all ms n) = log n ++ new) /\
     delivered_messages (receive_all ms n) ++ held (receive_all ms n)
       ≡ₚ delivered_messages n ++ held n ++ ms) /\
  (forall ms p i,
     delivered_messages (receive_all ms (newNode p i))
       ++ held (receive_all ms (newNode p i)) ≡ₚ ms /\
     (length (log (receive_all ms (newNode p i)))
      + length (primaryBuffer (receive_all ms (newNode p i)))
      + length (secondaryBuffer (receive_all ms (newNode p i))))%nat
     = length ms).
Proof.
  split.
  - intros ms n. split; [apply receive_all_log|apply receive_all_conserves].
  - intros ms p i.
    pose proof (receive_all_conserves ms (newNode p i)) as H.
    simpl in H. split; [exact H|].
    apply Permutation_length in H.
    unfold delivered_messages, held in H.
    rewrite !length_app, length_fmap in H. lia.
Qed.

(** X2.  The last wave is never delivered: on a node of a pool that counts
    at least one participant, once a message has been received the primary
    buffer is never empty again, so there are always fewer deliveries in
    the log than messages received. *)
Theorem last_wave_pending (p i : Z) (ms : list message) :
  p <> 0 -> ms <> [] ->
  primaryBuffer (receive_all ms (newNode p i)) <> [] /\
  (length (log (receive_all ms (newNode p i))) < length ms)%nat.
Proof.
  intros Hp Hne.
  assert (primaryBuffer (receive_all ms (newNode p i)) <> []) as Hpend
    by (by apply receive_all_pending).
  split; [exact Hpend|].
  pose proof (receive_all_conserves ms (newNode p i)) as H.
  apply Permutation_length in H. simpl in H.
  unfold delivered_messages, held in H.
  rewrite !length_app, length_fmap in H.
  destruct (primaryBuffer (receive_all ms (newNode p i))); [done|].
  simpl in H. lia.
Qed.

Lemma last_wave_pending_witness :
  3 <> 0 /\ [msgA; msgB; msgC; msgD] <> [] /\
  primaryBuffer (receive_all [msgA; msgB; msgC; msgD] (newNode 3 1)) <> [].
Proof.
  assert (3 <> 0) as Hp by discriminate.
  assert ([msgA; msgB; msgC; msgD] <> []) as Hne by discriminate.
  split; [exact Hp|]. split; [exact Hne|].
  exact (proj1 (last_wave_pending 3 1 _ Hp Hne)).
Defined.

(** X3.  A silent participant stalls every delivery: on a fresh node of a
    pool of [p], as long as the messages received come from nodes of the
    pool and one node [s] of the pool is not among their senders, nothing
    is delivered, however many messages arrive. *)
Theorem silent_sender_starves (p : nat) (i s : Z) (ms : list message) :
  0 <= s < Z.of_nat p ->
  Forall (fun m => 0 <= m_sender m < Z.of_nat p /\ m_sender m <> s) ms ->
  log (receive_all ms (newNode (Z.of_nat p) i)) = [].
Proof.
  intros Hs Hms.
  exact (receive_all_starved p s ms (newNode (Z.of_nat p) i) eq_refl Hs Hms).
Qed.

Lemma silent_sender_starves_witness :
  0 <= 2 < Z.of_nat 3 /\
  Forall (fun m => 0 <= m_sender m < Z.of_nat 3 /\ m_sender m <> 2)
    [msgA; msgB; msgD; msgA; msgB] /\
  log (receive_all [msgA; msgB; msgD; msgA; msgB] (newNode (Z.of_nat 3) 1))
  = [].
Proof.
  assert (0 <= 2 < Z.of_nat 3) as Hs by (simpl; lia).
  assert (Forall (fun m => 0 <= m_sender m < Z.of_nat 3 /\ m_sender m <> 2)
            [msgA; msgB; msgD; msgA; msgB]) as Hms
    by (repeat constructor; simpl; lia).
  split; [exact Hs|]. split; [exact Hms|].
  exact (silent_sender_starves 3 1 2 _ Hs Hms).
Defined.

(** X4.  Nothing is delivered before more messages have arrived than the
    pool has participants: on a fresh node of a pool of [p >= 1], the log
    is still empty after any [p] messages or fewer. *)
Theorem no_delivery_within_pool_size (p : nat) (i : Z) (ms : list message) :
  (0 < p)%nat -> (length ms <= p)%nat ->
  log (receive_all ms (newNode (Z.of_nat p) i)) = [].
Proof.
  intros Hp Hlen.
  exact (receive_all_short p ms (newNode (Z.of_nat p) i)
           eq_refl (fun _ => eq_refl) Hp Hlen).
Qed.

Lemma no_delivery_within_pool_size_witness :
  (0 < 2)%nat /\ (length [msgB; msgC] <= 2)%nat /\
  log (receive_all [msgB; msgC] (newNode (Z.of_nat 2) 1)) = [].
Proof.
  assert (0 < 2)%nat as Hp by lia.
  assert (length [msgB; msgC] <= 2)%nat as Hl by (simpl; lia).
  split; [exact Hp|]. split; [exact Hl|].
  exact (no_delivery_within_pool_size 2 1 _ Hp Hl).
Defined.

(** X5.  Deliveries are stamped after their messages: a fresh node takes
    ticks of its counter between the messages it receives, in any order;
    as long as the timestamps
    received stay below a bound that leaves room for two increments per
    event under the largest [int64], every delivery is logged with a clock
    strictly greater than the timestamp of the message delivered, the
    clocks in the log strictly increase, and the clock of the node is
    ahead of every logged clock and of the timestamp of every message it
    still holds. *)
Theorem delivery_clocks_ordered (B : Z) (es : list event) (p i : Z) :
  0 <= B -> Forall (stamped_within B) es ->
  B + 2 * Z.of_nat (length es) <= Int64.max_int ->
  Forall (fun d => m_t (d_message d) < d_clock d
                   /\ d_clock d <= n_t (handle_all es (newNode p i)))
    (log (handle_all es (newNode p i))) /\
  clocks_increase (log (handle_all es (newNode p i))) /\
  Forall (fun m => m_t m < n_t (handle_all es (newNode p i)))
    (held (handle_all es (newNode p i))) /\
  0 <= n_t (handle_all es (newNode p i)) <= B + 2 * Z.of_nat (length es).
Proof.
  intros HB Hes Hfit.
  destruct (clock_inv_handle_all B es 0 (newNode p i) HB Hes)
    as [Hlow Hhigh Hlen Hheld Hlog Hsorted].
  { simpl. lia. }
  { by apply clock_inv_newNode. }
  simpl in *. repeat split; try done. lia.
Qed.

Lemma delivery_clocks_ordered_witness :
  0 <= 6 /\
  Forall (stamped_within 6)
    [Receive msgA; Tick; Receive msgB; Receive msgC] /\
  6 + 2 * Z.of_nat (length [Receive msgA; Tick; Receive msgB; Receive msgC])
    <= Int64.max_int /\
  clocks_increase
    (log (handle_all [Receive msgA; Tick; Receive msgB; Receive msgC]
            (newNode 2 1))).
Proof.
  assert (0 <= 6) as HB by lia.
  assert (Forall (stamped_within 6)
            [Receive msgA; Tick; Receive msgB; Receive msgC]) as Hes
    by (repeat constructor; vm_compute; discriminate).
  assert (6 + 2 * Z.of_nat
                    (length [Receive msgA; Tick; Receive msgB; Receive msgC])
          <= Int64.max_int) as Hfit by (vm_compute; discriminate).
  split; [exact HB|]. split; [exact Hes|]. split; [exact Hfit|].
  exact (proj1 (proj2 (delivery_clocks_ordered 6 _ 2 1 HB Hes Hfit))).
Defined.

(** X6.  Nodes agree on the order of a wave of distinct timestamps: two
    nodes, each reached from a fresh node by any [queue] and [flush] calls,
    whose primary buffers hold the same messages with pairwise different
    timestamps, deliver them in the same order when they flush, whatever
    order the messages reached each node in. *)
Theorem flush_order_agrees (ops1 ops2 : list op) (p1 i1 p2 i2 : Z) :
  primaryBuffer (run_ops ops1 (newNode p1 i1))
    ≡ₚ primaryBuffer (run_ops ops2 (newNode p2 i2)) ->
  NoDup (m_t <$> primaryBuffer (run_ops ops1 (newNode p1 i1))) ->
  exists wave,
    delivered_messages (flush (run_ops ops1 (newNode p1 i1)))
    = delivered_messages (run_ops ops1 (newNode p1 i1)) ++ wave /\
    delivered_messages (flush (run_ops ops2 (newNode p2 i2)))
    = delivered_messages (run_ops ops2 (newNode p2 i2)) ++ wave.
Proof.
  intros Hp Hnd.
  destruct (buffer_inv_run_ops ops1 _ (buffer_inv_newNode p1 i1))
    as [Hs1 _ _ _ _ _].
  destruct (buffer_inv_run_ops ops2 _ (buffer_inv_newNode p2 i2))
    as [Hs2 _ _ _ _ _].
  exists (primaryBuffer (run_ops ops1 (newNode p1 i1))).
  split; [apply flush_delivered|].
  rewrite flush_delivered. f_equal. symmetry.
  by apply sorted_distinct_unique.
Qed.

Lemma flush_order_agrees_witness :
  primaryBuffer (run_ops [Insert msgD; Insert msgA; Insert msgC] (newNode 3 0))
    ≡ₚ primaryBuffer
         (run_ops [Insert msgD; Insert msgC; Insert msgA] (newNode 3 1)) /\
  NoDup (m_t <$> primaryBuffer
           (run_ops [Insert msgD; Insert msgA; Insert msgC] (newNode 3 0))) /\
  exists wave,
    delivered_messages
      (flush (run_ops [Insert msgD; Insert msgA; Insert msgC] (newNode 3 0)))
    = delivered_messages
        (run_ops [Insert msgD; Insert msgA; Insert msgC] (newNode 3 0))
      ++ wave /\
    delivered_messages
      (flush (run_ops [Insert msgD; Insert msgC; Insert msgA] (newNode 3 1)))
    = delivered_messages
        (run_ops [Insert msgD; Insert msgC; Insert msgA] (newNode 3 1))
      ++ wave.
Proof.
  assert (primaryBuffer
            (run_ops [Insert msgD; Insert msgA; Insert msgC] (newNode 3 0))
          ≡ₚ primaryBuffer
               (run_ops [Insert msgD; Insert msgC; Insert msgA] (newNode 3 1)))
    as Hp by (vm_compute; reflexivity).
  assert (NoDup (m_t <$> primaryBuffer
            (run_ops [Insert msgD; Insert msgA; Insert msgC] (newNode 3 0))))
    as Hnd by (vm_compute; repeat constructor; set_solver).
  split; [exact Hp|]. split; [exact Hnd|].
  exact (flush_order_agrees _ _ 3 0 3 1 Hp Hnd).
Defined.

End DeliveryProps.

(** ** The jam matrix and the legs of a broadcast *)

Module JamProps.
Import TotalOrder TotalOrderSpec TotalOrderFacts DeliverySpec DeliveryFacts.

(** X7.  The [jam] command panics exactly on a source or a target outside
    the pool: on the matrix of [main], [k] rows of [k] entries, a write at
    ([a], [b]) succeeds when both lie in [[0, k)] and is an index-out-of-range
    panic otherwise.  Every write that succeeds leaves the matrix [k] by
    [k], so after any commands every entry a broadcast between two nodes of
    the pool reads is there. *)
Theorem jam_command_bounds (k : nat) :
  square k (newJam k) /\
  (forall jam a b x, square k jam ->
     (0 <= a < Z.of_nat k /\ 0 <= b < Z.of_nat k ->
        exists jam', setJam jam a b x = Ok jam' /\ square k jam') /\
     (~ (0 <= a < Z.of_nat k /\ 0 <= b < Z.of_nat k) ->
        setJam jam a b x = Panic IndexOutOfRange)) /\
  (forall cmds,
     Forall (fun c => 0 <= c.1.1 < Z.of_nat k /\ 0 <= c.1.2 < Z.of_nat k)
       cmds ->
     exists jam', jam_commands cmds (newJam k) = Ok jam') /\
  (forall cmds jam',
     jam_commands cmds (newJam k) = Ok jam' ->
     square k jam' /\
     forall a b, 0 <= a < Z.of_nat k -> 0 <= b < Z.of_nat k ->
       exists j, jam_entry jam' a b = Ok j).
Proof.
  split; [apply square_newJam|]. split; [|split].
  - intros jam a b x Hsq. split.
    + intros [Ha Hb].
      destruct (setJam_in_range k jam a b x Hsq Ha Hb) as [jam' E].
      exists jam'. split; [done|]. by eapply setJam_square.
    + by apply setJam_out_of_range.
  - intros cmds Hc. apply (jam_commands_in_range k); [|done].
    apply square_newJam.
  - intros cmds jam' E.
    assert (square k jam') as Hsq
      by (eapply jam_commands_square; [apply square_newJam|exact E]).
    split; [done|]. intros a b Ha Hb.
    by apply (jam_entry_square k jam' a b Hsq).
Qed.

Lemma jam_command_bounds_witness :
  square 3 (newJam 3) /\
  ~ (0 <= 3 < Z.of_nat 3 /\ 0 <= 1 < Z.of_nat 3) /\
  setJam (newJam 3) 3 1 300 = Panic IndexOutOfRange /\
  (exists jam', setJam (newJam 3) 0 1 300 = Ok jam' /\ square 3 jam').
Proof.
  destruct (jam_command_bounds 3) as (Hsq & Hset & _).
  assert (~ (0 <= 3 < Z.of_nat 3 /\ 0 <= 1 < Z.of_nat 3)) as Hout
    by (simpl; lia).
  assert (0 <= 0 < Z.of_nat 3 /\ 0 <= 1 < Z.of_nat 3) as Hin
    by (simpl; lia).
  split; [exact Hsq|]. split; [exact Hout|].
  split; [exact (proj2 (Hset _ 3 1 300 Hsq) Hout)|].
  exact (proj1 (Hset _ 0 1 300 Hsq) Hin).
Defined.

(** X8.  Writes to the jam matrix compose as writes to a table: a second
    write to the same entry makes the first one void, and two writes to
    different entries give the same matrix in either order. *)
Theorem jam_writes_compose :
  (forall jam a b x y j1,
     setJam jam a b x = Ok j1 -> setJam j1 a b y = setJam jam a b y) /\
  (forall jam a b x c d y j1 j2,
     a <> c \/ b <> d ->
     setJam jam a b x = Ok j1 -> setJam j1 c d y = Ok j2 ->
     exists j1', setJam jam c d y = Ok j1' /\ setJam j1' a b x = Ok j2).
Proof. split; [apply setJam_overwrite|apply setJam_commute]. Qed.

Lemma jam_writes_compose_witness :
  setJam (newJam 3) 0 1 300 = Ok jam_0_1_300 /\
  setJam jam_0_1_300 0 1 50 = setJam (newJam 3) 0 1 50.
Proof.
  assert (setJam (newJam 3) 0 1 300 = Ok jam_0_1_300) as E by reflexivity.
  split; [exact E|].
  exact (proj1 jam_writes_compose (newJam 3) 0 1 300 50 _ E).
Defined.

(** X9.  A broadcast has one leg per node of the pool, the sender's own
    node included, and with a square jam matrix, a sender of the pool and
    bounds [lmin < lmax] whose difference fits an [int64] no leg panics:
    leg [i] works out the jam entry of (sender, [i]) plus a draw from
    [[lmin, lmax)] as its latency, which lies between entry plus [lmin]
    and entry plus [lmax] when these two sums fit an [int64], sleeps, and
    hands [m] to node [i].  The sleep holds it back between entry plus
    [lmin] and entry plus [lmax] milliseconds when the first is positive
    and the latency fits as nanoseconds, and not at all when entry plus
    [lmax] is at most 1. *)
Theorem broadcast_reaches_every_node (k : nat) jam m lmin lmax r :
  square k jam -> 0 <= m_sender m < Z.of_nat k ->
  Int64.in_range lmin -> Int64.in_range lmax -> lmin < lmax ->
  lmax - lmin <= Int64.max_int ->
  length (handovers jam k m lmin lmax r) = k /\
  forall i : nat, (i < k)%nat ->
    exists j lat,
      jam_entry jam (m_sender m) (Z.of_nat i) = Ok j /\
      broadcaster jam k m lmin lmax r !! i = Some (Ok lat) /\
      lat = Int64.add j (lmin + r i mod (lmax - lmin)) /\
      handovers jam k m lmin lmax r !! i
      = Some (Ok (Handover (Sleep (duration lat)) (Z.of_nat i) m)) /\
      (Int64.in_range (j + lmin) -> Int64.in_range (j + lmax) ->
       j + lmin <= lat < j + lmax) /\
      (0 < j + lmin -> (j + lmax - 1) * Millisecond <= Int64.max_int ->
       (j + lmin) * Millisecond <= Sleep (duration lat)
       < (j + lmax) * Millisecond) /\
      (j + lmax <= 1 -> Int64.min_int <= (j + lmin) * Millisecond ->
       Sleep (duration lat) = 0).
Proof.
  intros Hsq Hs Hlo Hhi Hlt Hfit.
  split; [apply handovers_length|].
  intros i Hi.
  destruct (proj2 (jam_entry_square k jam (m_sender m) (Z.of_nat i) Hsq))
    as [j Hj]; [lia|].
  pose proof (Z.mod_pos_bound (r i) (lmax - lmin) ltac:(lia)) as Hd.
  pose proof (leg_latency_fits jam m (Z.of_nat i) lmin lmax (r i) j
                Hlo Hhi Hlt Hfit Hj) as Hleg.
  exists j, (Int64.add j (lmin + r i mod (lmax - lmin))).
  split; [done|]. split; [by rewrite broadcaster_lookup, Hleg|].
  split; [done|]. split; [by rewrite handovers_lookup, Hleg|].
  split; [|split].
  - intros Hjl Hjh. apply add_between; [lia|done..].
  - intros Hpos Hns. unfold Int64.add.
    rewrite Int64Facts.wrap_small.
    + rewrite Sleep_duration_exact; unfold Millisecond in *; lia.
    + unfold Int64.in_range, Int64.min_int, Millisecond in *. lia.
  - intros Hneg Hns. unfold Int64.add.
    rewrite Int64Facts.wrap_small.
    + apply Sleep_duration_none. unfold Millisecond in *. lia.
    + unfold Int64.in_range, Int64.max_int, Int64.min_int, Millisecond in *.
      lia.
Qed.

Lemma broadcast_reaches_every_node_witness :
  square 3 jam_0_1_300 /\ 0 <= m_sender msgA < Z.of_nat 3 /\
  Int64.in_range 10 /\ Int64.in_range 20 /\ 10 < 20 /\
  20 - 10 <= Int64.max_int /\
  length (handovers jam_0_1_300 3 msgA 10 20 (fun i => Z.of_nat i + 7))
  = 3%nat.
Proof.
  assert (square 3 jam_0_1_300) as Hsq
    by (split; [reflexivity|repeat constructor]).
  assert (0 <= m_sender msgA < Z.of_nat 3) as Hs by (simpl; lia).
  assert (Int64.in_range 10) as Hlo by (split; discriminate).
  assert (Int64.in_range 20) as Hhi by (split; discriminate).
  assert (10 < 20) as Hlt by reflexivity.
  assert (20 - 10 <= Int64.max_int) as Hfit by discriminate.
  repeat (split; [assumption|]).
  exact (proj1 (broadcast_reaches_every_node 3 jam_0_1_300 msgA 10 20
                  (fun i => Z.of_nat i + 7) Hsq Hs Hlo Hhi Hlt Hfit)).
Defined.

End JamProps.

(** ** The causal-delivery node: facts on whole runs *)

Module CausalRunFacts.
Import Causal CausalSpec CausalFacts CausalRunSpec.

(** *** Panics *)

Lemma scan_panic dl buf why : scan dl buf = Panic why -> why = IndexOutOfRange.
Proof.
  induction buf as [|x buf IH]; simpl; [done|]. unfold obind.
  destruct (index dl (m_sender x)) as [d|w] eqn:Hd.
  - destruct (m_sequence x =? d); [done|].
    destruct (scan dl buf) as [r|w]; simpl; [done|].
    intros [= <-]. by apply IH.
  - intros [= <-]. by eapply index_panic.
Qed.

Lemma deliver_loop_panic fuel n why :
  deliver_loop fuel n = Panic why -> why = IndexOutOfRange.
Proof.
  revert n. induction fuel as [|fuel IH]; intros n; [done|].
  destruct (deliver_loop_cases fuel n)
    as [(w & Hs & ->)|[(_ & ->)|(e & rest & _ & ->)]].
  - intros [= <-]. by eapply scan_panic.
  - done.
  - apply IH.
Qed.

Lemma receive_panic m n why : receive m n = Panic why -> why = IndexOutOfRange.
Proof. apply deliver_loop_panic. Qed.

Lemma receive_all_panic ms n why :
  receive_all ms n = Panic why -> why = IndexOutOfRange.
Proof.
  revert n. induction ms as [|m ms IH]; intros n; simpl; [done|].
  destruct (receive m n) as [n1|w] eqn:E; simpl.
  - apply IH.
  - intros [= <-]. by eapply receive_panic.
Qed.

(** *** Runs *)

Lemma settled_newNode p i : settled p [] (newNode p i).
Proof. split; [apply run_inv_newNode|]. split; [constructor|done]. Qed.

Lemma settled_receive p arrived m n n' :
  settled p arrived n -> receive m n = Ok n' ->
  settled p (arrived ++ [m]) n'.
Proof.
  intros (Hinv & _ & Hp) Hr. split; [by eapply run_inv_receive|].
  destruct (receive_replay _ _ _ Hr) as (ds & Hlog & _ & Hb & _ & Hblk).
  split; [done|].
  rewrite Hlog, (Permutation_app_comm (log n)), app_assoc, Hb.
  rewrite <- Hp, <- !app_assoc.
  by rewrite (Permutation_app_comm [m]).
Qed.

Lemma settled_receive_all p arrived ms n n' :
  settled p arrived n -> receive_all ms n = Ok n' ->
  settled p (arrived ++ ms) n'.
Proof.
  revert arrived n. induction ms as [|m ms IH]; intros arrived n Hn; simpl.
  - intros [= <-]. by rewrite app_nil_r.
  - destruct (receive m n) as [n1|] eqn:Hr; [|done]. simpl. intros Hall.
    rewrite (cons_middle m), app_assoc. eapply IH; [|exact Hall].
    by eapply settled_receive.
Qed.

Lemma receive_all_from_pool p ms n n' :
  run_inv p n -> receive_all ms n = Ok n' -> from_pool p ms.
Proof.
  revert n. induction ms as [|m ms IH]; intros n Hn; simpl; [constructor|].
  destruct (receive m n) as [n1|] eqn:Hr; [|done]. simpl. intros Hall.
  constructor.
  - apply receive_known in Hr. destruct Hn as (Hlen & _).
    unfold senders_known in Hr. rewrite Hlen in Hr.
    apply Forall_app in Hr as [_ Hm]. by inversion Hm.
  - eapply IH; [|exact Hall]. by eapply run_inv_receive.
Qed.

Lemma receive_all_returns p i ms :
  (exists n, receive_all ms (newNode p i) = Ok n) <-> from_pool p ms.
Proof.
  split.
  - intros [n Hr]. eapply receive_all_from_pool; [|exact Hr].
    apply run_inv_newNode.
  - intros Hms. eapply receive_all_total; [|exact Hms].
    apply run_inv_newNode.
Qed.

(** *** Sequence numbers *)

Lemma elem_of_numbers z k :
  z ∈ numbers k <-> exists j : nat, z = Z.of_nat j /\ (j < k)%nat.
Proof.
  unfold numbers. rewrite list_elem_of_fmap. split.
  - intros (j & -> & Hj%elem_of_seq). exists j. split; [done|lia].
  - intros (j & -> & Hj). exists j. split; [done|]. apply elem_of_seq. lia.
Qed.

Lemma NoDup_numbers k : NoDup (numbers k).
Proof.
  unfold numbers. apply NoDup_fmap_2; [|apply NoDup_seq].
  intros a b. lia.
Qed.

Lemma counting_numbers k :
  Z.of_nat k <= Int64.max_int -> counting k = numbers k.
Proof. apply counting_small. Qed.

Lemma from_app s l1 l2 : from s (l1 ++ l2) = from s l1 ++ from s l2.
Proof. apply filter_app. Qed.

Lemma from_perm s l1 l2 : l1 ≡ₚ l2 -> from s l1 ≡ₚ from s l2.
Proof. intros H. unfold from. by rewrite H. Qed.

Lemma elem_of_from s l x : x ∈ from s l <-> x ∈ l /\ m_sender x = s.
Proof. unfold from. rewrite list_elem_of_filter. tauto. Qed.

Lemma from_length_le s l : (length (from s l) <= length l)%nat.
Proof. apply length_filter. Qed.

(** What the log of a settled node shows of sender [s], with the counter
    read as a plain number. *)
Lemma settled_log_numbers p ms n s :
  settled p ms n -> Z.of_nat (length ms) <= Int64.max_int ->
  0 <= s < Z.of_nat p ->
  index (delivered n) s = Ok (Z.of_nat (length (from s (log n)))) /\
  sequences_from s (log n) = numbers (length (from s (log n))).
Proof.
  intros ((Hlen & _ & Hc) & _ & Hp) Hfit Hs.
  destruct (index_in_range (delivered n) s) as [d Hd]; [by rewrite Hlen|].
  destruct (Hc s d Hd) as [E1 E2].
  assert (Z.of_nat (length (from s (log n))) <= Int64.max_int) as Hk.
  { pose proof (from_length_le s (log n)).
    apply Permutation_length in Hp. rewrite length_app in Hp. lia. }
  rewrite counter_small in E1 by done.
  rewrite counting_numbers in E2 by done.
  by rewrite Hd, E1.
Qed.

(** A settled node holds no message numbered with the count of deliveries
    from its sender. *)
Lemma settled_next_missing p ms n s x :
  settled p ms n -> Z.of_nat (length ms) <= Int64.max_int ->
  0 <= s < Z.of_nat p ->
  x ∈ buffer n -> m_sender x = s ->
  m_sequence x <> Z.of_nat (length (from s (log n))).
Proof.
  intros Hn Hfit Hs Hx Ex.
  destruct (settled_log_numbers p ms n s Hn Hfit Hs) as [Hd _].
  destruct Hn as (_ & Hblk & _).
  unfold all_blocked in Hblk. rewrite Forall_forall in Hblk.
  destruct (Hblk x Hx) as (d & Hd' & Hne). rewrite Ex, Hd in Hd'.
  by injection Hd' as <-.
Qed.

Lemma settled_complete p ms n :
  settled p ms n -> Z.of_nat (length ms) <= Int64.max_int ->
  from_pool p ms ->
  (forall s, sequences_from s ms ≡ₚ numbers (length (from s ms))) ->
  buffer n = [].
Proof.
  intros Hn Hfit Hpool Hnum.
  destruct (buffer n) as [|x b] eqn:Eb; [done|]. exfalso.
  assert (x ∈ buffer n) as Hx by (rewrite Eb; left).
  pose proof Hn as (_ & _ & Hp).
  assert (0 <= m_sender x < Z.of_nat p) as Hs.
  { unfold from_pool in Hpool. rewrite Forall_forall in Hpool.
    apply Hpool. rewrite <- Hp. apply elem_of_app. by left. }
  set (s := m_sender x) in *.
  destruct (settled_log_numbers p ms n s Hn Hfit Hs) as [_ Hseq].
  set (k' := length (from s (log n))) in *.
  assert (from s (buffer n) ++ from s (log n) ≡ₚ from s ms) as Hfp
    by (by rewrite <- from_app, (from_perm s _ _ Hp)).
  assert (x ∈ from s (buffer n)) as Hxs by (by apply elem_of_from).
  assert (Z.of_nat k' ∈ numbers (length (from s ms))) as Hin.
  { apply elem_of_numbers. exists k'. split; [done|].
    apply Permutation_length in Hfp. rewrite length_app in Hfp.
    destruct (from s (buffer n)); [by apply elem_of_nil in Hxs|].
    simpl in Hfp. fold k' in Hfp. lia. }
  rewrite <- (Hnum s) in Hin. unfold sequences_from in Hin.
  rewrite <- Hfp, fmap_app in Hin.
  apply elem_of_app in Hin as [Hin|Hin].
  - apply list_elem_of_fmap in Hin as (y & Ey & Hy).
    apply elem_of_from in Hy as [Hy Esy].
    by apply (settled_next_missing p ms n s y Hn Hfit Hs Hy Esy).
  - fold (sequences_from s (log n)) in Hin. rewrite Hseq in Hin.
    apply elem_of_numbers in Hin as (j & Ej & Hj). lia.
Qed.

(** *** [send] *)

Lemma send_all_spec datas n :
  (send_all datas n).2
  = imap (fun j data =>
            Message (id n) (Nat.iter j Int64.incr (sendSeq n)) data) datas
  /\ sendSeq (send_all datas n).1
     = Nat.iter (length datas) Int64.incr (sendSeq n)
  /\ id (send_all datas n).1 = id n.
Proof.
  revert n. induction datas as [|data datas IH]; intros n; [done|].
  simpl. destruct (send_all datas _) as [n2 ms] eqn:E.
  specialize (IH (Node (id n) (Int64.incr (sendSeq n)) (delivered n)
                       (buffer n) (log n))).
  rewrite E in IH. simpl in *. destruct IH as (Hms & Hseq & Hid).
  rewrite Hms, Hseq, Hid.
  split; [|split; [|done]].
  - f_equal. apply imap_ext. intros j x _. simpl. f_equal.
    symmetry. apply (Nat.iter_succ_r j _ Int64.incr (sendSeq n)).
  - symmetry. apply (Nat.iter_succ_r (length datas) _ Int64.incr (sendSeq n)).
Qed.

Lemma sent_spec p s datas :
  sent p s datas = imap (fun j data => Message s (counter j) data) datas.
Proof.
  unfold sent. by destruct (send_all_spec datas (newNode p s)) as [-> _].
Qed.

Lemma sent_length p s datas : length (sent p s datas) = length datas.
Proof. by rewrite sent_spec, length_imap. Qed.

Lemma sent_sequences p s datas :
  m_sequence <$> sent p s datas = counting (length datas).
Proof.
  rewrite sent_spec, fmap_imap. unfold counting.
  apply list_eq. intros j.
  rewrite list_lookup_imap, list_lookup_fmap.
  destruct (datas !! j) as [x|] eqn:E; simpl.
  - rewrite lookup_seq_lt; [done|]. by eapply lookup_lt_Some.
  - rewrite lookup_seq_ge; [done|]. by apply lookup_ge_None.
Qed.

Lemma sent_sender p s datas x : x ∈ sent p s datas -> m_sender x = s.
Proof.
  rewrite sent_spec. intros [j Hj]%list_elem_of_lookup.
  rewrite list_lookup_imap in Hj.
  destruct (datas !! j); simpl in Hj; [|done]. by injection Hj as <-.
Qed.

Lemma from_all s l : Forall (fun x => m_sender x = s) l -> from s l = l.
Proof.
  unfold from. induction 1 as [|x l Hx _ IH]; [done|].
  rewrite filter_cons_True by done. by rewrite IH.
Qed.

Lemma from_sent p s datas : from s (sent p s datas) = sent p s datas.
Proof.
  apply from_all, Forall_forall. intros x Hx. by eapply sent_sender.
Qed.

(** Two arrangements of the same elements that show the same keys, all
    different, in the same places are one arrangement. *)
Lemma perm_keys_eq {A B} (f : A -> B) (l1 l2 : list A) :
  l1 ≡ₚ l2 -> f <$> l1 = f <$> l2 -> NoDup (f <$> l1) -> l1 = l2.
Proof.
  intros Hp Hk Hnd. apply list_eq. intros i.
  destruct (l1 !! i) as [x|] eqn:E1.
  - assert (x ∈ l2) as [j Hj]%list_elem_of_lookup.
    { rewrite <- Hp. apply list_elem_of_lookup. eauto. }
    assert (i = j) as ->; [|done].
    apply (NoDup_lookup (f <$> l1) i j (f x)); [done| |].
    + by rewrite list_lookup_fmap, E1.
    + by rewrite Hk, list_lookup_fmap, Hj.
  - symmetry. apply lookup_ge_None. apply lookup_ge_None in E1.
    apply Permutation_length in Hp. lia.
Qed.

(** *** The legs of a broadcast *)

Lemma causal_leg_fits lmin lmax r :
  Int64.in_range lmin -> Int64.in_range lmax -> lmin < lmax ->
  lmax - lmin <= Int64.max_int ->
  leg_latency lmin lmax r = Ok (lmin + r mod (lmax - lmin)) /\
  lmin <= lmin + r mod (lmax - lmin) < lmax.
Proof.
  intros Hlo Hhi Hlt Hfit.
  assert (Int64.sub lmax lmin = lmax - lmin) as E.
  { apply Int64Facts.wrap_small.
    unfold Int64.in_range, Int64.min_int, Int64.max_int in *. lia. }
  pose proof (Z.mod_pos_bound r (lmax - lmin)) as Hd.
  split; [|lia].
  unfold leg_latency, TotalOrder.rand_Int. rewrite E.
  destruct (Z.leb_spec (lmax - lmin) 0); [lia|]. simpl.
  unfold Int64.add. rewrite Int64Facts.wrap_small; [done|].
  unfold Int64.in_range in *. lia.
Qed.

Lemma causal_leg_panics lmin lmax r :
  Int64.sub lmax lmin <= 0 ->
  leg_latency lmin lmax r = Panic RandIntNonPositive.
Proof.
  intros Hle. unfold leg_latency, TotalOrder.rand_Int.
  by destruct (Z.leb_spec (Int64.sub lmax lmin) 0); [|lia].
Qed.

Lemma causal_broadcaster_lookup nodeCount lmin lmax r (i : nat) :
  (i < nodeCount)%nat ->
  broadcaster nodeCount lmin lmax r !! i
  = Some (leg_latency lmin lmax (r i)).
Proof.
  intros Hi. unfold broadcaster.
  rewrite list_lookup_fmap, lookup_seq_lt by done. done.
Qed.

Lemma causal_handovers_lookup nodeCount m lmin lmax r (i : nat) :
  (i < nodeCount)%nat ->
  handovers nodeCount m lmin lmax r !! i
  = Some (do latency <- leg_latency lmin lmax (r i);
          Ok (Handover (TotalOrder.Sleep (TotalOrder.duration latency))
                (Z.of_nat i) m)).
Proof.
  intros Hi. unfold handovers.
  by rewrite list_lookup_imap, causal_broadcaster_lookup.
Qed.

End CausalRunFacts.

(** ** The causal-delivery node: whole runs *)

Module CausalRunProps.
Import Causal CausalSpec CausalFacts CausalRunSpec CausalRunFacts.

(** X10.  [receive] panics exactly when a message names a sender outside
    the [delivered] vector: it returns if and only if the new message and
    every buffered one carry a sender within the vector, and a fresh node
    of a pool of [p] gets through a list of messages if and only if all
    their senders lie in [[0, p)].  The only panic is the index out of
    range. *)
Theorem receive_returns_iff_senders_known :
  (forall m n,
     (exists n', receive m n = Ok n') <->
     senders_known (delivered n) (buffer n ++ [m])) /\
  (forall m n why, receive m n = Panic why -> why = IndexOutOfRange) /\
  (forall p i ms,
     (exists n, receive_all ms (newNode p i) = Ok n) <-> from_pool p ms) /\
  (forall p i ms why,
     receive_all ms (newNode p i) = Panic why -> why = IndexOutOfRange).
Proof.
  split; [|split; [|split]].
  - intros m n. split.
    + intros [n' Hr]. by eapply receive_known.
    + apply receive_total.
  - apply receive_panic.
  - apply receive_all_returns.
  - intros p i ms why. apply receive_all_panic.
Qed.

Lemma receive_returns_iff_senders_known_witness :
  receive (Message 3 0 "z") (newNode 3 0) = Panic IndexOutOfRange /\
  from_pool 3 [Message 2 0 "c"; Message 0 0 "a"] /\
  exists n, receive_all [Message 2 0 "c"; Message 0 0 "a"] (newNode 3 0) = Ok n.
Proof.
  destruct receive_returns_iff_senders_known as (_ & Hp & Hall & _).
  assert (from_pool 3 [Message 2 0 "c"; Message 0 0 "a"]) as Hpool
    by (repeat constructor; simpl; lia).
  split; [|split; [exact Hpool|exact (proj2 (Hall 3%nat 0 _) Hpool)]].
  destruct (receive (Message 3 0 "z") (newNode 3 0)) as [n'|why] eqn:E.
  - vm_compute in E. discriminate.
  - by rewrite (Hp _ _ _ E).
Defined.

(** X11.  The causal node neither loses nor duplicates a message: after
    any run on a fresh node, the buffer and the log together hold exactly
    the messages received, nothing left in the buffer is deliverable, and
    (up to [2^63 - 1] messages) no sequence number of a sender shows twice
    in the log, so the second copy of a message that arrives twice stays
    in the buffer. *)
Theorem causal_run_conserves (p : nat) (i : Z) ms n :
  receive_all ms (newNode p i) = Ok n ->
  buffer n ++ log n ≡ₚ ms /\
  all_blocked (delivered n) (buffer n) /\
  (Z.of_nat (length ms) <= Int64.max_int ->
   forall s, NoDup (sequences_from s (log n))).
Proof.
  intros Hr.
  pose proof (settled_receive_all p [] ms _ n (settled_newNode p i) Hr) as Hn.
  simpl in Hn. pose proof Hn as (_ & Hblk & Hp).
  split; [done|]. split; [done|]. intros Hfit s.
  destruct (decide (0 <= s < Z.of_nat p)) as [Hs|Hs].
  - destruct (settled_log_numbers p ms n s Hn Hfit Hs) as [_ ->].
    apply NoDup_numbers.
  - assert (from s (log n) = []) as E.
    { destruct (from s (log n)) as [|x l] eqn:E; [done|]. exfalso.
      assert (x ∈ from s (log n)) as [Hx Es]%elem_of_from
        by (rewrite E; left).
      pose proof (receive_all_from_pool p ms _ n (run_inv_newNode p i) Hr)
        as Hpool.
      unfold from_pool in Hpool. rewrite Forall_forall in Hpool.
      assert (x ∈ ms) as Hin
        by (rewrite <- Hp; apply elem_of_app; by right).
      specialize (Hpool x Hin). lia. }
    unfold sequences_from. rewrite E. constructor.
Qed.

Lemma causal_run_conserves_witness :
  receive_all [Message 0 1 "b"; Message 0 0 "a"; Message 0 1 "b"]
    (newNode 1 0)
  = Ok {| id := 0; sendSeq := 0; delivered := [2];
          buffer := [Message 0 1 "b"];
          log := [Message 0 0 "a"; Message 0 1 "b"] |} /\
  Z.of_nat (length [Message 0 1 "b"; Message 0 0 "a"; Message 0 1 "b"])
    <= Int64.max_int /\
  NoDup (sequences_from 0 [Message 0 0 "a"; Message 0 1 "b"]).
Proof.
  assert (receive_all [Message 0 1 "b"; Message 0 0 "a"; Message 0 1 "b"]
            (newNode 1 0)
          = Ok {| id := 0; sendSeq := 0; delivered := [2];
                  buffer := [Message 0 1 "b"];
                  log := [Message 0 0 "a"; Message 0 1 "b"] |}) as Hr
    by reflexivity.
  assert (Z.of_nat (length [Message 0 1 "b"; Message 0 0 "a";
                            Message 0 1 "b"]) <= Int64.max_int) as Hfit
    by discriminate.
  split; [exact Hr|]. split; [exact Hfit|].
  exact (proj2 (proj2 (causal_run_conserves 1 0 _ _ Hr)) Hfit 0).
Defined.

(** X12.  Once everything has arrived, everything is delivered: when the
    messages received from each sender carry, in whatever order and
    interleaving, each of the numbers 0 to [k - 1] once, a fresh node
    delivers them all, the buffer ends empty, and the log shows each
    sender's messages in the order of their numbers. *)
Theorem causal_delivery_complete (p : nat) (i : Z) ms :
  from_pool p ms -> Z.of_nat (length ms) <= Int64.max_int ->
  (forall s, sequences_from s ms ≡ₚ numbers (length (from s ms))) ->
  exists n,
    receive_all ms (newNode p i) = Ok n /\
    buffer n = [] /\
    log n ≡ₚ ms /\
    forall s, sequences_from s (log n) = numbers (length (from s ms)).
Proof.
  intros Hpool Hfit Hnum.
  destruct (proj2 (receive_all_returns p i ms) Hpool) as [n Hr].
  pose proof (settled_receive_all p [] ms _ n (settled_newNode p i) Hr) as Hn.
  simpl in Hn. pose proof Hn as (_ & _ & Hp).
  pose proof (settled_complete p ms n Hn Hfit Hpool Hnum) as Hb.
  rewrite Hb in Hp. simpl in Hp.
  exists n. split; [done|]. split; [done|]. split; [done|].
  intros s. destruct (decide (0 <= s < Z.of_nat p)) as [Hs|Hs].
  - destruct (settled_log_numbers p ms n s Hn Hfit Hs) as [_ ->].
    by rewrite (Permutation_length (from_perm s _ _ Hp)).
  - assert (from s ms = []) as E.
    { destruct (from s ms) as [|x l] eqn:E; [done|]. exfalso.
      assert (x ∈ from s ms) as [Hx Es]%elem_of_from by (rewrite E; left).
      unfold from_pool in Hpool. rewrite Forall_forall in Hpool.
      specialize (Hpool x Hx). lia. }
    pose proof (Permutation_length (from_perm s _ _ Hp)) as Hl.
    rewrite E in Hl. unfold sequences_from.
    destruct (from s (log n)); [by rewrite E|done].
Qed.

Lemma causal_delivery_complete_witness :
  from_pool 2 [Message 1 1 "d"; Message 0 0 "a"; Message 1 0 "c"] /\
  exists n,
    receive_all [Message 1 1 "d"; Message 0 0 "a"; Message 1 0 "c"]
      (newNode 2 0) = Ok n /\
    buffer n = [].
Proof.
  assert (from_pool 2 [Message 1 1 "d"; Message 0 0 "a"; Message 1 0 "c"])
    as Hpool by (repeat constructor; simpl; lia).
  assert (Z.of_nat (length [Message 1 1 "d"; Message 0 0 "a";
                            Message 1 0 "c"]) <= Int64.max_int) as Hfit
    by discriminate.
  assert (forall s,
    sequences_from s [Message 1 1 "d"; Message 0 0 "a"; Message 1 0 "c"]
    ≡ₚ numbers (length (from s [Message 1 1 "d"; Message 0 0 "a";
                                Message 1 0 "c"]))) as Hnum.
  { intros s. unfold sequences_from, from.
    destruct (decide (s = 0)) as [->|H0]; [by vm_compute|].
    destruct (decide (s = 1)) as [->|H1]; [vm_compute; apply Permutation_swap|].
    rewrite !filter_cons_False by (simpl; congruence). by rewrite filter_nil. }
  split; [exact Hpool|].
  destruct (causal_delivery_complete 2 0 _ Hpool Hfit Hnum)
    as (n & Hr & Hb & _).
  exists n. by split.
Defined.

(** X13.  Broadcasts are delivered in the order sent: every sender [s] of
    a pool of [p] numbers its messages 0, 1, 2, ... as it sends them, and
    when a fresh node has received, in any order and interleaving, the
    messages the senders sent, it has delivered them all and its log shows
    the messages of each sender exactly in the order that sender sent
    them. *)
Theorem causal_fifo_delivery (p : nat) (i : Z) (datas : Z -> list string)
    (arrivals : list message) :
  from_pool p arrivals ->
  Z.of_nat (length arrivals) <= Int64.max_int ->
  (forall s, 0 <= s < Z.of_nat p ->
     from s arrivals ≡ₚ sent p s (datas s)) ->
  (forall s, 0 <= s < Z.of_nat p ->
     m_sequence <$> sent p s (datas s) = numbers (length (datas s))) /\
  exists n,
    receive_all arrivals (newNode p i) = Ok n /\
    buffer n = [] /\
    forall s, 0 <= s < Z.of_nat p -> from s (log n) = sent p s (datas s).
Proof.
  intros Hpool Hfit Hsent.
  assert (forall s, 0 <= s < Z.of_nat p ->
            m_sequence <$> sent p s (datas s) = numbers (length (datas s)))
    as Hseq.
  { intros s Hs. rewrite sent_sequences. apply counting_numbers.
    pose proof (Permutation_length (Hsent s Hs)) as Hl.
    rewrite sent_length in Hl. pose proof (from_length_le s arrivals). lia. }
  split; [exact Hseq|].
  assert (forall s,
            sequences_from s arrivals ≡ₚ numbers (length (from s arrivals)))
    as Hnum.
  { intros s. destruct (decide (0 <= s < Z.of_nat p)) as [Hs|Hs].
    - unfold sequences_from. rewrite (Hsent s Hs), Hseq by done.
      by rewrite sent_length.
    - unfold sequences_from.
      assert (from s arrivals = []) as ->; [|done].
      destruct (from s arrivals) as [|x l] eqn:E; [done|]. exfalso.
      assert (x ∈ from s arrivals) as [Hx Es]%elem_of_from
        by (rewrite E; left).
      unfold from_pool in Hpool. rewrite Forall_forall in Hpool.
      specialize (Hpool x Hx). lia. }
  destruct (proj2 (receive_all_returns p i arrivals) Hpool) as [n Hr].
  pose proof (settled_receive_all p [] _ _ n (settled_newNode p i) Hr) as Hn.
  simpl in Hn. pose proof Hn as (_ & _ & Hp).
  pose proof (settled_complete p _ n Hn Hfit Hpool Hnum) as Hb.
  rewrite Hb in Hp. simpl in Hp.
  exists n. split; [done|]. split; [done|].
  intros s Hs.
  destruct (settled_log_numbers p _ n s Hn Hfit Hs) as [_ Hlog].
  assert (from s (log n) ≡ₚ sent p s (datas s)) as Hperm
    by (by rewrite (from_perm s _ _ Hp), Hsent).
  apply (perm_keys_eq m_sequence); [done| |].
  - fold (sequences_from s (log n)). rewrite Hlog, Hseq by done.
    by rewrite (Permutation_length Hperm), sent_length.
  - fold (sequences_from s (log n)). rewrite Hlog. apply NoDup_numbers.
Qed.

Lemma causal_fifo_delivery_witness :
  from_pool 2 two_senders_arrivals /\
  exists n,
    receive_all two_senders_arrivals (newNode 2 1) = Ok n /\
    buffer n = [] /\
    from 0 (log n) = [Message 0 0 "a"; Message 0 1 "b"].
Proof.
  assert (from_pool 2 two_senders_arrivals) as Hpool
    by (repeat constructor; simpl; lia).
  assert (Z.of_nat (length two_senders_arrivals) <= Int64.max_int) as Hfit
    by discriminate.
  assert (forall s, 0 <= s < Z.of_nat 2 ->
            from s two_senders_arrivals ≡ₚ sent 2 s (two_senders s)) as Hsent.
  { intros s Hs.
    assert (s = 0 \/ s = 1) as [->| ->] by lia.
    - vm_compute. apply Permutation_swap.
    - by vm_compute. }
  split; [exact Hpool|].
  destruct (causal_fifo_delivery 2 1 two_senders _ Hpool Hfit Hsent)
    as (_ & n & Hr & Hb & Hlog).
  exists n. split; [exact Hr|]. split; [exact Hb|].
  apply (Hlog 0). simpl. lia.
Defined.

(** X14.  A missing number blocks everything behind it: if no message of
    sender [s] numbered [q] has arrived, a node started fresh has delivered
    from [s] only messages numbered below [q], whatever else arrived. *)
Theorem causal_gap_blocks (p : nat) (i : Z) ms n (s q : Z) :
  receive_all ms (newNode p i) = Ok n ->
  Z.of_nat (length ms) <= Int64.max_int -> 0 <= q ->
  (forall x, x ∈ ms -> m_sender x = s -> m_sequence x <> q) ->
  forall x, x ∈ log n -> m_sender x = s -> m_sequence x < q.
Proof.
  intros Hr Hfit Hq Hgap x Hx Es.
  pose proof (settled_receive_all p [] ms _ n (settled_newNode p i) Hr) as Hn.
  simpl in Hn. pose proof Hn as (_ & _ & Hp).
  assert (forall y, y ∈ log n -> y ∈ ms) as Hsub
    by (intros y Hy; rewrite <- Hp; apply elem_of_app; by right).
  pose proof (receive_all_from_pool p ms _ n (run_inv_newNode p i) Hr)
    as Hpool.
  unfold from_pool in Hpool. rewrite Forall_forall in Hpool.
  assert (0 <= s < Z.of_nat p) as Hs by (rewrite <- Es; apply Hpool; auto).
  destruct (settled_log_numbers p ms n s Hn Hfit Hs) as [_ Hlog].
  assert (m_sequence x ∈ sequences_from s (log n)) as Hin.
  { unfold sequences_from. apply list_elem_of_fmap. exists x.
    split; [done|]. by apply elem_of_from. }
  rewrite Hlog in Hin. apply elem_of_numbers in Hin as (j & Ej & Hj).
  destruct (Z.lt_ge_cases (m_sequence x) q) as [|Hge]; [done|]. exfalso.
  assert (q ∈ sequences_from s (log n)) as Hqin.
  { rewrite Hlog. apply elem_of_numbers. exists (Z.to_nat q). lia. }
  unfold sequences_from in Hqin.
  apply list_elem_of_fmap in Hqin as (y & Ey & [Hy Esy]%elem_of_from).
  apply (Hgap y); auto.
Qed.

Lemma causal_gap_blocks_witness :
  receive_all [Message 0 2 "c"; Message 0 0 "a"] (newNode 1 0)
  = Ok {| id := 0; sendSeq := 0; delivered := [1];
          buffer := [Message 0 2 "c"]; log := [Message 0 0 "a"] |} /\
  forall x, x ∈ [Message 0 0 "a"] -> m_sender x = 0 -> m_sequence x < 1.
Proof.
  assert (receive_all [Message 0 2 "c"; Message 0 0 "a"] (newNode 1 0)
          = Ok {| id := 0; sendSeq := 0; delivered := [1];
                  buffer := [Message 0 2 "c"]; log := [Message 0 0 "a"] |})
    as Hr by reflexivity.
  assert (Z.of_nat (length [Message 0 2 "c"; Message 0 0 "a"])
          <= Int64.max_int) as Hfit by discriminate.
  assert (0 <= 1) as Hq by discriminate.
  assert (forall x, x ∈ [Message 0 2 "c"; Message 0 0 "a"] ->
            m_sender x = 0 -> m_sequence x <> 1) as Hgap.
  { intros x Hx _.
    apply elem_of_cons in Hx as [->|Hx]; [simpl; discriminate|].
    apply list_elem_of_singleton in Hx as ->. simpl. discriminate. }
  split; [exact Hr|].
  exact (causal_gap_blocks 1 0 _ _ 0 1 Hr Hfit Hq Hgap).
Defined.

(** X21.  The broadcaster of the causal simulator has one leg per node;
    with [int] bounds [lmin < lmax] whose difference fits an [int64], no
    leg panics: leg [i] works out [lmin] plus a draw from
    [[0, lmax - lmin)] as its latency, a value of [[lmin, lmax)] that
    cannot wrap, sleeps that many milliseconds, turned into nanoseconds
    by an [int64] multiplication, and hands [m] to node [i].  The sleep
    holds it back between [lmin] and [lmax] milliseconds when [lmin] is
    positive and [lmax - 1] milliseconds fit as nanoseconds, and not at
    all when [lmax] is at most 1.  When [lmax - lmin], wrapped to 64
    bits, is zero or negative, as it is for [lmax <= lmin] unless the
    difference falls below the smallest [int64], every leg panics in
    [rand.Int] and hands nothing over. *)
Theorem causal_broadcast_latency (nodeCount : nat) (m : message)
    (lmin lmax : Z) (r : nat -> Z) :
  Int64.in_range lmin -> Int64.in_range lmax ->
  length (handovers nodeCount m lmin lmax r) = nodeCount /\
  (lmin < lmax -> lmax - lmin <= Int64.max_int ->
   forall i : nat, (i < nodeCount)%nat ->
     exists lat,
       broadcaster nodeCount lmin lmax r !! i = Some (Ok lat) /\
       lat = lmin + r i mod (lmax - lmin) /\ lmin <= lat < lmax /\
       handovers nodeCount m lmin lmax r !! i
       = Some (Ok (Handover (TotalOrder.Sleep (TotalOrder.duration lat))
                     (Z.of_nat i) m)) /\
       (0 < lmin -> (lmax - 1) * TotalOrder.Millisecond <= Int64.max_int ->
        lmin * TotalOrder.Millisecond
        <= TotalOrder.Sleep (TotalOrder.duration lat)
        < lmax * TotalOrder.Millisecond) /\
       (lmax <= 1 -> Int64.min_int <= lmin * TotalOrder.Millisecond ->
        TotalOrder.Sleep (TotalOrder.duration lat) = 0)) /\
  (Int64.sub lmax lmin <= 0 ->
   forall i : nat, (i < nodeCount)%nat ->
     handovers nodeCount m lmin lmax r !! i
     = Some (Panic RandIntNonPositive)) /\
  (lmax <= lmin -> Int64.min_int <= lmax - lmin ->
   Int64.sub lmax lmin <= 0).
Proof.
  intros Hlo Hhi. split; [|split; [|split]].
  - unfold handovers, broadcaster.
    by rewrite length_imap, length_fmap, length_seq.
  - intros Hlt Hfit i Hi.
    destruct (causal_leg_fits lmin lmax (r i) Hlo Hhi Hlt Hfit) as [E Hr].
    exists (lmin + r i mod (lmax - lmin)).
    split; [by rewrite causal_broadcaster_lookup, E|].
    split; [done|]. split; [done|].
    split; [by rewrite causal_handovers_lookup, E|]. split.
    + intros Hpos Hns.
      rewrite TotalOrderFacts.Sleep_duration_exact;
        unfold TotalOrder.Millisecond in *; lia.
    + intros Hone Hns. apply TotalOrderFacts.Sleep_duration_none.
      unfold TotalOrder.Millisecond in *. lia.
  - intros Hle i Hi.
    by rewrite causal_handovers_lookup, causal_leg_panics.
  - intros Hle Hmin. unfold Int64.sub.
    rewrite Int64Facts.wrap_small; [lia|].
    unfold Int64.in_range, Int64.max_int in *. lia.
Qed.

Lemma causal_broadcast_latency_witness :
  Int64.in_range 10 /\ Int64.in_range 20 /\
  length (handovers 3 (Message 0 0 "a") 10 20 (fun i => Z.of_nat i + 7))
  = 3%nat /\
  handovers 2 (Message 0 0 "a") 10 20 (fun _ => 7)
  = [Ok (Handover 17000000 0 (Message 0 0 "a"));
     Ok (Handover 17000000 1 (Message 0 0 "a"))] /\
  handovers 2 (Message 0 0 "a") 20 10 (fun _ => 0)
  = [Panic RandIntNonPositive; Panic RandIntNonPositive].
Proof.
  assert (Int64.in_range 10) as Hlo by (split; discriminate).
  assert (Int64.in_range 20) as Hhi by (split; discriminate).
  split; [exact Hlo|]. split; [exact Hhi|].
  split;
    [exact (proj1 (causal_broadcast_latency 3 (Message 0 0 "a") 10 20
                     (fun i => Z.of_nat i + 7) Hlo Hhi))|].
  split; reflexivity.
Defined.

End CausalRunProps.

(** ** The Lamport-clock simulator: the invariant of a run *)

Module LamportClockFacts.
Import LamportClock LamportClockSpec.

Lemma start_nodes nodeCount cmds i n :
  nodes (start nodeCount cmds) !! i = Some n ->
  n = newNode (Z.of_nat i) /\ (i < nodeCount)%nat.
Proof.
  simpl. rewrite list_lookup_fmap.
  destruct (seq 0 nodeCount !! i) as [j|] eqn:E; simpl; [|done].
  apply lookup_seq in E as [-> ?]. by intros [= <-].
Qed.

Lemma start_length nodeCount cmds :
  length (nodes (start nodeCount cmds)) = nodeCount.
Proof. simpl. by rewrite length_fmap, length_seq. Qed.

Lemma sim_inv_start nodeCount cmds : sim_inv 0 (start nodeCount cmds).
Proof.
  split.
  - intros i n [-> _]%start_nodes. done.
  - apply Forall_forall. intros n [i Hn]%list_elem_of_lookup.
    apply start_nodes in Hn as [-> _]. split; simpl; [lia|done].
  - done.
  - intros b n t1 t2 data mt Hb. simpl in Hb. by rewrite lookup_nil in Hb.
Qed.

Lemma sent_to_app lg new target mt :
  sent_to lg target mt -> sent_to (lg ++ new) target mt.
Proof.
  intros (a & src & t & Ha & Hle). exists a, src, t. split; [|done].
  apply lookup_lt_Some in Ha as Hlt. by rewrite lookup_app_l.
Qed.

(** A node stays in order when events pass, lines are logged and its
    clock moves on, the poller standing where it stood. *)
Lemma node_ok_grow k lg new n n' :
  node_ok k lg n -> id n' = id n -> receiver n' = receiver n ->
  n_t n <= n_t n' <= Z.of_nat (S k) ->
  node_ok (S k) (lg ++ new) n'.
Proof.
  intros [Hc Hr] Hid Hrec Ht. split; [lia|].
  unfold receiver_ok in *. rewrite Hrec, Hid.
  destruct (receiver n) as [|m|m t1|m t1|m t1 t2]; [done|..].
  - destruct Hr as [? ?]. split; [lia|by apply sent_to_app].
  - destruct Hr as (? & ? & ?).
    split; [lia|]. split; [by apply sent_to_app|lia].
  - destruct Hr as (? & ? & ?).
    split; [by apply sent_to_app|lia].
  - destruct Hr as (? & ? & ?).
    split; [by apply sent_to_app|lia].
Qed.

Lemma node_ok_weaken k lg new n :
  node_ok k lg n -> node_ok (S k) (lg ++ new) n.
Proof.
  intros H. apply (node_ok_grow k lg new n n H); [done..|].
  destruct H as [? _]. lia.
Qed.

Lemma nodes_ok_weaken k lg new ns :
  Forall (node_ok k lg) ns -> Forall (node_ok (S k) (lg ++ new)) ns.
Proof.
  intros H. eapply Forall_impl; [exact H|]. intros n. apply node_ok_weaken.
Qed.

Lemma nodes_ok_insert k lg new ns i n' :
  Forall (node_ok k lg) ns -> node_ok (S k) (lg ++ new) n' ->
  Forall (node_ok (S k) (lg ++ new)) (<[i := n']> ns).
Proof. intros H Hn. apply Forall_insert; [by apply nodes_ok_weaken|done]. Qed.

Lemma ids_insert (ns : list node) i n n' :
  (forall j m, ns !! j = Some m -> id m = Z.of_nat j) ->
  ns !! i = Some n -> id n' = id n ->
  forall j m, <[i := n']> ns !! j = Some m -> id m = Z.of_nat j.
Proof.
  intros Hids Hn Hid j m. destruct (decide (i = j)) as [<-|Hne].
  - apply lookup_lt_Some in Hn as Hlt.
    rewrite list_lookup_insert_eq by done. intros [= <-].
    rewrite Hid. by apply Hids.
  - rewrite list_lookup_insert_ne by done. apply Hids.
Qed.

Lemma node_clock k s i n :
  sim_inv k s -> nodes s !! i = Some n -> node_ok k (log s) n.
Proof.
  intros [_ Hns _ _] Hn. rewrite Forall_forall in Hns.
  apply Hns, list_elem_of_lookup. eauto.
Qed.

Lemma incr_plain k c :
  0 <= c <= Z.of_nat k -> Z.of_nat k < Int64.max_int -> Int64.incr c = c + 1.
Proof.
  intros Hc Hk. apply Int64Facts.incr_small. unfold Int64.min_int. lia.
Qed.

(** [main] stays in order when events pass, lines are logged and clocks
    move on. *)
Lemma main_ok_grow k s s' new :
  main_ok k s -> main s' = main s -> log s' = log s ++ new ->
  (forall j n, nodes s !! j = Some n ->
     exists n', nodes s' !! j = Some n' /\ n_t n <= n_t n') ->
  main_ok (S k) s'.
Proof.
  unfold main_ok. intros H Hm Hl Hns. rewrite Hm, Hl.
  destruct (main s) as [| | src tgt m|src tgt m t|tgt m]; [done..| | |].
  - destruct H as (n & Hn & Hle).
    destruct (Hns _ _ Hn) as (n' & Hn' & Hgrow). exists n'.
    split; [done|lia].
  - split; lia.
  - destruct H as [? ?]. split; [lia|by apply sent_to_app].
Qed.

Lemma insert_grows (ns : list node) i n n' :
  ns !! i = Some n -> n_t n <= n_t n' ->
  forall j m, ns !! j = Some m ->
    exists m', <[i := n']> ns !! j = Some m' /\ n_t m <= n_t m'.
Proof.
  intros Hn Hle j m Hm. destruct (decide (i = j)) as [<-|Hne].
  - exists n'. apply lookup_lt_Some in Hn as Hlt.
    rewrite list_lookup_insert_eq by done. split; [done|].
    rewrite Hn in Hm. injection Hm as <-. done.
  - exists m. rewrite list_lookup_insert_ne by done. split; [done|lia].
Qed.

(** The lines already logged keep what they show when lines that are no
    receipt, or receipts in order, are added. *)
Lemma received_app lg new :
  (forall b n t1 t2 data mt,
     lg !! b = Some (Received n t1 t2 data mt) ->
     t1 < t2 /\ mt < t2 /\
     exists a source t,
       (a < b)%nat /\ lg !! a = Some (Sent source t n) /\ mt <= t) ->
  (forall n t1 t2 data mt,
     Received n t1 t2 data mt ∈ new ->
     t1 < t2 /\ mt < t2 /\ sent_to lg n mt) ->
  forall b n t1 t2 data mt,
    (lg ++ new) !! b = Some (Received n t1 t2 data mt) ->
    t1 < t2 /\ mt < t2 /\
    exists a source t,
      (a < b)%nat /\ (lg ++ new) !! a = Some (Sent source t n) /\ mt <= t.
Proof.
  intros Hold Hnew b n t1 t2 data mt Hb.
  destruct (decide (b < length lg)%nat) as [Hlt|Hge].
  - rewrite lookup_app_l in Hb by done.
    destruct (Hold _ _ _ _ _ _ Hb) as (? & ? & a & src & t & ? & Ha & ?).
    split; [done|]. split; [done|]. exists a, src, t.
    split; [done|]. split; [|done]. rewrite lookup_app_l; [done|lia].
  - rewrite lookup_app_r in Hb by lia.
    destruct (Hnew n t1 t2 data mt) as (? & ? & a & src & t & Ha & ?);
      [apply list_elem_of_lookup; eauto|].
    split; [done|]. split; [done|]. exists a, src, t.
    apply lookup_lt_Some in Ha as Hlt. split; [lia|].
    split; [|done]. by rewrite lookup_app_l.
Qed.

(** An event that replaces node [i] and adds lines. *)
Lemma sim_inv_change k s s' i n n' new :
  sim_inv k s -> nodes s !! i = Some n ->
  nodes s' = <[i := n']> (nodes s) -> main_ok (S k) s' ->
  log s' = log s ++ new ->
  id n' = id n ->
  node_ok (S k) (log s ++ new) n' ->
  (forall n0 t1 t2 data mt,
     Received n0 t1 t2 data mt ∈ new ->
     t1 < t2 /\ mt < t2 /\ sent_to (log s) n0 mt) ->
  sim_inv (S k) s'.
Proof.
  intros [Hids Hns Hm Hrc] Hn Hnodes Hmain Hlog Hid Hok Hnew. split.
  - rewrite Hnodes. by apply (ids_insert (nodes s) i n n').
  - rewrite Hnodes, Hlog. by apply nodes_ok_insert.
  - done.
  - rewrite Hlog. by apply received_app.
Qed.

(** The same when [main] stands where it stood and the clock of the node
    has not gone back. *)
Lemma sim_inv_node k s s' i n n' new :
  sim_inv k s -> nodes s !! i = Some n ->
  nodes s' = <[i := n']> (nodes s) -> main s' = main s ->
  log s' = log s ++ new ->
  id n' = id n -> n_t n <= n_t n' ->
  node_ok (S k) (log s ++ new) n' ->
  (forall n0 t1 t2 data mt,
     Received n0 t1 t2 data mt ∈ new ->
     t1 < t2 /\ mt < t2 /\ sent_to (log s) n0 mt) ->
  sim_inv (S k) s'.
Proof.
  intros Hinv Hn Hnodes Hmain Hlog Hid Hle Hok Hnew.
  apply (sim_inv_change k s s' i n n' new); try done.
  apply (main_ok_grow k s s' new); [by destruct Hinv|done..|].
  rewrite Hnodes. by apply (insert_grows (nodes s) i n n').
Qed.

(** An event of [main] that leaves the nodes alone. *)
Lemma sim_inv_main k s s' new :
  sim_inv k s -> nodes s' = nodes s -> log s' = log s ++ new ->
  main_ok (S k) s' ->
  (forall n0 t1 t2 data mt, Received n0 t1 t2 data mt ∉ new) ->
  sim_inv (S k) s'.
Proof.
  intros [Hids Hns Hm Hrc] Hnodes Hlog Hmain Hnew. split.
  - by rewrite Hnodes.
  - rewrite Hnodes, Hlog. by apply nodes_ok_weaken.
  - done.
  - rewrite Hlog. apply received_app; [done|].
    intros n0 t1 t2 data mt H. by apply Hnew in H.
Qed.

Lemma sim_inv_weaken k s : sim_inv k s -> sim_inv (S k) s.
Proof.
  intros H. apply (sim_inv_main k s s [] H); [done|by rewrite app_nil_r| |].
  - apply (main_ok_grow k s s []); [by destruct H|done|by rewrite app_nil_r|].
    intros j n Hn. exists n. split; [done|lia].
  - intros n0 t1 t2 data mt Hin. by apply elem_of_nil in Hin.
Qed.

Lemma no_lines n0 t1 t2 data mt :
  Received n0 t1 t2 data mt ∈ @nil entry ->
  t1 < t2 /\ mt < t2 /\ sent_to [] n0 mt.
Proof. intros H. by apply elem_of_nil in H. Qed.

Lemma counter_id n : id (counter n) = id n.
Proof. unfold counter. by repeat case_match. Qed.

Lemma counter_receiver n : receiver (counter n) = receiver n.
Proof. unfold counter. by repeat case_match. Qed.

Lemma counter_freezing n : freezing (counter n) = freezing n.
Proof. unfold counter. by repeat case_match. Qed.

Lemma counter_clock n :
  n_t (counter n) = if passed n then Int64.incr (n_t n) else n_t n.
Proof. unfold counter. by repeat case_match. Qed.

Lemma sim_inv_counter k s i n :
  sim_inv k s -> Z.of_nat k < Int64.max_int -> nodes s !! i = Some n ->
  sim_inv (S k) (with_node i (counter n) [] s).
Proof.
  intros Hinv Hk Hn. pose proof (node_clock k s i n Hinv Hn) as Hok.
  assert (n_t n <= n_t (counter n) <= Z.of_nat (S k)) as Hc.
  { destruct Hok as [Hr _]. rewrite counter_clock.
    destruct (passed n); [rewrite (incr_plain k) by done|]; lia. }
  apply (sim_inv_node k s _ i n (counter n) [] Hinv Hn);
    [done..|apply counter_id|lia| |].
  - apply (node_ok_grow k (log s) [] n);
      [done|apply counter_id|apply counter_receiver|done].
  - intros n0 t1 t2 data mt H. by apply elem_of_nil in H.
Qed.

Lemma sim_inv_poller k s i n :
  sim_inv k s -> Z.of_nat k < Int64.max_int -> nodes s !! i = Some n ->
  sim_inv (S k)
    (with_node i (receiveMessage n).1 (receiveMessage n).2 s).
Proof.
  intros Hinv Hk Hn. pose proof (node_clock k s i n Hinv Hn) as Hok.
  pose proof Hok as [Hc Hr].
  unfold receiveMessage, time. unfold receiver_ok in Hr.
  destruct (receiver n) as [|m|m t1|m t1|m t1 t2] eqn:Er; simpl.
  - apply (sim_inv_node k s _ i n n [] Hinv Hn); [done..|lia| |].
    + by apply node_ok_weaken.
    + intros n0 t1 t2 data mt H. by apply elem_of_nil in H.
  - destruct Hr as [Hm Hs].
    eapply (sim_inv_node k s _ i n _ [] Hinv Hn); [done..|simpl; lia| |].
    + split; simpl; [lia|]. unfold receiver_ok. simpl.
      split; [lia|]. split; [by apply sent_to_app|lia].
    + intros n0 t1 t2 data mt H. by apply elem_of_nil in H.
  - destruct Hr as (Hm & Hs & Ht1).
    assert (Int64.incr (if n_t n <? m_t m then m_t m else n_t n)
            = Z.max (n_t n) (m_t m) + 1) as Et.
    { destruct (Z.ltb_spec (n_t n) (m_t m));
        rewrite (incr_plain k) by lia; lia. }
    eapply (sim_inv_node k s _ i n _ [] Hinv Hn);
      [done..|simpl; rewrite Et; lia| |].
    + split; simpl; [rewrite Et; lia|]. unfold receiver_ok. simpl.
      rewrite Et. split; [by apply sent_to_app|lia].
    + intros n0 t1' t2 data mt H. by apply elem_of_nil in H.
  - destruct Hr as (Hs & Ht1 & Hm).
    eapply (sim_inv_node k s _ i n _ [] Hinv Hn); [done..|simpl; lia| |].
    + split; simpl; [lia|]. unfold receiver_ok. simpl.
      split; [by apply sent_to_app|lia].
    + intros n0 t1' t2 data mt H. by apply elem_of_nil in H.
  - destruct Hr as (Hs & Ht1 & Hm).
    eapply (sim_inv_node k s _ i n _
             [Received (id n) t1 t2 (m_data m) (m_t m)] Hinv Hn);
      [done..|simpl; lia| |].
    + split; simpl; [lia|]. by unfold receiver_ok.
    + intros n0 t1' t2' data mt H. apply list_elem_of_singleton in H.
      injection H as -> -> -> -> ->. done.
Qed.

Lemma freeze_node f n :
  id (freeze f n).1.2 = id n /\ n_t (freeze f n).1.2 = n_t n /\
  receiver (freeze f n).1.2 = receiver n /\
  passed (freeze f n).1.2 = passed n /\
  forall n0 t1 t2 data mt, Received n0 t1 t2 data mt ∉ (freeze f n).2.
Proof.
  destruct f; simpl; repeat split; try done;
    intros n0 t1 t2 data mt H;
    first [by apply elem_of_nil in H
          |by apply list_elem_of_singleton in H].
Qed.

Lemma sim_inv_freezer k s i n f fs :
  sim_inv k s -> nodes s !! i = Some n ->
  sim_inv (S k)
    {| nodes := <[i := (freeze f n).1.2]> (nodes s); main := main s;
       stdin := stdin s; freezers := fs;
       log := log s ++ (freeze f n).2 |}.
Proof.
  intros Hinv Hn. pose proof (node_clock k s i n Hinv Hn) as Hok.
  destruct (freeze_node f n) as (Hid & Ht & Hr & _ & Hl).
  apply (sim_inv_node k s _ i n (freeze f n).1.2 (freeze f n).2 Hinv Hn);
    [done..|lia| |].
  - apply (node_ok_grow k (log s) _ n); [done..|].
    destruct Hok as [? _]. lia.
  - intros n0 t1 t2 data mt H. by apply Hl in H.
Qed.

Lemma sim_inv_sendMessage k s s' :
  sim_inv k s -> sendMessage s = Ok s' -> sim_inv (S k) s'.
Proof.
  intros Hinv. pose proof Hinv as [Hids Hns Hm Hrc].
  unfold sendMessage. unfold main_ok in Hm.
  destruct (main s) as [|src tgt data|src tgt m|src tgt m t|tgt m] eqn:Em.
  - destruct (stdin s) as [|[source target data|j] rest].
    + intros [= <-]. by apply sim_inv_weaken.
    + unfold obind. destruct (index (nodes s) source); [|done].
      destruct (index (nodes s) target); [|done]. intros [= <-].
      apply (sim_inv_main k s _ [] Hinv); simpl;
        [done|by rewrite app_nil_r|done|].
      intros n0 t1 t2 d mt H. by apply elem_of_nil in H.
    + unfold obind. destruct (index (nodes s) j); [|done]. intros [= <-].
      apply (sim_inv_main k s _ [] Hinv); simpl;
        [done|by rewrite app_nil_r|done|].
      intros n0 t1 t2 d mt H. by apply elem_of_nil in H.
  - destruct (nodes s !! src) as [n|] eqn:Hn;
      [|intros [= <-]; by apply sim_inv_weaken].
    intros [= <-]. pose proof (node_clock k s _ n Hinv Hn) as [Hc _].
    apply (sim_inv_main k s _ [] Hinv); simpl; [done..| |].
    + unfold main_ok. simpl. exists n. split; [done|lia].
    + intros n0 t1 t2 d mt H. by apply elem_of_nil in H.
  - destruct (nodes s !! src) as [n|] eqn:Hn;
      [|intros [= <-]; by apply sim_inv_weaken].
    intros [= <-]. pose proof (node_clock k s _ n Hinv Hn) as [Hc _].
    destruct Hm as (n1 & Hn1 & Hle). simplify_eq.
    apply (sim_inv_main k s _ [] Hinv); simpl; [done..| |].
    + unfold main_ok, time. simpl. lia.
    + intros n0 t1 t2 d mt H. by apply elem_of_nil in H.
  - destruct (nodes s !! src) as [n|] eqn:Hn;
      [|intros [= <-]; by apply sim_inv_weaken].
    destruct (nodes s !! tgt) as [tg|] eqn:Ht;
      [|intros [= <-]; by apply sim_inv_weaken].
    intros [= <-]. destruct Hm as [Hm Hle].
    apply (sim_inv_main k s _ [Sent (id n) t (id tg)] Hinv); simpl;
      [done..| |].
    + unfold main_ok. simpl. split; [lia|].
      exists (length (log s)), (id n), t.
      rewrite lookup_app_r, Nat.sub_diag by lia. simpl.
      split; [|done]. by rewrite (Hids _ _ Ht).
    + intros n0 t1 t2 d mt H. by apply list_elem_of_singleton in H.
  - destruct (nodes s !! tgt) as [tg|] eqn:Ht;
      [|intros [= <-]; by apply sim_inv_weaken].
    destruct (receiver tg) eqn:Er;
      try (intros [= <-]; by apply sim_inv_weaken).
    intros [= <-]. destruct Hm as [Hm Hs].
    pose proof (node_clock k s _ tg Hinv Ht) as [Hc _].
    apply (sim_inv_change k s _ tgt tg (set_receiver (Taken m) tg) []
             Hinv Ht); simpl; [done|done|by rewrite app_nil_r|done| |].
    + split; simpl; [lia|]. unfold receiver_ok. simpl.
      split; [lia|]. rewrite (Hids _ _ Ht). by apply sent_to_app.
    + intros n0 t1 t2 d mt H. by apply elem_of_nil in H.
Qed.

Lemma sim_inv_step k s e s' :
  sim_inv k s -> Z.of_nat k < Int64.max_int ->
  step s e = Ok s' -> sim_inv (S k) s'.
Proof.
  intros Hinv Hk. destruct e as [i|i|j|]; simpl.
  - destruct (nodes s !! i) as [n|] eqn:Hn; intros [= <-];
      [by apply sim_inv_counter|by apply sim_inv_weaken].
  - destruct (nodes s !! i) as [n|] eqn:Hn;
      [|intros [= <-]; by apply sim_inv_weaken].
    pose proof (sim_inv_poller k s i n Hinv Hk Hn) as H.
    destruct (receiveMessage n) as [n' lines]. by intros [= <-].
  - destruct (freezers s !! j) as [[i f]|];
      [|intros [= <-]; by apply sim_inv_weaken].
    destruct (nodes s !! i) as [n|] eqn:Hn;
      [|intros [= <-]; by apply sim_inv_weaken].
    pose proof (sim_inv_freezer k s i n f
                  (<[j := (i, (freeze f n).1.1)]> (freezers s)) Hinv Hn)
      as H.
    destruct (freeze f n) as [[f' n'] lines]. by intros [= <-].
  - by apply sim_inv_sendMessage.
Qed.

Lemma exec_app es1 es2 s :
  exec (es1 ++ es2) s = do s' <- exec es1 s; exec es2 s'.
Proof.
  revert s. induction es1 as [|e es1 IH]; intros s; simpl; [done|].
  destruct (step s e); simpl; [apply IH|done].
Qed.

Lemma sim_inv_exec es k s s' :
  sim_inv k s -> Z.of_nat (k + length es) <= Int64.max_int ->
  exec es s = Ok s' -> sim_inv (k + length es) s'.
Proof.
  revert k s. induction es as [|e es IH]; intros k s Hinv Hfit; simpl.
  - intros [= <-]. by rewrite Nat.add_0_r.
  - destruct (step s e) as [s1|] eqn:Hs; [|done]. simpl. intros He.
    replace (k + S (length es))%nat with (S k + length es)%nat by lia.
    apply (IH (S k) s1); [|simpl in *; lia|done].
    apply (sim_inv_step k s e); [done| |done]. simpl in Hfit. lia.
Qed.

(** *** What an event does to the nodes *)

Lemma receive_id n : id (receiveMessage n).1 = id n.
Proof. unfold receiveMessage. by destruct (receiver n). Qed.

Lemma receive_freezing n : freezing (receiveMessage n).1 = freezing n.
Proof. unfold receiveMessage. by destruct (receiver n). Qed.

Lemma receive_clock k lg n :
  node_ok k lg n -> Z.of_nat k < Int64.max_int ->
  n_t n <= n_t (receiveMessage n).1.
Proof.
  intros [Hc Hr] Hk. unfold receiveMessage. unfold receiver_ok in Hr.
  destruct (receiver n) as [|m|m t1|m t1|m t1 t2]; simpl; try lia.
  destruct Hr as (Hm & _ & _).
  destruct (Z.ltb_spec (n_t n) (m_t m)); rewrite (incr_plain k) by lia; lia.
Qed.

Lemma step_nodes s e s' :
  step s e = Ok s' ->
  nodes s' = nodes s \/
  exists i n n', touches s e i n n' /\ nodes s' = <[i := n']> (nodes s).
Proof.
  destruct e as [i|i|k|]; simpl.
  - destruct (nodes s !! i) as [n|] eqn:Hn; intros [= <-]; [|by left].
    right. exists i, n, (counter n). split; [by constructor|done].
  - destruct (nodes s !! i) as [n|] eqn:Hn; [|intros [= <-]; by left].
    pose proof (touches_poller s i n Hn) as H.
    destruct (receiveMessage n) as [n' lines]. intros [= <-].
    right. by exists i, n, n'.
  - destruct (freezers s !! k) as [[i f]|] eqn:Hf;
      [|intros [= <-]; by left].
    destruct (nodes s !! i) as [n|] eqn:Hn; [|intros [= <-]; by left].
    pose proof (touches_freezer s k i f n Hf Hn) as H.
    destruct (freeze f n) as [[f' n'] lines]. intros [= <-].
    right. by exists i, n, n'.
  - unfold sendMessage.
    destruct (main s) as [|src tgt data|src tgt m|src tgt m t|tgt m] eqn:Em.
    + destruct (stdin s) as [|[source target data|j] rest];
        [intros [= <-]; by left|..]; unfold obind.
      * destruct (index (nodes s) source); [|done].
        destruct (index (nodes s) target); [|done]. intros [= <-]. by left.
      * destruct (index (nodes s) j); [|done]. intros [= <-]. by left.
    + destruct (nodes s !! src); intros [= <-]; by left.
    + destruct (nodes s !! src); intros [= <-]; by left.
    + destruct (nodes s !! src); [|intros [= <-]; by left].
      destruct (nodes s !! tgt); intros [= <-]; by left.
    + destruct (nodes s !! tgt) as [tg|] eqn:Ht; [|intros [= <-]; by left].
      destruct (receiver tg) eqn:Er; intros [= <-]; try by left.
      right. exists tgt, tg, (set_receiver (Taken m) tg).
      split; [by constructor|done].
Qed.

Lemma step_length s e s' :
  step s e = Ok s' -> length (nodes s') = length (nodes s).
Proof.
  intros [->|(i & n & n' & _ & ->)]%step_nodes; [done|].
  by rewrite length_insert.
Qed.

Lemma touches_lookup s e i n n' : touches s e i n n' -> nodes s !! i = Some n.
Proof. by destruct 1. Qed.

Lemma touches_clock k s e i n n' :
  sim_inv k s -> Z.of_nat k < Int64.max_int ->
  touches s e i n n' -> n_t n <= n_t n'.
Proof.
  intros Hinv Hk Ht. pose proof (touches_lookup _ _ _ _ _ Ht) as Hn.
  pose proof (node_clock k s i n Hinv Hn) as Hok.
  destruct Ht as [i n _|i n _|j i f n _ _|i m n _ _ _].
  - rewrite counter_clock. destruct Hok as [Hc _].
    destruct (passed n); [rewrite (incr_plain k) by done|]; lia.
  - by apply (receive_clock k (log s)).
  - destruct (freeze_node f n) as (_ & -> & _). lia.
  - simpl. lia.
Qed.

Lemma step_clock k s e s' i n :
  sim_inv k s -> Z.of_nat k < Int64.max_int -> step s e = Ok s' ->
  nodes s !! i = Some n ->
  exists n', nodes s' !! i = Some n' /\ n_t n <= n_t n'.
Proof.
  intros Hinv Hk Hs Hn.
  destruct (step_nodes s e s' Hs) as [->|(j & m & m' & Ht & ->)].
  - exists n. split; [done|lia].
  - apply (insert_grows (nodes s) j m m'); [|  |done].
    + by eapply touches_lookup.
    + by eapply touches_clock.
Qed.

Lemma exec_clock es k s s' i n :
  sim_inv k s -> Z.of_nat (k + length es) <= Int64.max_int ->
  exec es s = Ok s' -> nodes s !! i = Some n ->
  exists n', nodes s' !! i = Some n' /\ n_t n <= n_t n'.
Proof.
  revert k s n. induction es as [|e es IH]; intros k s n Hinv Hfit; simpl.
  - intros [= <-] Hn. exists n. split; [done|lia].
  - destruct (step s e) as [s1|] eqn:Hs; [|done]. simpl. intros He Hn.
    simpl in Hfit.
    destruct (step_clock k s e s1 i n) as (n1 & Hn1 & Hle); [done|lia|done..|].
    destruct (IH (S k) s1 n1) as (n' & Hn' & Hle'); [|lia|done..|].
    + apply (sim_inv_step k s e); [done|lia|done].
    + exists n'. split; [done|lia].
Qed.

(** *** Freezing *)

Lemma step_frozen s e s' i n :
  nodes s !! i = Some n -> freezing n = true -> leaves_frozen i e ->
  step s e = Ok s' ->
  exists n', nodes s' !! i = Some n' /\ freezing n' = true /\
    (n_t n' = n_t n /\ passed n' = passed n \/
     passed n = true /\ passed n' = false /\
     n_t n' = Int64.incr (n_t n)).
Proof.
  intros Hn Hf Hq Hs.
  destruct (step_nodes s e s' Hs) as [->|(j & m & m' & Ht & ->)].
  { exists n. split; [done|]. split; [done|]. by left. }
  pose proof (touches_lookup _ _ _ _ _ Ht) as Hm.
  destruct (decide (j = i)) as [->|Hne].
  - rewrite Hn in Hm. injection Hm as <-.
    exists m'. apply lookup_lt_Some in Hn as Hlt.
    rewrite list_lookup_insert_eq by done. split; [done|].
    destruct Ht as [i n _|i n _|j i f n _ _|i m n _ _ _]; simpl in Hq.
    + rewrite counter_freezing, counter_clock. split; [done|].
      unfold counter. rewrite Hf.
      destruct (passed n) eqn:Ep; simpl; [right|left]; done.
    + done.
    + done.
    + simpl. split; [done|]. by left.
  - exists n. rewrite list_lookup_insert_ne by done.
    split; [done|]. split; [done|]. by left.
Qed.

Lemma exec_frozen es s s' i n :
  nodes s !! i = Some n -> freezing n = true ->
  Forall (leaves_frozen i) es -> exec es s = Ok s' ->
  exists n', nodes s' !! i = Some n' /\ freezing n' = true /\
    (n_t n' = n_t n /\ passed n' = passed n \/
     passed n = true /\ passed n' = false /\
     n_t n' = Int64.incr (n_t n)).
Proof.
  revert s n. induction es as [|e es IH]; intros s n Hn Hf Hq; simpl.
  - intros [= <-]. exists n. split; [done|]. split; [done|]. by left.
  - apply Forall_cons in Hq as [Hq Hqs].
    destruct (step s e) as [s1|] eqn:Hs; [|done]. simpl. intros He.
    destruct (step_frozen s e s1 i n Hn Hf Hq Hs) as (n1 & Hn1 & Hf1 & H1).
    destruct (IH s1 n1 Hn1 Hf1 Hqs He) as (n' & Hn' & Hf' & H').
    exists n'. split; [done|]. split; [done|].
    destruct H1 as [[E1 P1]|(Pn & P1 & E1)],
             H' as [[E' P']|(Pn' & P' & E')].
    + left. split; congruence.
    + right. repeat split; congruence.
    + right. repeat split; congruence.
    + congruence.
Qed.

(** *** Commands *)

Lemma index_out_of_range {A} (s : list A) i :
  ~ 0 <= i < Z.of_nat (length s) -> index s i = Panic IndexOutOfRange.
Proof.
  intros H. unfold index. destruct (Z.ltb_spec i 0); [done|].
  rewrite lookup_ge_None_2; [done|lia].
Qed.

Lemma index_lookup {A} (l : list A) i a :
  index l i = Ok a -> l !! Z.to_nat i = Some a.
Proof. by intros [? ?]%index_Ok. Qed.

Lemma send_alone s source target data rest n tg :
  at_rest s -> stdin s = CmdSend source target data :: rest ->
  index (nodes s) source = Ok n -> index (nodes s) target = Ok tg ->
  let t2 := Int64.incr (if n_t tg <? n_t n then n_t n else n_t tg) in
  exec (schedule (CmdSend source target data)) s =
    Ok {| nodes := <[Z.to_nat target := set_t t2 tg]> (nodes s);
          main := Prompt; stdin := rest; freezers := freezers s;
          log := log s ++ [Sent (id n) (n_t n) (id tg);
                           Received (id tg) (n_t tg) t2 data (n_t n)] |}.
Proof.
  intros [Hm Hr] Hin Hs Ht.
  pose proof (index_lookup _ _ _ Hs) as Hls.
  pose proof (index_lookup _ _ _ Ht) as Hlt.
  assert (receiver tg = Polling) as Er.
  { rewrite Forall_forall in Hr. apply Hr, list_elem_of_lookup. eauto. }
  apply lookup_lt_Some in Hlt as Hlen.
  destruct s as [ns mn inp fz lg]. simpl in *. subst mn inp.
  unfold sendMessage. cbn. rewrite Hs, Ht. cbn.
  repeat (first [rewrite Hls | rewrite Hlt | rewrite Er
                |rewrite list_lookup_insert_eq
                   by (rewrite ?length_insert; done)]; cbn).
  unfold with_node, time. simpl. do 2 f_equal.
  - rewrite !list_insert_insert_eq. f_equal.
    destruct tg. simpl in *. by subst.
  - by rewrite !app_nil_r, <- !app_assoc.
Qed.

Lemma freeze_alone s i rest n :
  main s = Prompt -> stdin s = CmdFreeze i :: rest ->
  index (nodes s) i = Ok n ->
  exec (schedule (CmdFreeze i)) s =
    Ok {| nodes := nodes s; main := Prompt; stdin := rest;
          freezers := freezers s ++ [(Z.to_nat i, Spawned)];
          log := log s |}.
Proof.
  intros Hm Hin Hi. simpl. unfold sendMessage. rewrite Hm, Hin. simpl.
  by rewrite Hi.
Qed.

Lemma names_nodes_dec nodeCount c :
  names_nodes nodeCount c \/ ~ names_nodes nodeCount c.
Proof. destruct c; simpl; lia. Qed.

Lemma schedule_runs s c rest :
  at_rest s -> stdin s = c :: rest -> names_nodes (length (nodes s)) c ->
  exists s',
    exec (schedule c) s = Ok s' /\ at_rest s' /\ stdin s' = rest /\
    length (nodes s') = length (nodes s).
Proof.
  intros Hrest Hin Hc. destruct c as [source target data|i].
  - destruct Hc as [Hs Ht].
    destruct (index_in_range (nodes s) source Hs) as [n Hn].
    destruct (index_in_range (nodes s) target Ht) as [tg Htg].
    eexists. split; [by apply (send_alone s source target data rest n tg)|].
    destruct Hrest as [_ Hr]. split; [split; [done|]|]; simpl.
    + apply Forall_insert; [done|]. simpl.
      rewrite Forall_forall in Hr. apply Hr, list_elem_of_lookup.
      exists (Z.to_nat target). by apply index_lookup.
    + split; [done|]. by rewrite length_insert.
  - simpl in Hc. destruct (index_in_range (nodes s) i Hc) as [n Hn].
    destruct Hrest as [Hm Hr].
    eexists. split; [by apply (freeze_alone s i rest n)|].
    by split; [split|].
Qed.

Lemma bad_command_panics s c rest :
  main s = Prompt -> stdin s = c :: rest ->
  ~ names_nodes (length (nodes s)) c ->
  step s Main = Panic IndexOutOfRange.
Proof.
  intros Hm Hin Hc. simpl. unfold sendMessage. rewrite Hm, Hin.
  destruct c as [source target data|i]; simpl in Hc; unfold obind.
  - destruct (index (nodes s) source) as [n|why] eqn:Hs;
      [|by rewrite (index_panic _ _ _ Hs)].
    apply index_Ok_range in Hs.
    rewrite index_out_of_range; [done|lia].
  - rewrite index_out_of_range; [done|lia].
Qed.

Lemma some_schedule_panics nodeCount cmds s :
  at_rest s -> length (nodes s) = nodeCount -> stdin s = cmds ->
  ~ Forall (names_nodes nodeCount) cmds ->
  exists es, exec es s = Panic IndexOutOfRange.
Proof.
  revert s. induction cmds as [|c cmds IH]; intros s Hrest Hlen Hin Hbad.
  { destruct Hbad. constructor. }
  destruct (names_nodes_dec nodeCount c) as [Hc|Hc].
  - destruct (schedule_runs s c cmds Hrest Hin) as (s1 & He & Hr1 & Hi1 & Hl1);
      [by rewrite Hlen|].
    destruct (IH s1) as [es Hes]; [done|congruence|done| |].
    { intros Hall. apply Hbad. by constructor. }
    exists (schedule c ++ es). by rewrite exec_app, He.
  - exists [Main]. change (exec [Main] s) with (do s' <- step s Main; Ok s').
    rewrite (bad_command_panics s c cmds); [done|by destruct Hrest|done|].
    by rewrite Hlen.
Qed.

Lemma step_stdin s e s' :
  step s e = Ok s' ->
  stdin s' = stdin s \/ exists c, stdin s = c :: stdin s'.
Proof.
  destruct e as [i|i|k|]; simpl.
  - destruct (nodes s !! i); intros [= <-]; by left.
  - destruct (nodes s !! i) as [n|]; [|intros [= <-]; by left].
    destruct (receiveMessage n). intros [= <-]. by left.
  - destruct (freezers s !! k) as [[i f]|]; [|intros [= <-]; by left].
    destruct (nodes s !! i) as [n|]; [|intros [= <-]; by left].
    destruct (freeze f n) as [[f' n'] lines]. intros [= <-]. by left.
  - unfold sendMessage.
    destruct (main s) as [|src tgt data|src tgt m|src tgt m t|tgt m].
    + destruct (stdin s) as [|[source target data|j] rest] eqn:Ein;
        [intros [= <-]; by left|..]; unfold obind.
      * destruct (index (nodes s) source); [|done].
        destruct (index (nodes s) target); [|done]. intros [= <-].
        right. by eexists.
      * destruct (index (nodes s) j); [|done]. intros [= <-].
        right. by eexists.
    + destruct (nodes s !! src); intros [= <-]; by left.
    + destruct (nodes s !! src); intros [= <-]; by left.
    + destruct (nodes s !! src); [|intros [= <-]; by left].
      destruct (nodes s !! tgt); intros [= <-]; by left.
    + destruct (nodes s !! tgt) as [tg|]; [|intros [= <-]; by left].
      destruct (receiver tg); intros [= <-]; by left.
Qed.

Lemma step_returns s e :
  Forall (names_nodes (length (nodes s))) (stdin s) ->
  exists s', step s e = Ok s'.
Proof.
  intros Hall. destruct e as [i|i|k|]; simpl.
  - destruct (nodes s !! i); by eexists.
  - destruct (nodes s !! i) as [n|]; [|by eexists].
    destruct (receiveMessage n). by eexists.
  - destruct (freezers s !! k) as [[i f]|]; [|by eexists].
    destruct (nodes s !! i) as [n|]; [|by eexists].
    destruct (freeze f n) as [[f' n'] lines]. by eexists.
  - unfold sendMessage.
    destruct (main s) as [|src tgt data|src tgt m|src tgt m t|tgt m].
    + destruct (stdin s) as [|[source target data|j] rest];
        [by eexists|..]; apply Forall_cons in Hall as [Hc _];
        simpl in Hc.
      * destruct Hc as [Hs Ht].
        destruct (index_in_range (nodes s) source Hs) as [n ->].
        destruct (index_in_range (nodes s) target Ht) as [tg ->].
        by eexists.
      * destruct (index_in_range (nodes s) j Hc) as [n ->]. by eexists.
    + destruct (nodes s !! src); by eexists.
    + destruct (nodes s !! src); by eexists.
    + destruct (nodes s !! src); [|by eexists].
      destruct (nodes s !! tgt); by eexists.
    + destruct (nodes s !! tgt) as [tg|]; [|by eexists].
      destruct (receiver tg); by eexists.
Qed.

Lemma exec_returns es s :
  Forall (names_nodes (length (nodes s))) (stdin s) ->
  exists s', exec es s = Ok s'.
Proof.
  revert s. induction es as [|e es IH]; intros s Hall; simpl; [by eexists|].
  destruct (step_returns s e Hall) as [s1 Hs]. rewrite Hs. simpl.
  apply IH. rewrite (step_length s e s1 Hs).
  destruct (step_stdin s e s1 Hs) as [->|[c Hc]]; [done|].
  rewrite Hc in Hall. by apply Forall_cons in Hall as [_ ?].
Qed.

Lemma step_panic s e why :
  step s e = Panic why ->
  why = IndexOutOfRange /\ e = Main /\ main s = Prompt /\
  exists c rest,
    stdin s = c :: rest /\ ~ names_nodes (length (nodes s)) c.
Proof.
  destruct e as [i|i|k|]; simpl.
  - by destruct (nodes s !! i).
  - destruct (nodes s !! i) as [n|]; [|done].
    by destruct (receiveMessage n).
  - destruct (freezers s !! k) as [[i f]|]; [|done].
    destruct (nodes s !! i) as [n|]; [|done].
    by destruct (freeze f n) as [[f' n'] lines].
  - unfold sendMessage.
    destruct (main s) as [|src tgt data|src tgt m|src tgt m t|tgt m] eqn:Em.
    + destruct (stdin s) as [|[source target data|j] rest] eqn:Ein;
        [done|..]; unfold obind.
      * destruct (index (nodes s) source) as [n|w] eqn:Hs.
        -- destruct (index (nodes s) target) as [tg|w] eqn:Ht; [done|].
           intros [= <-]. split; [by apply index_panic in Ht|].
           split; [done|]. split; [done|]. eexists _, _. split; [done|].
           simpl. intros [_ Hr].
           destruct (index_in_range (nodes s) target Hr). congruence.
        -- intros [= <-]. split; [by apply index_panic in Hs|].
           split; [done|]. split; [done|]. eexists _, _. split; [done|].
           simpl. intros [Hr _].
           destruct (index_in_range (nodes s) source Hr). congruence.
      * destruct (index (nodes s) j) as [n|w] eqn:Hj; [done|].
        intros [= <-]. split; [by apply index_panic in Hj|].
        split; [done|]. split; [done|]. eexists _, _. split; [done|].
        simpl. intros Hr.
        destruct (index_in_range (nodes s) j Hr). congruence.
    + by destruct (nodes s !! src).
    + by destruct (nodes s !! src).
    + destruct (nodes s !! src); [|done]. by destruct (nodes s !! tgt).
    + destruct (nodes s !! tgt) as [tg|]; [|done]. by destruct (receiver tg).
Qed.

Lemma exec_panic es s why :
  exec es s = Panic why ->
  why = IndexOutOfRange /\
  exists es1 s1 c rest,
    exec es1 s = Ok s1 /\ main s1 = Prompt /\ stdin s1 = c :: rest /\
    ~ names_nodes (length (nodes s)) c.
Proof.
  revert s. induction es as [|e es IH]; intros s; simpl; [done|].
  destruct (step s e) as [s1|w] eqn:Hs; simpl.
  - intros He. destruct (IH s1 He) as (-> & es1 & s2 & c & rest & H1 & H2).
    split; [done|]. exists (e :: es1), s2, c, rest. simpl. rewrite Hs. simpl.
    split; [done|]. by rewrite <- (step_length s e s1 Hs).
  - intros [= <-].
    destruct (step_panic s e w Hs) as (-> & _ & Hm & c & rest & Hin & Hc).
    split; [done|]. by exists [], s, c, rest.
Qed.

Lemma start_at_rest nodeCount cmds : at_rest (start nodeCount cmds).
Proof.
  split; [done|]. apply Forall_forall.
  intros n [i Hn]%list_elem_of_lookup. by apply start_nodes in Hn as [-> _].
Qed.

End LamportClockFacts.

(** ** The Lamport-clock simulator: clocks, receipts, freezes, panics *)

Module LamportClockProps.
Import LamportClock LamportClockSpec LamportClockFacts.

(** X15.  In the Lamport-clock simulator no clock runs ahead of the
    events: after a run of the goroutines from the start, whatever the
    interleaving, every clock is between 0 and the number of actions run,
    provided that number fits an [int64]; so no clock has wrapped. *)
Theorem lamport_clocks_bounded nodeCount cmds es s :
  exec es (start nodeCount cmds) = Ok s ->
  Z.of_nat (length es) <= Int64.max_int ->
  Forall (fun n => 0 <= n_t n <= Z.of_nat (length es)) (nodes s).
Proof.
  intros He Hfit.
  pose proof (sim_inv_exec es 0 _ s (sim_inv_start nodeCount cmds) Hfit He)
    as [_ Hns _ _].
  eapply Forall_impl; [exact Hns|]. by intros n [? _].
Qed.

Lemma lamport_clocks_bounded_witness :
  exists s,
    exec two_nodes_run (start 2 two_nodes_cmds) = Ok s /\
    Z.of_nat (length two_nodes_run) <= Int64.max_int /\
    Forall (fun n => 0 <= n_t n <= Z.of_nat (length two_nodes_run))
      (nodes s).
Proof.
  eexists.
  assert (Z.of_nat (length two_nodes_run) <= Int64.max_int) as Hfit
    by discriminate.
  split; [by vm_compute|]. split; [exact Hfit|].
  refine (lamport_clocks_bounded 2 two_nodes_cmds two_nodes_run _ _ Hfit).
  by vm_compute.
Defined.

(** X16.  A clock of the Lamport-clock simulator never goes back: in a
    run from the start whose length fits an [int64], the clock of a node
    at a later moment is not below its clock at an earlier moment,
    whichever goroutines (counter, pollers, [sendMessage], [freeze]) ran
    in between. *)
Theorem lamport_clock_never_goes_back nodeCount cmds es1 es2 s1 s2 i n1 :
  exec es1 (start nodeCount cmds) = Ok s1 ->
  exec es2 s1 = Ok s2 ->
  Z.of_nat (length es1 + length es2) <= Int64.max_int ->
  nodes s1 !! i = Some n1 ->
  exists n2, nodes s2 !! i = Some n2 /\ n_t n1 <= n_t n2.
Proof.
  intros He1 He2 Hfit Hn.
  assert (sim_inv (length es1) s1) as Hinv.
  { apply (sim_inv_exec es1 0 _ s1 (sim_inv_start nodeCount cmds));
      [simpl; lia|done]. }
  by apply (exec_clock es2 (length es1) s1 s2 i n1).
Qed.

Lemma lamport_clock_never_goes_back_witness :
  exists s1 s2 n1,
    exec [Counter 0; Counter 0] (start 2 two_nodes_cmds) = Ok s1 /\
    exec (schedule (CmdSend 0 1 "a")) s1 = Ok s2 /\
    nodes s1 !! 1%nat = Some n1 /\
    exists n2, nodes s2 !! 1%nat = Some n2 /\ n_t n1 <= n_t n2.
Proof.
  do 3 eexists.
  split; [by vm_compute|]. split; [by vm_compute|]. split; [by vm_compute|].
  refine (lamport_clock_never_goes_back 2 two_nodes_cmds
            [Counter 0; Counter 0] (schedule (CmdSend 0 1 "a"))
            _ _ 1 _ _ _ _ _).
  - by vm_compute.
  - by vm_compute.
  - discriminate.
  - by vm_compute.
Defined.

(** X17.  The Lamport-clock simulator logs a receipt only after the send,
    with a later clock: in a run from the start whose length fits an
    [int64], a line "Node n (#t1 -> #t2) receives message (#mt)" has
    [t1 < t2] and [mt < t2], and further up in the log there is a line of
    a send to node [n] that shows a time not before [mt].  This holds
    whatever the counters and the other goroutines do between the reads
    of the clock in [sendMessage] and [receiveMessage]. *)
Theorem lamport_receipt_after_send
    nodeCount cmds es s b n t1 t2 data mt :
  exec es (start nodeCount cmds) = Ok s ->
  Z.of_nat (length es) <= Int64.max_int ->
  log s !! b = Some (Received n t1 t2 data mt) ->
  t1 < t2 /\ mt < t2 /\
  exists a source t,
    (a < b)%nat /\ log s !! a = Some (Sent source t n) /\ mt <= t.
Proof.
  intros He Hfit Hb.
  pose proof (sim_inv_exec es 0 _ s (sim_inv_start nodeCount cmds) Hfit He)
    as [_ _ _ Hrc].
  by apply (Hrc b n t1 t2 data mt).
Qed.

Lemma lamport_receipt_after_send_witness :
  exists s,
    exec two_nodes_run (start 2 two_nodes_cmds) = Ok s /\
    log s !! 1%nat = Some (Received 1 0 2 "a" 1) /\
    exists a source t,
      (a < 1)%nat /\ log s !! a = Some (Sent source t 1) /\ 1 <= t.
Proof.
  eexists. split; [by vm_compute|]. split; [by vm_compute|].
  refine (proj2 (proj2 (lamport_receipt_after_send 2 two_nodes_cmds
                          two_nodes_run _ 1 1 0 2 "a" 1 _ _ _))).
  - by vm_compute.
  - discriminate.
  - by vm_compute.
Defined.

(** X18.  What "n.t should not change much" in [freeze] comes to: while
    [freezing] is set on a node and neither its poller nor a goroutine of
    [freeze] moves, the counter adds at most one to its clock, and that
    only if it had left the loop on [freezing] before; otherwise the clock
    stays as it is. *)
Theorem frozen_clock_ticks_at_most_once s es s' i n :
  nodes s !! i = Some n -> freezing n = true ->
  Forall (leaves_frozen i) es -> exec es s = Ok s' ->
  exists n',
    nodes s' !! i = Some n' /\ freezing n' = true /\
    (n_t n' = n_t n \/
     passed n = true /\ n_t n' = Int64.incr (n_t n)).
Proof.
  intros Hn Hf Hq He.
  destruct (exec_frozen es s s' i n Hn Hf Hq He) as (n' & Hn' & Hf' & H).
  exists n'. split; [done|]. split; [done|].
  destruct H as [[? _]|(? & _ & ?)]; [by left|by right].
Qed.

Lemma frozen_clock_ticks_at_most_once_witness :
  exec two_nodes_run (start 2 two_nodes_cmds) = Ok frozen_system /\
  Forall (leaves_frozen 1) frozen_run /\
  exists s',
    exec frozen_run frozen_system = Ok s' /\
    exists n',
      nodes s' !! 1%nat = Some n' /\ freezing n' = true /\
      (n_t n' = 2 \/ true = true /\ n_t n' = Int64.incr 2).
Proof.
  assert (Forall (leaves_frozen 1) frozen_run) as Hq
    by (repeat constructor).
  split; [by vm_compute|]. split; [exact Hq|].
  eexists. split; [by vm_compute|].
  refine (frozen_clock_ticks_at_most_once frozen_system frozen_run _ 1
            {| id := 1; n_t := 2; freezing := true; passed := true;
               receiver := Polling |} eq_refl eq_refl Hq _).
  by vm_compute.
Defined.

(** X19.  A send that runs undisturbed follows Lamport's rule: from a
    system where [main] is at the prompt and the pollers wait, the command
    [send source target data], carried out by [main] and the poller of the
    target with no other goroutine in between, logs the send at the clock
    [ts] of the source and the receipt "#tt -> #t2 (#ts)" at the target,
    [t2] being the larger of [ts] and the clock [tt] of the target plus
    one in 64 bits; it leaves the target at [t2], every other node as it
    was, and the system ready for the next command. *)
Theorem send_alone_follows_lamport_rule
    s source target data rest n tg :
  at_rest s -> stdin s = CmdSend source target data :: rest ->
  index (nodes s) source = Ok n -> index (nodes s) target = Ok tg ->
  exists s',
    exec (schedule (CmdSend source target data)) s = Ok s' /\
    at_rest s' /\ stdin s' = rest /\
    log s' = log s ++
      [Sent (id n) (n_t n) (id tg);
       Received (id tg) (n_t tg) (Int64.incr (Z.max (n_t n) (n_t tg)))
         data (n_t n)] /\
    clock_of s' (Z.to_nat target)
      = Some (Int64.incr (Z.max (n_t n) (n_t tg))) /\
    forall j, j <> Z.to_nat target -> nodes s' !! j = nodes s !! j.
Proof.
  intros Hrest Hin Hs Ht.
  assert ((if n_t tg <? n_t n then n_t n else n_t tg)
          = Z.max (n_t n) (n_t tg)) as Emax
    by (destruct (Z.ltb_spec (n_t tg) (n_t n)); lia).
  pose proof (send_alone s source target data rest n tg Hrest Hin Hs Ht)
    as He. simpl in He. rewrite Emax in He.
  pose proof (index_lookup _ _ _ Ht) as Hlt.
  apply lookup_lt_Some in Hlt as Hlen.
  eexists. split; [exact He|]. simpl. destruct Hrest as [_ Hr].
  split; [split; [done|]|].
  { apply Forall_insert; [done|]. simpl.
    rewrite Forall_forall in Hr. apply Hr, list_elem_of_lookup. eauto. }
  split; [done|]. split; [done|]. split.
  - unfold clock_of. simpl. by rewrite list_lookup_insert_eq.
  - intros j Hj. by rewrite list_lookup_insert_ne.
Qed.

Lemma send_alone_follows_lamport_rule_witness :
  at_rest (start 2 [CmdSend 1 0 "b"]) /\
  exists s',
    exec (schedule (CmdSend 1 0 "b")) (start 2 [CmdSend 1 0 "b"]) = Ok s' /\
    at_rest s' /\ stdin s' = [] /\
    log s' = [] ++ [Sent 1 0 0; Received 0 0 (Int64.incr (Z.max 0 0)) "b" 0]
    /\
    clock_of s' (Z.to_nat 0) = Some (Int64.incr (Z.max 0 0)) /\
    forall j, j <> Z.to_nat 0 ->
      nodes s' !! j = nodes (start 2 [CmdSend 1 0 "b"]) !! j.
Proof.
  pose proof (start_at_rest 2 [CmdSend 1 0 "b"]) as Hrest.
  split; [exact Hrest|].
  exact (send_alone_follows_lamport_rule (start 2 [CmdSend 1 0 "b"])
           1 0 "b" [] (newNode 1) (newNode 0) Hrest eq_refl eq_refl eq_refl).
Defined.

(** X20.  Once [main] of the Lamport-clock simulator has made and started
    its [nodeCount] nodes, a run of its goroutines (the counters, the
    pollers, the goroutines of [freeze], [main] with its [send] and
    [freeze] commands) can end in a panic exactly when one of the
    commands typed in has a source, target or node number outside
    [0, nodeCount).  With every number in range no interleaving panics;
    with one out of range some interleaving does; and whenever a run
    panics, it is [main] at the prompt indexing [nodes] out of range for
    such a command. *)
Theorem lamport_panics_iff_command_out_of_range nodeCount cmds :
  ((exists es why, exec es (start nodeCount cmds) = Panic why) <->
   ~ Forall (names_nodes nodeCount) cmds) /\
  (forall es why,
     exec es (start nodeCount cmds) = Panic why ->
     why = IndexOutOfRange /\
     exists es1 s1 c rest,
       exec es1 (start nodeCount cmds) = Ok s1 /\
       main s1 = Prompt /\ stdin s1 = c :: rest /\
       ~ names_nodes nodeCount c).
Proof.
  split; [split|].
  - intros (es & why & He) Hall.
    destruct (exec_returns es (start nodeCount cmds)) as [s Hs];
      [by rewrite start_length|]. congruence.
  - intros Hbad.
    destruct (some_schedule_panics nodeCount cmds (start nodeCount cmds))
      as [es He]; [apply start_at_rest|apply start_length|done..|].
    by exists es, IndexOutOfRange.
  - intros es why He. apply exec_panic in He.
    by rewrite start_length in He.
Qed.

Lemma lamport_panics_iff_command_out_of_range_witness :
  exec [Main] (start 2 [CmdSend 0 2 "a"]) = Panic IndexOutOfRange /\
  ~ Forall (names_nodes 2) [CmdSend 0 2 "a"].
Proof.
  split; [by vm_compute|].
  apply (proj1 (proj1 (lamport_panics_iff_command_out_of_range 2 _))).
  exists [Main], IndexOutOfRange. by vm_compute.
Defined.

End LamportClockProps.
